(** * Cancelable stream pipelines of the go-study notes, and the roman-numeral server

    The pipeline stages ([generator], [multiply], [add], [repeatFn], [take],
    [primeFinder], [fanIn]) are the Go functions of the concurrency notes.
    Every stage is a goroutine; goroutines talk over unbuffered channels and
    share one [done] channel.  The embedding keeps that shape: a goroutine is
    the code of its stage together with a control point, a program state is the
    list of goroutines plus the channels that have been closed, the WaitGroup
    counters and what [main] has printed, and one step of the program is either
    one goroutine moving on its own or a sender and a receiver meeting on a
    channel. *)

From Stdlib Require Import ZArith Znumtheory Lia Ascii.
From stdpp Require Import base option numbers list functions gmap sets strings.

#[local] Set Warnings "-clear-no-such-hyp".

Local Open Scope Z_scope.

(** ** Machine integers

    Go's [int] on the 64-bit targets: arithmetic wraps around. *)

Definition min_int : Z := - 2 ^ 63.
Definition max_int : Z := 2 ^ 63 - 1.

Definition wrap_int (z : Z) : Z := (z + 2 ^ 63) mod 2 ^ 64 - 2 ^ 63.

Definition in_int (z : Z) : Prop := min_int <= z <= max_int.

(** ** The primality test inside [primeFinder]

<<
    for divisor := integer - 1; divisor > 1; divisor-- {
        if integer%divisor == 0 { prime = false; break }
    }
>>
    [fuel] bounds the number of iterations; [Z.rem] is Go's [%], whose result
    takes the sign of the dividend. *)

Fixpoint divisor_loop (fuel : nat) (integer divisor : Z) : bool :=
  match fuel with
  | O => true
  | S fuel' =>
      if divisor >? 1 then
        if Z.rem integer divisor =? 0 then false
        else divisor_loop fuel' integer (divisor - 1)
      else true
  end.

(** What [primeFinder] does with one value read from [intStream]:
    [integer -= 1], the loop above, and the emission of [integer] when
    [prime] is still true. [None] means that nothing is sent. *)

Definition primeFinder_item (n : Z) : option Z :=
  let integer := wrap_int (n - 1) in
  let divisor := wrap_int (integer - 1) in
  if divisor_loop (Z.to_nat (divisor - 1)) integer divisor
  then Some integer else None.

(** [multiply] and [add] send [i * multiplier] and [i + additive]. *)

Definition multiply_item (multiplier i : Z) : option Z := Some (wrap_int (i * multiplier)).
Definition add_item (additive i : Z) : option Z := Some (wrap_int (i + additive)).

Local Close Scope Z_scope.

(** ** Values, channels and blocking operations *)

Abbreviation chan := nat.
Abbreviation wgid := nat.

(** A value travelling on a channel: an [int], or the [nil] that a receive from
    a closed [chan interface{}] yields. *)

Inductive value :=
| VNil
| VInt (z : Z).

#[global] Instance value_eq_dec : EqDecision value.
Proof. solve_decision. Defined.

(** A stage written for [chan int] applied to a value. *)

Definition on_int (g : Z -> option Z) (v : value) : option value :=
  match v with
  | VInt i => VInt <$> g i
  | VNil => None
  end.

(** The operation a goroutine is about to perform. *)

Inductive op :=
| ORecv (c : chan)
| OSend (c : chan) (v : value)
| OSelect (d c : chan) (v : value)
| OClose (c : chan)
| OWgDone (w : wgid)
| OWgWait (w : wgid)
| OHalt.

(** How the operation came out. *)

Inductive resp :=
| RVal (v : value)
| RClosed
| RDone
| RSent
| ROk.

(** Control points: the top of the loop (with the loop counter), inside the
    [select] with the value to send, the deferred call, returned. *)

Inductive pc :=
| AtLoop (k : nat)
| AtSelect (k : nat) (v : value)
| AtExit
| Halted.

#[global] Instance pc_eq_dec : EqDecision pc.
Proof. solve_decision. Defined.

(** ** The stages *)

Inductive stage :=
| Generator (done out : chan) (integers : list value)
| RepeatFn (done out : chan) (fn : nat -> value)
| Transform (done inp out : chan) (f : value -> option value)
| Take (done inp out : chan) (num : Z)
| Multiplex (done inp out : chan) (wg : wgid)
| Closer (wg : wgid) (out : chan)
| Main (done inp : chan).

Definition multiply (done inp out : chan) (multiplier : Z) : stage :=
  Transform done inp out (on_int (multiply_item multiplier)).

Definition add (done inp out : chan) (additive : Z) : stage :=
  Transform done inp out (on_int (add_item additive)).

Definition primeFinder (done inp out : chan) : stage :=
  Transform done inp out (on_int primeFinder_item).

(** [fanIn]: one [multiplex] goroutine per input channel and the goroutine
    that waits for them and closes [multiplexedStream]. [wg.Add(len(channels))]
    runs before any of them starts, see [fanIn_wg]. *)

Definition fanIn (done : chan) (channels : list chan) (out : chan) (wg : wgid) : list stage :=
  map (fun c => Multiplex done c out wg) channels ++ [Closer wg out].

Definition fanIn_wg (channels : list chan) : nat := length channels.

(** The operation pending at a control point. *)

Definition pending (st : stage) (p : pc) : op :=
  match st, p with
  | Generator done out integers, AtLoop k =>
      match integers !! k with
      | Some i => OSelect done out i
      | None => OClose out
      end
  | Generator _ out _, AtExit => OClose out
  | RepeatFn done out fn, AtLoop k => OSelect done out (fn k)
  | RepeatFn _ out _, AtExit => OClose out
  | Transform _ inp _ _, AtLoop _ => ORecv inp
  | Transform done _ out _, AtSelect _ v => OSelect done out v
  | Transform _ _ out _, AtExit => OClose out
  | Take _ inp out num, AtLoop i =>
      if (Z.of_nat i <? num)%Z then ORecv inp else OClose out
  | Take done _ out _, AtSelect _ v => OSelect done out v
  | Take _ _ out _, AtExit => OClose out
  | Multiplex _ inp _ _, AtLoop _ => ORecv inp
  | Multiplex done _ out _, AtSelect _ v => OSelect done out v
  | Multiplex _ _ _ wg, AtExit => OWgDone wg
  | Closer wg _, AtLoop _ => OWgWait wg
  | Closer _ out, AtExit => OClose out
  | Main _ inp, AtLoop _ => ORecv inp
  | Main done _, AtExit => OClose done
  | _, _ => OHalt
  end.

(** The control point after the operation. *)

Definition resume (st : stage) (p : pc) (r : resp) : pc :=
  match st, p, r with
  | Generator _ _ _, AtLoop k, RSent => AtLoop (S k)
  | Generator _ _ _, AtLoop _, RDone => AtExit
  | Generator _ _ _, AtLoop _, ROk => Halted
  | RepeatFn _ _ _, AtLoop k, RSent => AtLoop (S k)
  | RepeatFn _ _ _, AtLoop _, RDone => AtExit
  | Transform _ _ _ f, AtLoop k, RVal v =>
      match f v with
      | Some y => AtSelect k y
      | None => AtLoop k
      end
  | Transform _ _ _ _, AtLoop _, RClosed => AtExit
  | Transform _ _ _ _, AtSelect k _, RSent => AtLoop k
  | Transform _ _ _ _, AtSelect _ _, RDone => AtExit
  | Take _ _ _ _, AtLoop i, RVal v => AtSelect i v
  | Take _ _ _ _, AtLoop i, RClosed => AtSelect i VNil
  | Take _ _ _ _, AtLoop _, ROk => Halted
  | Take _ _ _ _, AtSelect i _, RSent => AtLoop (S i)
  | Take _ _ _ _, AtSelect _ _, RDone => AtExit
  | Multiplex _ _ _ _, AtLoop k, RVal v => AtSelect k v
  | Multiplex _ _ _ _, AtLoop _, RClosed => AtExit
  | Multiplex _ _ _ _, AtSelect k _, RSent => AtLoop k
  | Multiplex _ _ _ _, AtSelect _ _, RDone => AtExit
  | Closer _ _, AtLoop _, ROk => AtExit
  | Main _ _, AtLoop k, RVal _ => AtLoop k
  | Main _ _, AtLoop _, RClosed => AtExit
  | _, AtExit, ROk => Halted
  | _, _, _ => p
  end.

(** What the step prints: [main] prints every value it receives. *)

Definition prints (st : stage) (p : pc) (r : resp) : list value :=
  match st, p, r with
  | Main _ _, AtLoop _, RVal v => [v]
  | _, _, _ => []
  end.

(** ** Program states *)

Record goroutine := Go { code : stage; ctl : pc }.

(** One value handed over on a channel, from goroutine [ev_from] to
    goroutine [ev_to]. *)

Record event := Ev { ev_chan : chan; ev_val : value; ev_from : nat; ev_to : nat }.

(** [trace] is the history of hand-overs; no step reads it. *)

Record state := State {
  procs : list goroutine;
  closed : gset chan;
  wgs : wgid -> nat;
  output : list value;
  trace : list event;
  panicked : bool
}.

Definition panic (s : state) : state :=
  State (procs s) (closed s) (wgs s) (output s) (trace s) true.

(** [close(c)]: a second close is a run-time panic. *)

Definition close_chan (c : chan) (s : state) : state :=
  if decide (c ∈ closed s) then panic s
  else State (procs s) ({[c]} ∪ closed s) (wgs s) (output s) (trace s) (panicked s).

(** [wg.Done()]: a counter below zero is a run-time panic. *)

Definition wg_done (w : wgid) (s : state) : state :=
  match wgs s w with
  | O => panic s
  | S n => State (procs s) (closed s) (<[w := n]> (wgs s)) (output s) (trace s) (panicked s)
  end.

Definition record (e : event) (s : state) : state :=
  State (procs s) (closed s) (wgs s) (output s) (trace s ++ [e]) (panicked s).

(** Goroutine [i] gets the outcome [r] of its pending operation. *)

Definition advance (i : nat) (g : goroutine) (r : resp) (s : state) : state :=
  State (<[i := Go (code g) (resume (code g) (ctl g) r)]> (procs s))
        (closed s) (wgs s)
        (output s ++ prints (code g) (ctl g) r)
        (trace s) (panicked s).

Definition op_of (g : goroutine) : op := pending (code g) (ctl g).

(** A goroutine moving on its own: a receive from a closed channel, the
    [<-done] case of a [select], a close, the WaitGroup. *)

Definition local (i : nat) (s : state) : option state :=
  g ← procs s !! i;
  match op_of g with
  | ORecv c => if decide (c ∈ closed s) then Some (advance i g RClosed s) else None
  | OSend _ _ => None
  | OSelect d _ _ => if decide (d ∈ closed s) then Some (advance i g RDone s) else None
  | OClose c =>
      if decide (c ∈ closed s) then Some (panic s)
      else Some (advance i g ROk (close_chan c s))
  | OWgDone w =>
      match wgs s w with
      | O => Some (panic s)
      | S _ => Some (advance i g ROk (wg_done w s))
      end
  | OWgWait w =>
      match wgs s w with
      | O => Some (advance i g ROk s)
      | S _ => None
      end
  | OHalt => None
  end.

Definition sends (o : op) : option (chan * value) :=
  match o with
  | OSend c v => Some (c, v)
  | OSelect _ c v => Some (c, v)
  | _ => None
  end.

(** Sender [i] and receiver [j] meet on an open channel. *)

Definition comm (i j : nat) (s : state) : option state :=
  if decide (i = j) then None else
  gi ← procs s !! i;
  gj ← procs s !! j;
  cv ← sends (op_of gi);
  match op_of gj with
  | ORecv c =>
      if decide (c = cv.1 ∧ c ∉ closed s)
      then Some (record (Ev c cv.2 i j) (advance j gj (RVal cv.2) (advance i gi RSent s)))
      else None
  | _ => None
  end.

(** A send on a closed channel is a run-time panic. *)

Definition send_closed (i : nat) (s : state) : option state :=
  g ← procs s !! i;
  cv ← sends (op_of g);
  if decide (cv.1 ∈ closed s) then Some (panic s) else None.

Inductive choice :=
| Local (i : nat)
| Comm (i j : nat)
| SendClosed (i : nat).

Definition exec1 (ch : choice) (s : state) : option state :=
  if panicked s then None else
  match ch with
  | Local i => local i s
  | Comm i j => comm i j s
  | SendClosed i => send_closed i s
  end.

Definition step (s s' : state) : Prop := ∃ ch, exec1 ch s = Some s'.

(** A run under a schedule. *)

Fixpoint run (sched : list choice) (s : state) : option state :=
  match sched with
  | [] => Some s
  | ch :: sched' => s' ← exec1 ch s; run sched' s'
  end.

Definition reachable (s0 s : state) : Prop := ∃ sched, run sched s0 = Some s.

Definition boot (stages : list stage) (wg0 : wgid -> nat) : state :=
  State (map (fun st => Go st (AtLoop 0)) stages) ∅ wg0 [] [] false.

Definition halted (s : state) : Prop := Forall (fun g => ctl g = Halted) (procs s).

Definition stuck (s : state) : Prop := ∀ ch, exec1 ch s = None.

(** ** The programs

    Channel 0 is [done] in every program. *)

Definition no_wg : wgid -> nat := fun _ => 0.

(** [generator(done, integers...)] feeding one transform stage, [main] ranging
    over the result. *)

Definition chain_net (integers : list value) (f : value -> option value) : state :=
  boot [Generator 0 1 integers; Transform 0 1 2 f; Main 0 2] no_wg.

(** [take(done, valueStream, num)] over a finite stream, [main] ranging over
    the result. *)

Definition take_net (values : list value) (num : Z) : state :=
  boot [Generator 0 1 values; Take 0 1 2 num; Main 0 2] no_wg.

(** The fan-out, fan-in program: [W] workers running the same stage on the
    shared [intStream], [fanIn] over their outputs, [take], and [main] ranging
    over the result. Channel 1 is the shared input, 2 [multiplexedStream],
    3 [takeStream], and [worker_out w] the output of worker [w]. *)

Definition worker_out (w : nat) : chan := 4 + w.

Definition fofi_stages (integers : list value) (f : value -> option value)
    (W : nat) (num : Z) : list stage :=
  Generator 0 1 integers ::
  map (fun w => Transform 0 1 (worker_out w) f) (seq 0 W) ++
  fanIn 0 (map worker_out (seq 0 W)) 2 0 ++
  [Take 0 2 3 num; Main 0 3].

Definition fofi_wg (W : nat) : wgid -> nat :=
  <[0 := fanIn_wg (map worker_out (seq 0 W))]> no_wg.

Definition fofi_net (integers : list value) (f : value -> option value)
    (W : nat) (num : Z) : state :=
  boot (fofi_stages integers f W num) (fofi_wg W).

(** What a generator has handed over when it stands at [p], and the value a
    goroutine holds inside its [select]. *)

Definition handed (integers : list value) (p : pc) : list value :=
  match p with
  | AtLoop k => take k integers
  | _ => integers
  end.

Definition holding (p : pc) : list value :=
  match p with
  | AtSelect _ v => [v]
  | _ => []
  end.

(** The control point of goroutine [i]. *)

Definition ctl_at (s : state) (i : nat) : pc := default Halted (ctl <$> procs s !! i).

(** Everything that has come out of the stages and is still on its way or
    already printed. *)

Definition afloat (s : state) : list value :=
  output s ++ concat (map (fun g => holding (ctl g)) (procs s)).

(** The values handed over on channel [c], in order. *)

Definition delivered (c : chan) (tr : list event) : list value :=
  map ev_val (filter (fun e => ev_chan e = c) tr).
(** ** The runs of the examples *)

Definition ints (l : list Z) : list value := map VInt l.

(** [generator(done, 1, 2, 3, 4)] piped through [multiply(done, _, 2)]; the
    schedule hands the four values over one by one. *)

Definition double_net : state := chain_net (ints [1; 2; 3; 4]%Z) (on_int (multiply_item 2)).

Definition double_sched : list choice :=
  concat (replicate 4 [Comm 0 1; Comm 1 2]) ++
  [Local 0; Local 1; Local 1; Local 2; Local 2].

(** [take(done, valueStream, 3)] over a stream that carries the one value 7,
    and [take(done, valueStream, 1)] over a stream closed at once. *)

Definition short_net : state := take_net [VInt 7] 3.

Definition short_sched : list choice :=
  [Comm 0 1; Comm 1 2; Local 0; Local 1; Comm 1 2; Local 1; Comm 1 2;
   Local 1; Local 2; Local 2].

Definition closed_net : state := take_net [] 1.

Definition closed_sched : list choice :=
  [Local 0; Local 1; Comm 1 2; Local 1; Local 2; Local 2].

(** Three prime finders over 2, 3, ..., 11, [fanIn] and [take(done, _, 5)].
    In this schedule the first finder takes every value. *)

Definition prime_net : state :=
  fofi_net (ints [2; 3; 4; 5; 6; 7; 8; 9; 10; 11]%Z) (on_int primeFinder_item) 3 5.

Definition prime_pass : list choice := [Comm 0 1; Comm 1 4; Comm 4 8; Comm 8 9].

Definition prime_sched : list choice :=
  prime_pass ++ prime_pass ++ prime_pass ++ [Comm 0 1] ++ prime_pass ++
  [Comm 0 1] ++ prime_pass ++
  [Local 8; Local 9; Local 9; Local 0; Local 0; Local 1; Local 1; Local 2;
   Local 2; Local 3; Local 3; Local 4; Local 4; Local 5; Local 5; Local 6;
   Local 6; Local 7; Local 7].

(** Two finders over 3 and 4: the finders take one value each, and either
    result reaches [main] first. *)

Definition pair_net : state := fofi_net (ints [3; 4]%Z) (on_int primeFinder_item) 2 2.

Definition pair_sched_a : list choice :=
  [Comm 0 1; Comm 0 2; Comm 1 3; Comm 3 6; Comm 6 7; Comm 2 4; Comm 4 6; Comm 6 7].

Definition pair_sched_b : list choice :=
  [Comm 0 1; Comm 0 2; Comm 2 4; Comm 4 6; Comm 6 7; Comm 1 3; Comm 3 6; Comm 6 7].

(** One finder over 3 and 4 with [take(done, _, 1)]: when [main] has closed
    [done], the finder is back at the head of its [range] loop. *)

Definition cancel_net : state := fofi_net (ints [3; 4]%Z) (on_int primeFinder_item) 1 1.

Definition cancel_sched : list choice :=
  [Comm 0 1; Comm 1 2; Comm 2 4; Comm 4 5; Local 4; Local 5; Local 5].

(** One finder over 3, 4 and 6 with [take(done, _, 1)]: the run above, and
    then, with [done] closed, the finder hands its second result to the
    [multiplex] goroutine, which returns from its [select]; the waiting
    goroutine closes the stream of [fanIn]; and the finder takes the 6. *)

Definition open_input_net : state := fofi_net (ints [3; 4; 6]%Z) (on_int primeFinder_item) 1 1.

Definition open_input_sched : list choice :=
  cancel_sched ++
  [Comm 0 1; Comm 1 2; Local 2; Local 2; Local 3; Local 3; Comm 0 1].

(** A state in which [done] has just been closed. *)

Definition done_closed : state := close_chan 0 (boot [Main 0 1] no_wg).
(** The values a stage hands on by its own count: a generator its integers,
    [take] its [num]. *)

Definition work (st : stage) : nat :=
  match st with
  | Generator _ _ integers => length integers
  | Take _ _ _ num => Z.to_nat num
  | _ => 0
  end.
(** ** The pipeline on slices

    [multiply] and [add] of the first pipeline of the notes take a slice
    and return a new one: [make([]int, len(values))], then one store for
    each index of the [range] loop. *)

Module Batch.

Fixpoint store_each (g : Z -> Z) (values : list Z) (i : nat) (out : list Z) : list Z :=
  match values with
  | [] => out
  | v :: values' => store_each g values' (S i) (<[i := g v]> out)
  end.

Definition multiply (values : list Z) (multiplier : Z) : list Z :=
  store_each (fun v => wrap_int (v * multiplier)) values 0 (replicate (length values) 0%Z).

Definition add (values : list Z) (additive : Z) : list Z :=
  store_each (fun v => wrap_int (v + additive)) values 0 (replicate (length values) 0%Z).

End Batch.

(** ** Well-formed pipelines

    What a stage owns and touches, read off its parameters. *)

(** The channel the stage closes when it returns: its own output stream, and
    for [main] the [done] channel. *)

Definition closes (st : stage) : option chan :=
  match st with
  | Generator _ out _ => Some out
  | RepeatFn _ out _ => Some out
  | Transform _ _ out _ => Some out
  | Take _ _ out _ => Some out
  | Multiplex _ _ _ _ => None
  | Closer _ out => Some out
  | Main done _ => Some done
  end.

(** The stream the stage receives from. *)

Definition reads (st : stage) : option chan :=
  match st with
  | Transform _ inp _ _ => Some inp
  | Take _ inp _ _ => Some inp
  | Multiplex _ inp _ _ => Some inp
  | Main _ inp => Some inp
  | _ => None
  end.

(** The cancellation channel the stage selects on. *)

Definition done_of (st : stage) : option chan :=
  match st with
  | Generator done _ _ => Some done
  | RepeatFn done _ _ => Some done
  | Transform done _ _ _ => Some done
  | Take done _ _ _ => Some done
  | Multiplex done _ _ _ => Some done
  | Closer _ _ => None
  | Main done _ => Some done
  end.

Definition is_mux (w : wgid) (st : stage) : bool :=
  match st with
  | Multiplex _ _ _ w' => bool_decide (w' = w)
  | _ => false
  end.

Definition is_repeat (st : stage) : bool :=
  match st with
  | RepeatFn _ _ _ => true
  | _ => false
  end.

Definition is_main (st : stage) : bool :=
  match st with
  | Main _ _ => true
  | _ => false
  end.

(** A pipeline as the notes build them: all stages share [done]; every stream
    has one owner, started before its readers; the [multiplex] goroutines of a
    WaitGroup come with the one goroutine that waits for them and closes their
    common output; the WaitGroup starts at their number. *)

Record wf_net (d : chan) (stages : list stage) (wg0 : wgid -> nat) : Prop := {
  wf_done : forall st d', st ∈ stages -> done_of st = Some d' -> d' = d;
  wf_owner : NoDup (omap closes stages);
  wf_reads : forall i st c, stages !! i = Some st -> reads st = Some c ->
    exists j st', j < i /\ stages !! j = Some st' /\ closes st' = Some c;
  wf_mux : forall i dd c out w, stages !! i = Some (Multiplex dd c out w) ->
    exists j, i < j /\ stages !! j = Some (Closer w out);
  wf_closer : forall j j' w out out',
    stages !! j = Some (Closer w out) -> stages !! j' = Some (Closer w out') -> j = j';
  wf_wg : forall w, wg0 w = length (filter (fun st => is_mux w st = true) stages)
}.

(** A goroutine that has not returned has something to do. *)

Definition pc_ok (st : stage) (p : pc) : Prop := p = Halted \/ pending st p <> OHalt.

Definition live_mux (w : wgid) (g : goroutine) : Prop :=
  is_mux w (code g) = true /\ ctl g <> Halted.

#[global] Instance live_mux_dec w g : Decision (live_mux w g).
Proof. unfold live_mux. apply _. Defined.

(** What holds in every state of a well-formed pipeline. *)

Record inv (stages : list stage) (s : state) : Prop := {
  inv_code : map code (procs s) = stages;
  inv_nopanic : panicked s = false;
  inv_pc : forall i g, procs s !! i = Some g -> pc_ok (code g) (ctl g);
  inv_closed : forall i g c, procs s !! i = Some g -> closes (code g) = Some c ->
    (c ∈ closed s <-> ctl g = Halted);
  inv_wg : forall w, wgs s w = length (filter (live_mux w) (procs s));
  inv_closer : forall i g w out, procs s !! i = Some g -> code g = Closer w out ->
    (forall k, ctl g <> AtLoop k) -> wgs s w = 0
}.

(** The steps left to a goroutine when no value is handed over any more. *)

Definition pc_rank (p : pc) : nat :=
  match p with
  | AtLoop _ => 3
  | AtSelect _ _ => 2
  | AtExit => 1
  | Halted => 0
  end.

Definition rank (s : state) : nat := sum_list (map (fun g => pc_rank (ctl g)) (procs s)).

(** The steps that do not panic, spelled out. *)

Inductive moves (s : state) : state -> Prop :=
| move_recv_closed i g c :
    procs s !! i = Some g -> op_of g = ORecv c -> c ∈ closed s ->
    moves s (State (<[i:=Go (code g) (resume (code g) (ctl g) RClosed)]> (procs s))
               (closed s) (wgs s) (output s) (trace s) (panicked s))
| move_done i g d c v :
    procs s !! i = Some g -> op_of g = OSelect d c v -> d ∈ closed s ->
    moves s (State (<[i:=Go (code g) (resume (code g) (ctl g) RDone)]> (procs s))
               (closed s) (wgs s) (output s) (trace s) (panicked s))
| move_close i g c :
    procs s !! i = Some g -> op_of g = OClose c -> c ∉ closed s ->
    moves s (State (<[i:=Go (code g) Halted]> (procs s))
               ({[c]} ∪ closed s) (wgs s) (output s) (trace s) (panicked s))
| move_wg_done i g w n :
    procs s !! i = Some g -> op_of g = OWgDone w -> wgs s w = S n ->
    moves s (State (<[i:=Go (code g) Halted]> (procs s))
               (closed s) (<[w:=n]> (wgs s)) (output s) (trace s) (panicked s))
| move_wg_wait i g w :
    procs s !! i = Some g -> op_of g = OWgWait w -> wgs s w = 0 ->
    moves s (State (<[i:=Go (code g) AtExit]> (procs s))
               (closed s) (wgs s) (output s) (trace s) (panicked s))
| move_comm i j gi gj d c v :
    i <> j -> procs s !! i = Some gi -> procs s !! j = Some gj ->
    op_of gi = OSelect d c v -> op_of gj = ORecv c -> c ∉ closed s ->
    moves s (State (<[j:=Go (code gj) (resume (code gj) (ctl gj) (RVal v))]>
                      (<[i:=Go (code gi) (resume (code gi) (ctl gi) RSent)]> (procs s)))
               (closed s) (wgs s)
               (output s ++ prints (code gj) (ctl gj) (RVal v))
               (trace s ++ [Ev c v i j]) (panicked s)).

(** A bound on the steps left to a pipeline without [repeatFn]. A value held
    by the goroutine at position [i] of [n] weighs [2 * (n - i)]: it can only
    travel to goroutines further down the list. *)

Definition held (n i : nat) : nat := 2 * (n - i).

Definition potential_at (n i : nat) (g : goroutine) : nat :=
  match code g, ctl g with
  | Generator _ _ integers, AtLoop k => (length integers - k) * held n i + 3
  | Transform _ _ _ _, AtSelect _ _ => held n i + 2
  | Multiplex _ _ _ _, AtSelect _ _ => held n i + 2
  | Take _ _ _ num, AtLoop k => Z.to_nat (num - Z.of_nat k) * held n i + 3
  | Take _ _ _ num, AtSelect k _ => S (Z.to_nat (num - Z.of_nat (S k))) * held n i + 2
  | _, p => pc_rank p
  end.

Definition potential (s : state) : nat :=
  sum_list (imap (potential_at (length (procs s))) (procs s)).

(** While [done] is open: a stage that ranges over its input leaves the loop
    only when the input is closed, and a generator or [take] never takes the
    [<-done] branch. *)

Definition is_range (st : stage) : bool :=
  match st with
  | Transform _ _ _ _ | Multiplex _ _ _ _ | Main _ _ => true
  | _ => false
  end.

Definition is_closer (st : stage) : bool :=
  match st with
  | Closer _ _ => true
  | _ => false
  end.

Record open_inv (d : chan) (s : state) : Prop := {
  open_range : forall i g c, procs s !! i = Some g -> is_range (code g) = true ->
    reads (code g) = Some c -> d ∉ closed s ->
    ctl g = AtExit \/ ctl g = Halted -> c ∈ closed s;
  open_noexit : forall i g, procs s !! i = Some g -> is_range (code g) = false ->
    is_closer (code g) = false -> d ∉ closed s -> ctl g <> AtExit
}.
(** ** What the streams have carried

    The values handed over on the output of a stage, against those handed
    over on its input; for [take], [m] counts the receives from the closed
    input. *)

Definition taken (num : Z) (p : pc) (n : nat) : Prop :=
  match p with
  | AtLoop i => n = i /\ i <= Z.to_nat num
  | AtSelect i _ => n = i /\ i < Z.to_nat num
  | AtExit => True
  | Halted => n = Z.to_nat num
  end.

Definition stream_ok (s : state) (g : goroutine) : Prop :=
  match code g with
  | Generator _ out integers => delivered out (trace s) = handed integers (ctl g)
  | RepeatFn _ out fn =>
      exists k, ctl g = AtLoop k /\ delivered out (trace s) = map fn (seq 0 k)
  | Transform _ inp out f =>
      delivered out (trace s) ++ holding (ctl g) = omap f (delivered inp (trace s))
  | Take _ inp out num =>
      (exists m, delivered out (trace s) ++ holding (ctl g) =
                 delivered inp (trace s) ++ replicate m VNil /\
                 (0 < m -> inp ∈ closed s)) /\
      taken num (ctl g) (length (delivered out (trace s)))
  | Main _ inp => output s = delivered inp (trace s)
  | _ => True
  end.

Definition streams (s : state) : Prop :=
  forall i g, procs s !! i = Some g -> stream_ok s g.

Definition is_multiplex (st : stage) : bool :=
  match st with
  | Multiplex _ _ _ _ => true
  | _ => false
  end.

(** A pipeline without fan-out and fan-in: every stream has one reader, and
    no [multiplex] goroutine shares its output with another. *)

Record straight (stages : list stage) : Prop := {
  straight_reader : NoDup (omap reads stages);
  straight_single : forall st, st ∈ stages -> is_multiplex st = false
}.

(** Stages in a row: the generator, one transform stage for each function,
    and [main] ranging over the last stream. *)

Definition pipe_stages (integers : list value) (fs : list (value -> option value)) : list stage :=
  Generator 0 1 integers ::
  imap (fun j f => Transform 0 (1 + j) (2 + j) f) fs ++
  [Main 0 (1 + length fs)].

Definition pipe_net (integers : list value) (fs : list (value -> option value)) : state :=
  boot (pipe_stages integers fs) no_wg.

(** What the row computes: the stages one after the other. *)

Definition pipe (fs : list (value -> option value)) (l : list value) : list value :=
  foldl (fun acc f => omap f acc) l fs.

(** [take(done, repeatFn(done, fn), num)] with [main] ranging over the
    result; [fn k] is what the call number [k] of [fn] returns. *)

Definition repeat_take_net (fn : nat -> value) (num : Z) : state :=
  boot [RepeatFn 0 1 fn; Take 0 1 2 num; Main 0 2] no_wg.

(** Every stream of a [repeatFn] is read by a [take]. *)

Definition repeat_taken (stages : list stage) : Prop :=
  forall i st c j st',
    stages !! i = Some st -> is_repeat st = true -> closes st = Some c ->
    stages !! j = Some st' -> reads st' = Some c ->
    exists dd inp out num, st' = Take dd inp out num.

(** [repeat(done, values...)] for a list that is not empty: the send number
    [k] carries the element [k mod len(values)]. (With no values the outer
    loop of the source spins without reaching the [select].) *)

Definition repeat (done out : chan) (values : list value) : stage :=
  RepeatFn done out (fun k => default VNil (values !! (k mod length values))).
(** ** More runs of the examples *)

(** The pipeline of the notes on channels:
    [multiply(done, add(done, multiply(done, generator(done, ...), a), b), c)],
    with [main] ranging over it. *)

Definition three_stage_net (l : list Z) (a b c : Z) : state :=
  boot [Generator 0 1 (ints l); multiply 0 1 2 a; add 0 2 3 b; multiply 0 3 4 c; Main 0 4]
       no_wg.

Definition three_stage_sched : list choice :=
  concat (replicate 4 [Comm 0 1; Comm 1 2; Comm 2 3; Comm 3 4]) ++
  [Local 0; Local 1; Local 1; Local 2; Local 2; Local 3; Local 3; Local 4; Local 4].

(** [take(done, repeat(done, values...), num)], with [main] ranging over
    it. *)

Definition cycle_net (values : list value) (num : Z) : state :=
  boot [repeat 0 1 values; Take 0 1 2 num; Main 0 2] no_wg.

(** Three values taken, then [main] closes [done] and the generator
    returns. *)

Definition repeat_sched : list choice :=
  concat (replicate 3 [Comm 0 1; Comm 1 2]) ++
  [Local 1; Local 2; Local 2; Local 0; Local 0].

(** ** Type assertions

    [toInt] ranges over a stream of [interface{}] and sends [v.(int)]. The
    assertion is evaluated when the goroutine enters its [select] with the
    value [v] it has received; on a value that holds no int it is a run-time
    panic, and the program is over. *)

(** [v.(int)]: the int that [v] holds; [None] when it holds none, which is
    where the assertion panics. *)

Definition to_int (v : value) : option value :=
  match v with
  | VInt i => Some (VInt i)
  | VNil => None
  end.

Definition toInt (done inp out : chan) : stage := Transform done inp out to_int.

(** The receiver and the value of a hand-over. *)

Definition handed_over (ch : choice) (s : state) : option (nat * value) :=
  match ch with
  | Comm i j => g ← procs s !! i; cv ← sends (op_of g); Some (j, cv.2)
  | _ => None
  end.

(** The steps of a program whose goroutines [asserts] are [toInt] stages:
    the step of the program, and the panic of the assertion when the step
    hands one of them a value that holds no int. *)

Definition assertion_fails (asserts : nat -> bool) (ch : choice) (s : state) : bool :=
  match handed_over ch s with
  | Some (j, v) => asserts j && bool_decide (to_int v = None)
  | None => false
  end.

Definition exec1_asserting (asserts : nat -> bool) (ch : choice) (s : state) : option state :=
  s' ← exec1 ch s;
  Some (if assertion_fails asserts ch s then panic s' else s').

Fixpoint run_asserting (asserts : nat -> bool) (sched : list choice) (s : state) : option state :=
  match sched with
  | [] => Some s
  | ch :: sched' => s' ← exec1_asserting asserts ch s; run_asserting asserts sched' s'
  end.

(** The prime search of the notes without fan-out:
    [take(done, primeFinder(done, toInt(done, repeatFn(done, rand))), num)],
    with [main] ranging over it; [rand k] is what the call number [k] of
    [rand] returns. [toInt] is goroutine 1. *)

Definition prime_search_net (rand : nat -> Z) (num : Z) : state :=
  boot [RepeatFn 0 1 (fun k => VInt (rand k)); toInt 0 1 2; primeFinder 0 2 3;
        Take 0 3 4 num; Main 0 4] no_wg.

Definition prime_search_asserts (j : nat) : bool := bool_decide (j = 1).

(** A run of the search with [num] 2 in which the finder passes the second
    and the third result of [rand] and not the first: three values leave
    [repeatFn], two reach [main], and all goroutines return. *)

Definition prime_search_sched : list choice :=
  [Comm 0 1; Comm 1 2; Comm 0 1; Comm 1 2; Comm 2 3; Comm 3 4; Comm 0 1;
   Comm 1 2; Comm 2 3; Comm 3 4; Local 3; Local 4; Local 4; Local 0; Local 0;
   Local 1; Local 1; Local 2; Local 2].

(** [toInt] over [take] over a stream that is closed at once: [take] hands
    on the [nil] of the closed stream, and the assertion of [toInt],
    goroutine 2, panics. *)

Definition nil_assert_net : state :=
  boot [Generator 0 1 []; Take 0 1 2 1; toInt 0 2 3; Main 0 3] no_wg.

Definition nil_assert_sched : list choice := [Local 0; Local 1; Comm 1 2].

(** The loop of [take] in [BenchmarkTyped]: [for i := num; i > 0 || i == -1;]
    with [i--] unless [i] is -1. [cancelled k] says whether the [select] of
    the round with [k] values sent takes the [done] case. The result is the
    number of values sent when the loop is left, [None] when it is still
    running after [fuel] rounds. *)

Fixpoint typed_take (fuel : nat) (cancelled : nat -> bool) (i : Z) (sent : nat) : option nat :=
  if ((i >? 0) || (i =? -1))%Z then
    match fuel with
    | O => None
    | S fuel' =>
        let i' := if (i =? -1)%Z then i else wrap_int (i - 1) in
        if cancelled sent then Some sent
        else typed_take fuel' cancelled i' (S sent)
    end
  else Some sent.

(** ** The roman-numeral server *)

Module Server.

Local Open Scope string_scope.

(** [numerals.Numerals]. *)

Definition Numerals : gmap Z string :=
  list_to_map
    [(10%Z, "X"); (9%Z, "IX"); (8%Z, "VIII"); (7%Z, "VII"); (6%Z, "VI");
     (5%Z, "V"); (4%Z, "IV"); (3%Z, "III"); (2%Z, "II"); (1%Z, "I")].

(** A map read gives the zero value for a key that is not there. *)

Definition numeral (number : Z) : string := default EmptyString (Numerals !! number).

(** [strings.Split(s, "/")]. *)

Fixpoint split_slash (s : string) : list string :=
  match s with
  | EmptyString => [EmptyString]
  | String c s' =>
      if Ascii.eqb c "/"%char then EmptyString :: split_slash s'
      else match split_slash s' with
           | x :: xs => String c x :: xs
           | [] => [String c EmptyString]
           end
  end.

(** What the handler writes: a status and a body; an index out of range
    panics. *)

Inductive response :=
| Resp (status : nat) (body : string)
| Panics.

(** The body that [%q] writes for the empty string: two double quotes. *)

Definition empty_quoted : string := String "034"%char (String "034"%char EmptyString).

Section handler.

(** The library calls of the handler: [strings.TrimSpace], [strconv.Atoi]
    (its value; the error is dropped, and the value is 0 when the string is
    no number), [html.EscapeString], and the [%q] verb of [fmt.Fprintf]. *)

Variable TrimSpace : string -> string.
Variable Atoi : string -> Z.
Variable EscapeString : string -> string.
Variable Quote : string -> string.

Definition handler (path : string) : response :=
  let urlPathElements := split_slash path in
  match urlPathElements !! 1%nat with
  | None => Panics
  | Some e1 =>
      if String.eqb e1 "roman_number" then
        match urlPathElements !! 2%nat with
        | None => Panics
        | Some e2 =>
            let number := Atoi (TrimSpace e2) in
            if ((number =? 0) || (number >? 10))%Z then Resp 404 "404 - Not Found"
            else Resp 200 (Quote (EscapeString (numeral number)))
        end
      else Resp 400 "400 - Bad request"
  end.

End handler.

(** The library calls of Go, on strings of bytes.

    [strings.TrimSpace] removes the leading and the trailing white space
    as Unicode defines it: the code points for which [unicode.IsSpace]
    holds, each in its UTF-8 encoding.

<<
    U+0009 .. U+000D, U+0020      one byte: 9 .. 13, 32
    U+0085, U+00A0                194 133, 194 160
    U+1680                        225 154 128
    U+2000 .. U+200A              226 128 128 .. 226 128 138
    U+2028, U+2029, U+202F        226 128 168, 226 128 169, 226 128 175
    U+205F                        226 129 159
    U+3000                        227 128 128
>>
    A byte sequence that is no such encoding decodes to another code point
    or to the replacement character, and stays. *)

Definition is_space (c : ascii) : bool :=
  let n := Ascii.nat_of_ascii c in
  ((9 <=? n) && (n <=? 13) || (n =? 32))%nat.

Definition is_space2 (a b : ascii) : bool :=
  let n := Ascii.nat_of_ascii a in
  let m := Ascii.nat_of_ascii b in
  ((n =? 194) && ((m =? 133) || (m =? 160)))%nat.

Definition is_space3 (a b c : ascii) : bool :=
  let n := Ascii.nat_of_ascii a in
  let m := Ascii.nat_of_ascii b in
  let k := Ascii.nat_of_ascii c in
  ((n =? 225) && (m =? 154) && (k =? 128) ||
   (n =? 226) && (m =? 128) &&
     ((128 <=? k) && (k <=? 138) || (k =? 168) || (k =? 169) || (k =? 175)) ||
   (n =? 226) && (m =? 129) && (k =? 159) ||
   (n =? 227) && (m =? 128) && (k =? 128))%nat.

(** The leading white space goes, one code point after the other. *)

Fixpoint trim_left (s : string) : string :=
  match s with
  | EmptyString => EmptyString
  | String a s1 =>
      if is_space a then trim_left s1
      else match s1 with
           | EmptyString => s
           | String b s2 =>
               if is_space2 a b then trim_left s2
               else match s2 with
                    | EmptyString => s
                    | String c s3 => if is_space3 a b c then trim_left s3 else s
                    end
           end
  end.

(** The same from the end, on the reversed string: the last byte of an
    encoding comes first. *)

Fixpoint trim_right_rev (s : string) : string :=
  match s with
  | EmptyString => EmptyString
  | String c s1 =>
      if is_space c then trim_right_rev s1
      else match s1 with
           | EmptyString => s
           | String b s2 =>
               if is_space2 b c then trim_right_rev s2
               else match s2 with
                    | EmptyString => s
                    | String a s3 => if is_space3 a b c then trim_right_rev s3 else s
                    end
           end
  end.

Fixpoint rev_string (acc s : string) : string :=
  match s with
  | EmptyString => acc
  | String c s' => rev_string (String c acc) s'
  end.

Definition trim_space (s : string) : string :=
  rev_string EmptyString (trim_right_rev (rev_string EmptyString (trim_left s))).

(** [strconv.Atoi]: an optional sign and decimal digits; the value is 0
    when the string is no number, and the nearest int when the number is out
    of range. *)

Definition digit (c : ascii) : option Z :=
  let n := Ascii.nat_of_ascii c in
  if ((48 <=? n) && (n <=? 57))%nat then Some (Z.of_nat n - 48)%Z else None.

Fixpoint digits (acc : Z) (s : string) : option Z :=
  match s with
  | EmptyString => Some acc
  | String c s' =>
      match digit c with
      | Some d => digits (10 * acc + d)%Z s'
      | None => None
      end
  end.

Definition clamp (z : Z) : Z := Z.max (- 2 ^ 63) (Z.min (2 ^ 63 - 1) z).

Definition atoi (s : string) : Z :=
  match s with
  | EmptyString => 0%Z
  | String c s' =>
      if Ascii.eqb c "-"%char then
        match s' with
        | EmptyString => 0%Z
        | _ => from_option (fun n => clamp (- n)) 0%Z (digits 0 s')
        end
      else if Ascii.eqb c "+"%char then
        match s' with
        | EmptyString => 0%Z
        | _ => from_option clamp 0%Z (digits 0 s')
        end
      else from_option clamp 0%Z (digits 0 s)
  end.

(** [html.EscapeString] escapes the five characters [&], [<], [>], the
    single and the double quote. *)

Fixpoint escape_string (s : string) : string :=
  match s with
  | EmptyString => EmptyString
  | String c s' =>
      (if Ascii.eqb c "&"%char then "&amp;"
       else if Ascii.eqb c "<"%char then "&lt;"
       else if Ascii.eqb c ">"%char then "&gt;"
       else if Ascii.eqb c "'"%char then "&#39;"
       else if Ascii.eqb c "034"%char then "&#34;"
       else String c EmptyString) ++ escape_string s'
  end.

(** [%q] on printable ASCII, which is what the entries of the table are:
    the string between double quotes, with a backslash before a double
    quote and before a backslash. *)

Fixpoint quote_body (s : string) : string :=
  match s with
  | EmptyString => String "034"%char EmptyString
  | String c s' =>
      if Ascii.eqb c "034"%char || Ascii.eqb c "\"%char
      then String "\"%char (String c (quote_body s'))
      else String c (quote_body s')
  end.

Definition quote (s : string) : string := String "034"%char (quote_body s).

Definition go_handler : string -> response := handler trim_space atoi escape_string quote.

(** The path element of a request for 7 with a no-break space, U+00A0,
    before it and a line separator, U+2028, after it. *)

Definition nbsp_seven : string :=
  String "194" (String "160" (String "7" (String "226" (String "128" (String "168" EmptyString))))).

End Server.
(** ** Request paths *)

Module ServerPath.

(** A string without [/]: one element of a path. *)

Fixpoint slash_free (s : string) : bool :=
  match s with
  | EmptyString => true
  | String c s' => negb (Ascii.eqb c "/"%char) && slash_free s'
  end.

(** The letters of the numerals of the table. *)

Definition numeral_letter (c : ascii) : bool :=
  Ascii.eqb c "I"%char || Ascii.eqb c "V"%char || Ascii.eqb c "X"%char.

Fixpoint all_letters (s : string) : bool :=
  match s with
  | EmptyString => true
  | String c s' => numeral_letter c && all_letters s'
  end.

End ServerPath.

(** * Properties *)

(** ** The arithmetic of [primeFinder] *)

Local Open Scope Z_scope.

Lemma wrap_int_id z : in_int z -> wrap_int z = z.
Proof.
  unfold in_int, min_int, max_int, wrap_int. intros H.
  rewrite Z.mod_small; lia.
Qed.

Lemma wrap_int_min_pred : wrap_int (min_int - 1) = max_int.
Proof. reflexivity. Qed.

(** The loop answers [true] exactly when none of [divisor], [divisor - 1],
    ..., [2] divides [integer]; enough fuel is one unit per candidate. *)

Lemma divisor_loop_spec fuel integer divisor :
  (Z.to_nat (divisor - 1) <= fuel)%nat ->
  divisor_loop fuel integer divisor = true <->
  (forall k, 1 < k <= divisor -> Z.rem integer k <> 0).
Proof.
  revert divisor. induction fuel as [|fuel IH]; intros divisor Hf; simpl.
  - split; [|done]. intros _ k Hk. lia.
  - destruct (Z.gtb_spec divisor 1) as [Hd|Hd].
    + destruct (Z.eqb_spec (Z.rem integer divisor) 0) as [He|He].
      * split; [done|]. intros H. exfalso. apply (H divisor); [lia|done].
      * rewrite IH by lia. split; intros H k Hk.
        -- destruct (decide (k = divisor)) as [->|]; [done|]. apply H. lia.
        -- apply H. lia.
    + split; [|done]. intros _ k Hk. lia.
Qed.

Lemma primeFinder_item_spec n :
  primeFinder_item n = Some (wrap_int (n - 1)) <->
  (forall k, 1 < k <= wrap_int (wrap_int (n - 1) - 1) -> Z.rem (wrap_int (n - 1)) k <> 0).
Proof.
  unfold primeFinder_item. cbv zeta.
  rewrite <- (divisor_loop_spec (Z.to_nat (wrap_int (wrap_int (n - 1) - 1) - 1))) by lia.
  destruct (divisor_loop _ _ _); split; congruence.
Qed.

Lemma primeFinder_item_cases n :
  primeFinder_item n = Some (wrap_int (n - 1)) \/ primeFinder_item n = None.
Proof. unfold primeFinder_item. cbv zeta. destruct (divisor_loop _ _ _); auto. Qed.

(** Away from the smallest integers neither subtraction wraps. *)

Lemma primeFinder_item_plain n :
  min_int + 2 <= n <= max_int ->
  primeFinder_item n = Some (n - 1) <->
  (forall k, 1 < k < n - 1 -> ~ (k | n - 1)).
Proof.
  intros Hn.
  assert (H1 : wrap_int (n - 1) = n - 1)
    by (apply wrap_int_id; unfold in_int, min_int, max_int in *; lia).
  assert (H2 : wrap_int (n - 1 - 1) = n - 2)
    by (rewrite wrap_int_id; unfold in_int, min_int, max_int in *; lia).
  pose proof (primeFinder_item_spec n) as Hs. rewrite H1, H2 in Hs. rewrite Hs.
  split; intros H k Hk.
  - rewrite <- Z.rem_divide by lia. apply H. lia.
  - rewrite Z.rem_divide by lia. apply H. lia.
Qed.

Lemma pred_not_divisor m : 2 < m -> ~ (m - 1 | m).
Proof.
  intros Hm [q Hq].
  assert (q = 1 \/ q <= 0 \/ 2 <= q) as [->|[Hle|Hge]] by lia; nia.
Qed.

Local Close Scope Z_scope.
(** ** What [primeFinder] tests and emits *)

Local Open Scope Z_scope.

(** Trial division by every number strictly between 1 and [m] is primality. *)

Lemma trial_division_prime m :
  1 < m -> (forall k, 1 < k < m -> ~ (k | m)) <-> prime m.
Proof.
  intros Hm. rewrite <- prime_alt. unfold prime'. naive_solver.
Qed.

Lemma primeFinder_item_value n v :
  min_int + 2 <= n <= max_int -> primeFinder_item n = Some v -> v = n - 1.
Proof.
  intros Hn Hv.
  assert (H1 : wrap_int (n - 1) = n - 1)
    by (apply wrap_int_id; unfold in_int, min_int, max_int in *; lia).
  destruct (primeFinder_item_cases n) as [H|H]; congruence.
Qed.

Lemma primeFinder_item_small n :
  min_int + 2 <= n <= 3 -> primeFinder_item n = Some (n - 1).
Proof.
  intros Hn. apply primeFinder_item_plain; [unfold max_int; lia|].
  intros k Hk [q Hq].
  assert (n = 3 /\ k = 1 \/ k <> 1) as [[-> ->]|?] by lia; lia.
Qed.

Lemma primeFinder_item_prime n :
  min_int + 2 <= n <= max_int ->
  primeFinder_item n = Some (n - 1) <-> n <= 2 \/ prime (n - 1).
Proof.
  intros Hn. destruct (decide (n <= 2)) as [Hs|Hb].
  - split; [auto|]. intros _. apply primeFinder_item_small. lia.
  - rewrite primeFinder_item_plain by done.
    rewrite trial_division_prime by lia. naive_solver.
Qed.

Lemma primeFinder_item_none k n :
  1 < k <= wrap_int (wrap_int (n - 1) - 1) ->
  Z.rem (wrap_int (n - 1)) k = 0 ->
  primeFinder_item n = None.
Proof.
  intros Hk Hr. destruct (primeFinder_item_cases n) as [H|H]; [|done].
  by destruct (proj1 (primeFinder_item_spec n) H k Hk).
Qed.

(** C10. Away from the two smallest integers, where [n - 1] or [n - 2]
    wraps around, [primeFinder] tests and emits [n - 1], never [n]: it
    emits [n - 1] exactly when no number strictly between 1 and [n - 2]
    divides [n - 1], so it emits [n - 1] for every [n <= 3], the value 1
    for the input 2 and the value 0 for the input 1, neither of them a
    prime. *)

Theorem primeFinder_emits_predecessor n :
  min_int + 2 <= n <= max_int ->
  (forall v, primeFinder_item n = Some v -> v = n - 1) /\
  (primeFinder_item n = Some (n - 1) <->
   (forall d, 1 < d < n - 2 -> ~ (d | n - 1))) /\
  (n <= 3 -> primeFinder_item n = Some (n - 1)) /\
  (primeFinder_item 2 = Some 1 /\ ~ prime 1) /\
  (primeFinder_item 1 = Some 0 /\ ~ prime 0).
Proof.
  intros Hn. split; [|split; [|split; [|split]]].
  - intros v. by apply primeFinder_item_value.
  - rewrite primeFinder_item_plain by done. split; intros H d Hd.
    + apply H. lia.
    + destruct (decide (d = n - 1 - 1)) as [->|Hne].
      * apply pred_not_divisor. lia.
      * apply H. lia.
  - intros H3. apply primeFinder_item_small. lia.
  - split; [reflexivity|]. intros [H _]. lia.
  - split; [reflexivity|]. intros [H _]. lia.
Qed.

Lemma primeFinder_emits_predecessor_two :
  primeFinder_item 2 = Some (2 - 1) /\ primeFinder_item 3 = Some (3 - 1).
Proof.
  split.
  - refine (proj1 (proj2 (proj2 (primeFinder_emits_predecessor 2 _))) _).
    + vm_compute. split; discriminate.
    + lia.
  - refine (proj1 (proj2 (proj2 (primeFinder_emits_predecessor 3 _))) _).
    + vm_compute. split; discriminate.
    + lia.
Defined.

(** At the smallest integer [n - 1] wraps around to the largest one, which
    7 divides: nothing is emitted there, nor at its successor, where the
    tested number is the smallest integer itself. *)

Lemma primeFinder_min_int :
  (in_int min_int /\ min_int <= 3 /\ primeFinder_item min_int = None) /\
  (in_int (min_int + 1) /\ min_int + 1 <= 3 /\ primeFinder_item (min_int + 1) = None).
Proof.
  split; (split; [vm_compute; split; discriminate|split; [vm_compute; discriminate|]]).
  - apply (primeFinder_item_none 7); [vm_compute; split; [reflexivity|discriminate]|reflexivity].
  - apply (primeFinder_item_none 2); [vm_compute; split; [reflexivity|discriminate]|reflexivity].
Qed.
Local Close Scope Z_scope.

(** ** The handler of the roman-numeral server *)

Module ServerFacts.
Import Server.

Lemma numeral_missing number : ~ (1 <= number <= 10)%Z -> numeral number = EmptyString.
Proof.
  intros Hn. unfold numeral, Numerals.
  rewrite (not_elem_of_list_to_map_1 (M := gmap Z)); [done|].
  simpl. rewrite !elem_of_cons, elem_of_nil. lia.
Qed.

Section handler.
Variable TrimSpace : string -> string.
Variable Atoi : string -> Z.
Variable EscapeString : string -> string.
Variable Quote : string -> string.
Hypothesis escape_empty : EscapeString EmptyString = EmptyString.
Hypothesis quote_empty : Quote EmptyString = empty_quoted.

Lemma handler_roman path e2 :
  split_slash path !! 1 = Some "roman_number"%string ->
  split_slash path !! 2 = Some e2 ->
  handler TrimSpace Atoi EscapeString Quote path =
  let number := Atoi (TrimSpace e2) in
  if ((number =? 0) || (number >? 10))%Z then Resp 404 "404 - Not Found"
  else Resp 200 (Quote (EscapeString (numeral number))).
Proof. intros H1 H2. unfold handler. by rewrite H1, H2. Qed.

(** C9. A request for [/roman_number/k] whose [k] parses to a negative
    integer (the integers other than 0, at most 10 and outside 1..10) takes
    the success branch of the handler: the map has no such key, the read
    gives the empty string, and the answer is status 200 with the quoted
    empty string. The 404 answer is kept for [k = 0] and [k > 10]. *)

Theorem handler_negative_number path e2 :
  split_slash path !! 1 = Some "roman_number"%string ->
  split_slash path !! 2 = Some e2 ->
  ((Atoi (TrimSpace e2) < 0 \/
    (Atoi (TrimSpace e2) <> 0 /\ Atoi (TrimSpace e2) <= 10 /\
     ~ (1 <= Atoi (TrimSpace e2) <= 10)))%Z ->
   handler TrimSpace Atoi EscapeString Quote path = Resp 200 empty_quoted) /\
  ((Atoi (TrimSpace e2) = 0 \/ Atoi (TrimSpace e2) > 10)%Z ->
   handler TrimSpace Atoi EscapeString Quote path = Resp 404 "404 - Not Found").
Proof.
  intros H1 H2. rewrite (handler_roman path e2 H1 H2). cbv zeta.
  set (number := Atoi (TrimSpace e2)). split.
  - intros Hneg.
    assert (Hout : ~ (1 <= number <= 10)%Z) by lia.
    assert (Hbranch : ((number =? 0) || (number >? 10))%Z = false).
    { apply orb_false_iff. split; [apply Z.eqb_neq|rewrite Z.gtb_ltb; apply Z.ltb_ge]; lia. }
    rewrite Hbranch, (numeral_missing number Hout), escape_empty, quote_empty.
    reflexivity.
  - intros Hzero.
    assert (Hbranch : ((number =? 0) || (number >? 10))%Z = true).
    { apply orb_true_iff. destruct Hzero as [Hz|Hbig]; [left; apply Z.eqb_eq|right; rewrite Z.gtb_ltb; apply Z.ltb_lt]; lia. }
    by rewrite Hbranch.
Qed.

End handler.

(** The theorem at the Go library calls: [/roman_number/-3] is answered
    with 200 and two double quotes, [/roman_number/0] with 404. *)

Lemma handler_negative_number_go :
  go_handler "/roman_number/-3" = Resp 200 empty_quoted /\
  go_handler "/roman_number/0" = Resp 404 "404 - Not Found".
Proof.
  split.
  - refine (proj1 (handler_negative_number trim_space atoi escape_string quote
                     eq_refl eq_refl "/roman_number/-3" "-3" eq_refl eq_refl) _).
    left. vm_compute. reflexivity.
  - refine (proj2 (handler_negative_number trim_space atoi escape_string quote
                     eq_refl eq_refl "/roman_number/0" "0" eq_refl eq_refl) _).
    left. vm_compute. reflexivity.
Defined.

End ServerFacts.

(** ** Facts about the stages' control *)

Ltac state_simpl := cbn [procs closed wgs output trace panicked code ctl] in *.

Ltac net_lookup Hp :=
  repeat match goal with
  | Hg : procs _ !! ?i = Some _ |- _ =>
      rewrite Hp in Hg;
      (destruct i as [|[|[|?]]]); simpl in Hg; [| | |done]; injection Hg as <-
  end.

Ltac pend :=
  repeat match goal with
  | H : pending _ ?p = _ |- _ =>
      is_var p; destruct p; simpl in H; repeat case_match; try discriminate H;
      injection H as H; repeat (let E := fresh "E" in injection H as H E); subst
  | H : pending _ _ = _ |- _ =>
      simpl in H; repeat case_match; try discriminate H;
      injection H as H; repeat (let E := fresh "E" in injection H as H E); subst
  end.

Ltac hyp_cases H :=
  repeat match type of H with
  | context [match ?x with _ => _ end] => destruct x eqn:?
  end;
  try discriminate H; simplify_eq.

Ltac stage_cases st p :=
  destruct st, p; simpl; intros; repeat case_match; simplify_eq/=;
  repeat split; eauto 10; try done.

Lemma pending_never_send st p c v : pending st p <> OSend c v.
Proof. stage_cases st p. Qed.

Lemma pending_close st p c :
  pending st p = OClose c -> closes st = Some c /\ resume st p ROk = Halted /\ p <> Halted.
Proof. stage_cases st p. Qed.

Lemma pending_select st p d c v :
  pending st p = OSelect d c v ->
  done_of st = Some d /\ p <> Halted /\
  resume st p RDone = AtExit /\ (exists k, resume st p RSent = AtLoop k) /\
  (closes st = Some c \/ exists dd inp w, st = Multiplex dd inp c w).
Proof. stage_cases st p. Qed.

Lemma pending_recv st p c :
  pending st p = ORecv c -> reads st = Some c /\ exists k, p = AtLoop k.
Proof. stage_cases st p. Qed.

Lemma pending_wgdone st p w :
  pending st p = OWgDone w ->
  p = AtExit /\ exists dd inp out, st = Multiplex dd inp out w.
Proof. stage_cases st p. Qed.

Lemma pending_wgwait st p w :
  pending st p = OWgWait w -> (exists k, p = AtLoop k) /\ exists out, st = Closer w out.
Proof. stage_cases st p. Qed.

Lemma pending_halted st : pending st Halted = OHalt.
Proof. by destruct st. Qed.

Lemma resume_recv_ok st p c r :
  pending st p = ORecv c ->
  (r = RClosed \/ exists v, r = RVal v) ->
  pc_ok st (resume st p r) /\ resume st p r <> Halted /\
  (forall w out, st = Closer w out -> False).
Proof.
  intros Hp [->|[v ->]]; unfold pc_ok; destruct st, p; simpl in *;
    repeat case_match; simplify_eq/=; split_and!; try done; right; simpl;
    repeat case_match; done.
Qed.

Lemma resume_select_ok st p d c v r :
  pending st p = OSelect d c v -> (r = RDone \/ r = RSent) ->
  pc_ok st (resume st p r) /\ resume st p r <> Halted /\
  (forall w out, st = Closer w out -> False).
Proof.
  intros Hp [-> | ->]; unfold pc_ok; destruct st, p; simpl in *;
    repeat case_match; simplify_eq/=; split_and!; try done; right; simpl;
    repeat case_match; done.
Qed.

(** ** Counting in lists *)

Lemma filter_length_insert_same {A} (P : A -> Prop) `{!forall x, Decision (P x)}
    (l : list A) i x y :
  l !! i = Some x -> (P x <-> P y) ->
  length (filter P (<[i:=y]> l)) = length (filter P l).
Proof.
  intros Hi Hxy. rewrite insert_take_drop by (by eapply lookup_lt_Some).
  rewrite <- (take_drop_middle l i x) at 3 by done.
  rewrite !filter_app, !length_app, !filter_cons.
  repeat case_decide; simpl; tauto || lia.
Qed.

Lemma filter_length_insert_drop {A} (P : A -> Prop) `{!forall x, Decision (P x)}
    (l : list A) i x y :
  l !! i = Some x -> P x -> ~ P y ->
  length (filter P l) = S (length (filter P (<[i:=y]> l))).
Proof.
  intros Hi Hx Hy. rewrite insert_take_drop by (by eapply lookup_lt_Some).
  rewrite <- (take_drop_middle l i x) at 1 by done.
  rewrite !filter_app, !length_app, !filter_cons.
  repeat case_decide; simpl; tauto || lia.
Qed.

Lemma filter_length_pos {A} (P : A -> Prop) `{!forall x, Decision (P x)} (l : list A) :
  0 < length (filter P l) -> exists i x, l !! i = Some x /\ P x.
Proof.
  intros Hl. destruct (filter P l) as [|x l'] eqn:E; [simpl in Hl; lia|].
  assert (Hx : x ∈ filter P l) by (rewrite E; left).
  apply list_elem_of_filter in Hx as [HP Hx].
  apply list_elem_of_lookup in Hx as [i Hi]. eauto.
Qed.

Lemma filter_length_lookup {A} (P : A -> Prop) `{!forall x, Decision (P x)} (l : list A) i x :
  l !! i = Some x -> P x -> 0 < length (filter P l).
Proof.
  intros Hi HP.
  assert (Hx : x ∈ filter P l).
  { apply list_elem_of_filter. split; [done|]. apply list_elem_of_lookup. eauto. }
  destruct (filter P l); [by apply elem_of_nil in Hx | simpl; lia].
Qed.

Lemma filter_length_zero {A} (P : A -> Prop) `{!forall x, Decision (P x)} (l : list A) i x :
  length (filter P l) = 0 -> l !! i = Some x -> ~ P x.
Proof.
  intros Hl Hi HP.
  assert (Hx : x ∈ filter P l).
  { apply list_elem_of_filter. split; [done|]. apply list_elem_of_lookup. eauto. }
  destruct (filter P l); [by apply elem_of_nil in Hx | simpl in Hl; lia].
Qed.

Lemma omap_NoDup_lookup {A B} (f : A -> option B) (l : list A) i j x y b :
  NoDup (omap f l) -> l !! i = Some x -> l !! j = Some y ->
  f x = Some b -> f y = Some b -> i = j.
Proof.
  revert i j. induction l as [|a l IH]; intros i j Hnd Hi Hj Hx Hy; [done|].
  assert (Hin : forall k z, l !! k = Some z -> f z = Some b -> b ∈ omap f l).
  { intros k z Hk Hz. apply list_elem_of_omap. exists z. split; [|done].
    apply list_elem_of_lookup. eauto. }
  simpl in Hnd. destruct i as [|i], j as [|j]; simplify_eq/=; try done.
  - rewrite Hx in Hnd. apply NoDup_cons in Hnd as [Hn _]. destruct Hn. eauto.
  - rewrite Hy in Hnd. apply NoDup_cons in Hnd as [Hn _]. destruct Hn. eauto.
  - f_equal. apply IH; try done. destruct (f a); [by apply NoDup_cons in Hnd as [_ ?]|done].
Qed.

Lemma omap_NoDup_intro {A B} (f : A -> option B) (l : list A) :
  (forall i j x y b, l !! i = Some x -> l !! j = Some y ->
     f x = Some b -> f y = Some b -> i = j) ->
  NoDup (omap f l).
Proof.
  induction l as [|a l IH]; intros Hinj; simpl; [constructor|].
  assert (Hl : NoDup (omap f l)).
  { apply IH. intros i j x y b Hi Hj Hx Hy.
    assert (S i = S j) by (eapply (Hinj (S i) (S j)); eauto). lia. }
  destruct (f a) as [b|] eqn:Ha; [|done]. apply NoDup_cons. split; [|done].
  intros (y & Hy & Hfy)%list_elem_of_omap. apply list_elem_of_lookup in Hy as [k Hk].
  assert (0 = S k) by (eapply (Hinj 0 (S k)); eauto). lia.
Qed.

Lemma filter_length_all {A} (P : A -> Prop) `{!forall x, Decision (P x)} (l : list A) :
  (forall x, x ∈ l -> P x) -> length (filter P l) = length l.
Proof.
  induction l as [|a l IH]; intros Hall; [done|]. rewrite filter_cons.
  rewrite decide_True by (apply Hall; left). simpl. rewrite IH; [done|].
  intros x Hx. apply Hall. by right.
Qed.

Lemma filter_length_none {A} (P : A -> Prop) `{!forall x, Decision (P x)} (l : list A) :
  (forall x, x ∈ l -> ~ P x) -> length (filter P l) = 0.
Proof.
  induction l as [|a l IH]; intros Hall; [done|]. rewrite filter_cons.
  rewrite decide_False by (apply Hall; left). apply IH.
  intros x Hx. apply Hall. by right.
Qed.

(** ** The invariant of well-formed pipelines *)

Section invariant.
Context (d : chan) (stages : list stage) (wg0 : wgid -> nat).
Hypothesis Hwf : wf_net d stages wg0.

Lemma boot_lookup i g :
  procs (boot stages wg0) !! i = Some g ->
  stages !! i = Some (code g) /\ ctl g = AtLoop 0.
Proof.
  unfold boot; simpl. rewrite list_lookup_fmap.
  destruct (stages !! i); intros; simplify_eq/=; done.
Qed.

Lemma inv_boot : inv stages (boot stages wg0).
Proof.
  split.
  - unfold boot; simpl. rewrite <- list_fmap_compose. by rewrite list_fmap_id.
  - done.
  - intros i g [_ Hc]%boot_lookup. rewrite Hc. right.
    destruct (code g); simpl; repeat case_match; done.
  - intros i g c [_ Hc]%boot_lookup _. rewrite Hc. split; [|done].
    unfold boot; simpl. set_solver.
  - intros w. rewrite (wf_wg _ _ _ Hwf). unfold boot; simpl.
    clear Hwf. induction stages as [|st l IH]; [done|].
    rewrite fmap_cons, !filter_cons. unfold live_mux at 1; simpl.
    repeat case_decide; simpl; rewrite ?IH; try done; naive_solver.
  - intros i g w out [_ Hc]%boot_lookup _ Hk. by destruct (Hk 0).
Qed.

Lemma code_lookup s i g : inv stages s -> procs s !! i = Some g -> stages !! i = Some (code g).
Proof. intros Hi Hg. rewrite <- (inv_code _ _ Hi), list_lookup_fmap, Hg. done. Qed.

Lemma owner_unique s i j gi gj c :
  inv stages s -> procs s !! i = Some gi -> procs s !! j = Some gj ->
  closes (code gi) = Some c -> closes (code gj) = Some c -> i = j.
Proof.
  intros Hi Hgi Hgj Hci Hcj.
  eapply (omap_NoDup_lookup closes stages); eauto using wf_owner, code_lookup.
Qed.

Lemma insert_code s i g p' :
  procs s !! i = Some g -> map code (<[i:=Go (code g) p']> (procs s)) = map code (procs s).
Proof.
  intros Hg. rewrite list_fmap_insert; simpl. apply list_insert_id.
  by rewrite list_lookup_fmap, Hg.
Qed.

(** A goroutine moves between two control points at which it has not
    returned; channels and WaitGroups stay as they are. *)

Lemma inv_move s i g p' o' t' :
  inv stages s -> procs s !! i = Some g ->
  ctl g <> Halted -> p' <> Halted -> pc_ok (code g) p' ->
  (forall w out, code g = Closer w out -> (forall k, p' <> AtLoop k) -> wgs s w = 0) ->
  inv stages (State (<[i:=Go (code g) p']> (procs s)) (closed s) (wgs s) o' t' (panicked s)).
Proof.
  intros Hi Hg Hn Hn' Hok Hcl. split; simpl.
  - rewrite insert_code by done. apply Hi.
  - apply Hi.
  - intros j gj Hj. destruct (decide (i = j)) as [->|Hne].
    + rewrite list_lookup_insert_eq in Hj by (by eapply lookup_lt_Some). by simplify_eq/=.
    + rewrite list_lookup_insert_ne in Hj by done. by eapply inv_pc.
  - intros j gj c Hj Hc. destruct (decide (i = j)) as [->|Hne].
    + rewrite list_lookup_insert_eq in Hj by (by eapply lookup_lt_Some). simplify_eq/=.
      rewrite (inv_closed _ _ Hi _ _ _ Hg Hc). naive_solver.
    + rewrite list_lookup_insert_ne in Hj by done. by eapply inv_closed.
  - intros w. rewrite (inv_wg _ _ Hi). symmetry.
    eapply filter_length_insert_same; [done|]. unfold live_mux; simpl. naive_solver.
  - intros j gj w out Hj Hc Hk. destruct (decide (i = j)) as [->|Hne].
    + rewrite list_lookup_insert_eq in Hj by (by eapply lookup_lt_Some). simplify_eq/=. eauto.
    + rewrite list_lookup_insert_ne in Hj by done. by eapply inv_closer.
Qed.

(** A goroutine closes the channel it owns and returns. *)

Lemma inv_close s i g c o' t' :
  inv stages s -> procs s !! i = Some g ->
  ctl g <> Halted -> closes (code g) = Some c ->
  (forall w out, code g = Closer w out -> wgs s w = 0) ->
  inv stages (State (<[i:=Go (code g) Halted]> (procs s)) ({[c]} ∪ closed s) (wgs s) o' t'
                (panicked s)).
Proof.
  intros Hi Hg Hn Hc Hcl. split; simpl.
  - rewrite insert_code by done. apply Hi.
  - apply Hi.
  - intros j gj Hj. destruct (decide (i = j)) as [->|Hne].
    + rewrite list_lookup_insert_eq in Hj by (by eapply lookup_lt_Some). simplify_eq/=. by left.
    + rewrite list_lookup_insert_ne in Hj by done. by eapply inv_pc.
  - intros j gj c' Hj Hc'. destruct (decide (i = j)) as [->|Hne].
    + rewrite list_lookup_insert_eq in Hj by (by eapply lookup_lt_Some). simplify_eq/=.
      set_solver.
    + rewrite list_lookup_insert_ne in Hj by done.
      assert (c' <> c) by (intros ->; apply Hne; eapply owner_unique; eauto).
      rewrite <- (inv_closed _ _ Hi _ _ _ Hj Hc'). set_solver.
  - intros w. rewrite (inv_wg _ _ Hi). symmetry.
    eapply filter_length_insert_same; [done|]. unfold live_mux; simpl.
    destruct (code g); simpl in *; naive_solver.
  - intros j gj w out Hj Hcj Hk. destruct (decide (i = j)) as [->|Hne].
    + rewrite list_lookup_insert_eq in Hj by (by eapply lookup_lt_Some). simplify_eq/=. eauto.
    + rewrite list_lookup_insert_ne in Hj by done. by eapply inv_closer.
Qed.

(** A [multiplex] goroutine runs its deferred [wg.Done()] and returns. *)

Lemma inv_wg_done s i g dd inp out w n o' t' :
  inv stages s -> procs s !! i = Some g ->
  ctl g <> Halted -> code g = Multiplex dd inp out w -> wgs s w = S n ->
  inv stages (State (<[i:=Go (code g) Halted]> (procs s)) (closed s) (<[w:=n]> (wgs s)) o' t'
                (panicked s)).
Proof.
  intros Hi Hg Hn Hc Hw. split; simpl.
  - rewrite insert_code by done. apply Hi.
  - apply Hi.
  - intros j gj Hj. destruct (decide (i = j)) as [->|Hne].
    + rewrite list_lookup_insert_eq in Hj by (by eapply lookup_lt_Some). simplify_eq/=. by left.
    + rewrite list_lookup_insert_ne in Hj by done. by eapply inv_pc.
  - intros j gj c' Hj Hc'. destruct (decide (i = j)) as [->|Hne].
    + rewrite list_lookup_insert_eq in Hj by (by eapply lookup_lt_Some). simplify_eq/=.
      by rewrite Hc in Hc'.
    + rewrite list_lookup_insert_ne in Hj by done. by eapply inv_closed.
  - intros w'. destruct (decide (w = w')) as [<-|Hne].
    + rewrite fn_lookup_insert.
      pose proof (inv_wg _ _ Hi w) as Hcount. rewrite Hw in Hcount.
      rewrite (filter_length_insert_drop (live_mux w) (procs s) i g (Go (code g) Halted))
        in Hcount; [lia|done| |].
      * unfold live_mux. rewrite Hc; simpl. by rewrite bool_decide_eq_true.
      * unfold live_mux; simpl. naive_solver.
    + rewrite fn_lookup_insert_ne by done. rewrite (inv_wg _ _ Hi). symmetry.
      eapply filter_length_insert_same; [done|]. unfold live_mux; simpl.
      rewrite Hc; simpl. rewrite bool_decide_eq_true. naive_solver.
  - intros j gj w' out' Hj Hcj Hk. destruct (decide (i = j)) as [->|Hne].
    + rewrite list_lookup_insert_eq in Hj by (by eapply lookup_lt_Some). simplify_eq/=.
      by rewrite Hc in Hcj.
    + rewrite list_lookup_insert_ne in Hj by done.
      pose proof (inv_closer _ _ Hi _ _ _ _ Hj Hcj Hk) as H0.
      destruct (decide (w = w')) as [<-|Hne']; [congruence|].
      by rewrite fn_lookup_insert_ne.
Qed.

Lemma live_mux_count s i g dd inp out w :
  inv stages s -> procs s !! i = Some g ->
  code g = Multiplex dd inp out w -> ctl g <> Halted -> 0 < wgs s w.
Proof.
  intros Hi Hg Hc Hn. rewrite (inv_wg _ _ Hi).
  eapply filter_length_lookup; [done|]. split; [|done].
  rewrite Hc; simpl. by apply bool_decide_eq_true.
Qed.

(** The channel a goroutine is about to send on is open. *)

Lemma send_open s i g d' c v :
  inv stages s -> procs s !! i = Some g -> op_of g = OSelect d' c v -> c ∉ closed s.
Proof.
  intros Hi Hg Hop Hcl. unfold op_of in Hop.
  destruct (pending_select _ _ _ _ _ Hop) as (_ & Hn & _ & _ & [Hc|(dd & inp & w & Hc)]).
  - by apply (inv_closed _ _ Hi _ _ _ Hg Hc) in Hcl.
  - pose proof (code_lookup _ _ _ Hi Hg) as Hst. rewrite Hc in Hst.
    destruct (wf_mux _ _ _ Hwf _ _ _ _ _ Hst) as (j & _ & Hj).
    rewrite <- (inv_code _ _ Hi), list_lookup_fmap in Hj.
    destruct (procs s !! j) as [gj|] eqn:Hgj; [|done]. simpl in Hj. injection Hj as Hcj.
    assert (Hh : ctl gj = Halted).
    { eapply (inv_closed _ _ Hi j gj c); [done| |done]. by rewrite Hcj. }
    assert (Hz : wgs s w = 0).
    { eapply (inv_closer _ _ Hi j gj); [done|done|]. intros k. by rewrite Hh. }
    pose proof (live_mux_count _ _ _ _ _ _ _ Hi Hg Hc Hn). lia.
Qed.

Lemma prints_not_val st p r : (forall v, r <> RVal v) -> prints st p r = [].
Proof. intros Hr. destruct st, p, r; try done. by destruct (Hr v). Qed.

(** The steps of a well-formed pipeline, case by case. *)

Lemma exec1_moves ch s s' : inv stages s -> exec1 ch s = Some s' -> moves s s'.
Proof.
  intros Hi. unfold exec1. rewrite (inv_nopanic _ _ Hi). destruct ch as [i|i j|i].
  - unfold local. destruct (procs s !! i) as [g|] eqn:Hg; [simpl|done].
    destruct (op_of g) eqn:Hop; try done.
    + case_decide; [|done]. intros [= <-]. unfold advance.
      rewrite prints_not_val, app_nil_r by done. by eapply move_recv_closed.
    + case_decide; [|done]. intros [= <-]. unfold advance.
      rewrite prints_not_val, app_nil_r by done. by eapply move_done.
    + destruct (pending_close _ _ _ Hop) as (Hc & Hr & Hn).
      case_decide as Hcl.
      { apply (inv_closed _ _ Hi _ _ _ Hg Hc) in Hcl. done. }
      intros [= <-]. unfold advance, close_chan. rewrite decide_False by done.
      state_simpl. rewrite prints_not_val, app_nil_r, Hr by done. by eapply move_close.
    + destruct (pending_wgdone _ _ _ Hop) as (Hp & dd & inp & out & Hc).
      assert (Hn : ctl g <> Halted) by (by rewrite Hp).
      pose proof (live_mux_count _ _ _ _ _ _ _ Hi Hg Hc Hn) as Hpos.
      destruct (wgs s w) as [|n] eqn:Hw; [lia|].
      intros [= <-]. unfold advance, wg_done. rewrite Hw. state_simpl.
      rewrite prints_not_val, app_nil_r by done.
      replace (resume (code g) (ctl g) ROk) with Halted by (by rewrite Hc, Hp).
      by eapply move_wg_done.
    + destruct (pending_wgwait _ _ _ Hop) as ([k Hp] & out & Hc).
      destruct (wgs s w) as [|n] eqn:Hw; [|done].
      intros [= <-]. unfold advance.
      rewrite prints_not_val, app_nil_r by done.
      replace (resume (code g) (ctl g) ROk) with AtExit by (by rewrite Hc, Hp).
      by eapply move_wg_wait.
  - unfold comm. case_decide as Hne; [done|].
    destruct (procs s !! i) as [gi|] eqn:Hgi; [simpl|done].
    destruct (procs s !! j) as [gj|] eqn:Hgj; [simpl|done].
    destruct (sends (op_of gi)) as [[c v]|] eqn:Hs; [simpl|done].
    destruct (op_of gj) eqn:Hopj; try done.
    case_decide as Hc; [|done]. destruct Hc as [-> Hopen]. intros Hs'.
    destruct (op_of gi) eqn:Hopi; simpl in Hs; try done.
    { by apply pending_never_send in Hopi. }
    injection Hs as -> ->. injection Hs' as <-.
    unfold record, advance. state_simpl. cbn [fst snd].
    rewrite (prints_not_val _ _ RSent), app_nil_r by done.
    by eapply move_comm.
  - unfold send_closed. destruct (procs s !! i) as [g|] eqn:Hg; [simpl|done].
    destruct (sends (op_of g)) as [[c v]|] eqn:Hs; [simpl|done].
    case_decide as Hcl; [|done]. exfalso.
    destruct (op_of g) eqn:Hop; simplify_eq/=.
    + by apply pending_never_send in Hop.
    + by eapply send_open.
Qed.

Lemma inv_moves s s' : inv stages s -> moves s s' -> inv stages s'.
Proof.
  intros Hi Hm. destruct Hm as [i g c Hg Hop Hcl|i g d' c v Hg Hop Hcl|i g c Hg Hop Hcl
    |i g w n Hg Hop Hw|i g w Hg Hop Hw|i j gi gj d' c v Hne Hgi Hgj Hopi Hopj Hcl];
    unfold op_of in *.
  - destruct (resume_recv_ok _ _ _ RClosed Hop) as (Hok & Hn & Hcd); [by left|].
    apply inv_move; try done.
    + intros Hh. by rewrite Hh, pending_halted in Hop.
    + intros w out Hc. by destruct (Hcd _ _ Hc).
  - destruct (resume_select_ok _ _ _ _ _ RDone Hop) as (Hok & Hn & Hcd); [by left|].
    apply inv_move; try done.
    + intros Hh. by rewrite Hh, pending_halted in Hop.
    + intros w out Hc. by destruct (Hcd _ _ Hc).
  - destruct (pending_close _ _ _ Hop) as (Hc & Hr & Hn).
    apply inv_close; try done.
    intros w out Hcd. eapply (inv_closer _ _ Hi _ _ _ _ Hg Hcd).
    intros k Hk. rewrite Hcd, Hk in Hop. done.
  - destruct (pending_wgdone _ _ _ Hop) as (Hp & dd & inp & out & Hc).
    eapply inv_wg_done; eauto. by rewrite Hp.
  - destruct (pending_wgwait _ _ _ Hop) as ([k Hp] & out & Hc).
    apply inv_move; try done.
    + by rewrite Hp.
    + right. by rewrite Hc.
    + intros w' out' Hc' _. congruence.
  - destruct (resume_select_ok _ _ _ _ _ RSent Hopi) as (Hok & Hn & Hcd); [by right|].
    destruct (resume_recv_ok _ _ _ (RVal v) Hopj) as (Hokj & Hnj & Hcdj); [eauto|].
    assert (H1 : inv stages (State (<[i:=Go (code gi) (resume (code gi) (ctl gi) RSent)]> (procs s))
                       (closed s) (wgs s) (output s) (trace s) (panicked s))).
    { apply (inv_move s i gi); try done.
      - intros Hh. by rewrite Hh, pending_halted in Hopi.
      - intros w out Hc. by destruct (Hcd _ _ Hc). }
    refine (inv_move _ j gj _ _ _ H1 _ _ Hnj Hokj _).
    + state_simpl. by rewrite list_lookup_insert_ne.
    + intros Hh. by rewrite Hh, pending_halted in Hopj.
    + intros w out Hc. by destruct (Hcdj _ _ Hc).
Qed.

Lemma inv_exec1 ch s s' : inv stages s -> exec1 ch s = Some s' -> inv stages s'.
Proof. eauto using inv_moves, exec1_moves. Qed.

Lemma inv_run sched s s' : inv stages s -> run sched s = Some s' -> inv stages s'.
Proof.
  revert s. induction sched as [|ch sched IH]; intros s Hi; simpl; [by intros [= <-]|].
  destruct (exec1 ch s) as [s1|] eqn:He; [simpl|done]. eauto using inv_exec1.
Qed.

Lemma inv_reachable s : reachable (boot stages wg0) s -> inv stages s.
Proof. intros [sched Hr]. eauto using inv_run, inv_boot. Qed.

(** ** After cancellation *)

Lemma stage_lookup s j st :
  inv stages s -> stages !! j = Some st -> exists g, procs s !! j = Some g /\ code g = st.
Proof.
  intros Hi Hj. rewrite <- (inv_code _ _ Hi), list_lookup_fmap in Hj.
  destruct (procs s !! j) as [g|]; simplify_eq/=. eauto.
Qed.

(** With [done] closed, the first goroutine that has not returned can move on
    its own: everything it could wait for has returned. *)

Lemma cancel_enabled s n g :
  inv stages s -> d ∈ closed s ->
  (forall j gj, j < n -> procs s !! j = Some gj -> ctl gj = Halted) ->
  procs s !! n = Some g -> ctl g <> Halted ->
  is_Some (local n s).
Proof.
  intros Hi Hd Hlow Hg Hn. unfold local. rewrite Hg. simpl.
  pose proof (code_lookup _ _ _ Hi Hg) as Hst.
  destruct (op_of g) eqn:Hop; unfold op_of in Hop.
  - destruct (pending_recv _ _ _ Hop) as [Hr _].
    destruct (wf_reads _ _ _ Hwf _ _ _ Hst Hr) as (j & st' & Hjn & Hj & Hc).
    destruct (stage_lookup _ _ _ Hi Hj) as (gj & Hgj & <-).
    rewrite decide_True; [done|].
    apply (inv_closed _ _ Hi _ _ _ Hgj Hc). eauto.
  - by apply pending_never_send in Hop.
  - destruct (pending_select _ _ _ _ _ Hop) as (Hdone & _).
    assert (d0 = d) as ->
      by (eapply (wf_done _ _ _ Hwf (code g)); [by eapply list_elem_of_lookup_2|done]).
    by rewrite decide_True.
  - destruct (pending_close _ _ _ Hop) as (Hc & _).
    rewrite decide_False; [done|]. by rewrite (inv_closed _ _ Hi _ _ _ Hg Hc).
  - destruct (pending_wgdone _ _ _ Hop) as (Hp & dd & inp & out & Hc).
    pose proof (live_mux_count _ _ _ _ _ _ _ Hi Hg Hc Hn). by destruct (wgs s w); [lia|].
  - destruct (pending_wgwait _ _ _ Hop) as (_ & out & Hc).
    destruct (wgs s w) as [|m] eqn:Hw; [done|]. exfalso.
    destruct (filter_length_pos (live_mux w) (procs s)) as (k & gk & Hgk & Hmux & Hlive).
    { rewrite <- (inv_wg _ _ Hi). lia. }
    destruct (code gk) as [| | | |dd inp out' w'| |] eqn:Hck; try done.
    apply bool_decide_eq_true in Hmux as ->.
    pose proof (code_lookup _ _ _ Hi Hgk) as Hk. rewrite Hck in Hk.
    destruct (wf_mux _ _ _ Hwf _ _ _ _ _ Hk) as (j' & Hlt & Hj').
    rewrite Hc in Hst. rewrite (wf_closer _ _ _ Hwf _ _ _ _ _ Hj' Hst) in Hlt. eauto.
  - destruct (inv_pc _ _ Hi _ _ Hg); done.
Qed.

Lemma first_live s n :
  n <= length (procs s) ->
  (forall j gj, j < n -> procs s !! j = Some gj -> ctl gj = Halted) ->
  halted s \/
  exists m g, (forall j gj, j < m -> procs s !! j = Some gj -> ctl gj = Halted) /\
    procs s !! m = Some g /\ ctl g <> Halted.
Proof.
  intros Hn. remember (length (procs s) - n) as k eqn:Hk.
  revert n Hn Hk. induction k as [|k IH]; intros n Hn Hk Hlow.
  - left. apply Forall_lookup. intros j gj Hj. eapply Hlow; [|done].
    apply lookup_lt_Some in Hj. lia.
  - destruct (procs s !! n) as [g|] eqn:Hg.
    2:{ apply lookup_ge_None in Hg. lia. }
    destruct (decide (ctl g = Halted)) as [Hh|Hh]; [|right; eauto].
    apply (IH (S n)); [lia|lia|].
    intros j gj Hj Hgj. destruct (decide (j = n)) as [->|]; [congruence|].
    eapply Hlow; [|done]. lia.
Qed.

Lemma cancel_progress s :
  inv stages s -> d ∈ closed s -> ~ halted s -> exists i, is_Some (local i s).
Proof.
  intros Hi Hd Hnh. destruct (first_live s 0) as [?|(m & g & Hlow & Hg & Hn)];
    [lia|intros; lia|done|].
  exists m. eauto using cancel_enabled.
Qed.

(** ** Progress: a pipeline with a [main] never deadlocks *)

Lemma enabled_local s i : inv stages s -> is_Some (local i s) -> exists ch s', exec1 ch s = Some s'.
Proof.
  intros Hi [s' Hs]. exists (Local i), s'. unfold exec1. by rewrite (inv_nopanic _ _ Hi).
Qed.

Lemma enabled_comm s i j gi gj d' c v :
  inv stages s -> i <> j -> procs s !! i = Some gi -> procs s !! j = Some gj ->
  op_of gi = OSelect d' c v -> op_of gj = ORecv c -> c ∉ closed s ->
  exists ch s', exec1 ch s = Some s'.
Proof.
  intros Hi Hne Hgi Hgj Hopi Hopj Hcl. exists (Comm i j). unfold exec1, comm.
  rewrite (inv_nopanic _ _ Hi), decide_False, Hgi, Hgj by done. simpl.
  rewrite Hopi, Hopj. simpl. rewrite decide_True by done. eauto.
Qed.

Lemma live_not_closed s i g c :
  inv stages s -> procs s !! i = Some g -> closes (code g) = Some c ->
  op_of g <> OHalt -> c ∉ closed s.
Proof.
  intros Hi Hg Hc Hop Hcl. apply (inv_closed _ _ Hi _ _ _ Hg Hc) in Hcl.
  unfold op_of in Hop. by rewrite Hcl, pending_halted in Hop.
Qed.

(** A goroutine waiting to receive: its stream is closed, or its producer is
    ready to send, or the producer itself waits further upstream. *)

Lemma recv_progress s n :
  inv stages s ->
  forall i g c, i < n -> procs s !! i = Some g -> op_of g = ORecv c ->
  exists ch s', exec1 ch s = Some s'.
Proof.
  intros Hi. induction n as [|n IH]; intros i g c Hin Hg Hop; [lia|].
  pose proof (code_lookup _ _ _ Hi Hg) as Hst.
  destruct (pending_recv _ _ _ Hop) as [Hr _].
  destruct (wf_reads _ _ _ Hwf _ _ _ Hst Hr) as (j & st' & Hji & Hj & Hc).
  destruct (stage_lookup _ _ _ Hi Hj) as (gj & Hgj & <-).
  destruct (op_of gj) eqn:Hopj.
  - apply (IH j gj c0); [lia|done|done].
  - by apply pending_never_send in Hopj.
  - destruct (pending_select _ _ _ _ _ Hopj) as (_ & _ & _ & _ & [Hc'|(dd & inp & w & Hc')]).
    + assert (c0 = c) as -> by congruence.
      eapply (enabled_comm s j i); eauto; [lia|].
      eapply live_not_closed; eauto. by rewrite Hopj.
    + by rewrite Hc' in Hc.
  - destruct (pending_close _ _ _ Hopj) as (Hc' & _).
    apply (enabled_local s j); [done|]. unfold local. rewrite Hgj; simpl. rewrite Hopj.
    rewrite decide_False; [done|]. eapply live_not_closed; eauto. by rewrite Hopj.
  - destruct (pending_wgdone _ _ _ Hopj) as (_ & dd & inp & out & Hc'). by rewrite Hc' in Hc.
  - destruct (pending_wgwait _ _ _ Hopj) as (_ & out & Hcj).
    assert (out = c) as -> by (rewrite Hcj in Hc; simpl in Hc; congruence).
    destruct (wgs s w) as [|m] eqn:Hw.
    { apply (enabled_local s j); [done|]. unfold local. rewrite Hgj; simpl.
      by rewrite Hopj, Hw. }
    destruct (filter_length_pos (live_mux w) (procs s)) as (k & gk & Hgk & Hmux & Hlive).
    { rewrite <- (inv_wg _ _ Hi). lia. }
    destruct (code gk) as [| | | |dd inp out' w'| |] eqn:Hck; try done.
    apply bool_decide_eq_true in Hmux as ->.
    pose proof (code_lookup _ _ _ Hi Hgk) as Hk. rewrite Hck in Hk.
    destruct (wf_mux _ _ _ Hwf _ _ _ _ _ Hk) as (j' & Hlt & Hj').
    rewrite Hcj in Hj. pose proof (wf_closer _ _ _ Hwf _ _ _ _ _ Hj' Hj) as ->.
    assert (out' = c) as -> by congruence.
    assert (Hopk : op_of gk = pending (Multiplex dd inp c w) (ctl gk))
      by (unfold op_of; by rewrite Hck).
    destruct (ctl gk) as [kk|kk v| |] eqn:Hpk; simpl in Hopk; [| | |done].
    + apply (IH k gk inp); [lia|done|done].
    + eapply (enabled_comm s k i gk g); eauto; [lia|].
      apply (live_not_closed s j gj c Hi Hgj); [by rewrite Hcj|by rewrite Hopj].
    + apply (enabled_local s k); [done|]. unfold local. rewrite Hgk; simpl.
      by rewrite Hopk, Hw.
  - apply (enabled_local s i); [done|]. unfold local. rewrite Hg; simpl. rewrite Hop.
    rewrite decide_True; [done|]. apply (inv_closed _ _ Hi _ _ _ Hgj Hc).
    destruct (inv_pc _ _ Hi _ _ Hgj) as [?|Hp]; [done|]. by destruct Hp.
Qed.

Lemma progress s m inp :
  inv stages s -> stages !! m = Some (Main d inp) -> ~ halted s ->
  exists ch s', exec1 ch s = Some s'.
Proof.
  intros Hi Hm Hnh. destruct (stage_lookup _ _ _ Hi Hm) as (g & Hg & Hc).
  assert (Hop : op_of g = pending (Main d inp) (ctl g)) by (unfold op_of; by rewrite Hc).
  destruct (ctl g) as [k|k v| |] eqn:Hp; simpl in Hop.
  - apply (recv_progress s (S m) Hi m g inp); [lia|done|done].
  - destruct (inv_pc _ _ Hi _ _ Hg) as [Hh|Hh]; [congruence|]. by rewrite Hc, Hp in Hh.
  - apply (enabled_local s m); [done|]. unfold local. rewrite Hg; simpl.
    rewrite Hop. rewrite decide_False; [done|].
    apply (live_not_closed s m g d Hi Hg); [by rewrite Hc|by rewrite Hop].
  - assert (Hd : d ∈ closed s).
    { apply (inv_closed _ _ Hi _ _ _ Hg); [by rewrite Hc|done]. }
    destruct (cancel_progress s Hi Hd Hnh) as [i Hen]. by eapply enabled_local.
Qed.

(** ** Bounds on the length of runs *)

Lemma sum_list_imap_insert {A} (f : nat -> A -> nat) (l : list A) i x y :
  l !! i = Some x ->
  sum_list (imap f (<[i:=y]> l)) + f i x = sum_list (imap f l) + f i y.
Proof.
  revert f i. induction l as [|a l IH]; intros f i Hi; [done|].
  destruct i as [|i]; simplify_eq/=; [lia|].
  specialize (IH (f ∘ S) i Hi). simpl in IH. lia.
Qed.

Lemma sum_list_map_insert {A} (f : A -> nat) (l : list A) i x y :
  l !! i = Some x ->
  sum_list (map f (<[i:=y]> l)) + f x = sum_list (map f l) + f y.
Proof.
  revert i. induction l as [|a l IH]; intros i Hi; [done|].
  destruct i as [|i]; simplify_eq/=; [lia|].
  specialize (IH i Hi). lia.
Qed.

Lemma rank_bound s : rank s <= 3 * length (procs s).
Proof.
  unfold rank. induction (procs s) as [|g l IH]; simpl; [lia|].
  destruct (ctl g); simpl; lia.
Qed.

Lemma rank_zero s : rank s = 0 -> halted s.
Proof.
  unfold rank, halted. induction (procs s) as [|g l IH]; simpl; [by constructor|].
  intros H0. constructor; [destruct (ctl g); simpl in *; congruence || lia|].
  apply IH. lia.
Qed.

Lemma rank_set s i g p' cl wg o t pk :
  procs s !! i = Some g -> pc_rank p' < pc_rank (ctl g) ->
  rank (State (<[i:=Go (code g) p']> (procs s)) cl wg o t pk) < rank s.
Proof.
  intros Hg Hlt. unfold rank; state_simpl.
  pose proof (sum_list_map_insert (fun g => pc_rank (ctl g)) (procs s) i g (Go (code g) p') Hg) as H.
  simpl in H. lia.
Qed.

(** A goroutine that moves on its own gets closer to its return. *)

Lemma local_moves_rank s s' : moves s s' -> trace s' = trace s -> rank s' < rank s.
Proof.
  intros Hm Ht. destruct Hm as [i g c Hg Hop Hcl|i g d' c v Hg Hop Hcl|i g c Hg Hop Hcl
    |i g w n Hg Hop Hw|i g w Hg Hop Hw|i j gi gj d' c v Hne Hgi Hgj Hopi Hopj Hcl];
    unfold op_of in *.
  - apply rank_set; [done|]. destruct (code g), (ctl g); simpl in *; repeat case_match; simplify_eq/=; lia.
  - apply rank_set; [done|]. destruct (code g), (ctl g); simpl in *; repeat case_match; simplify_eq/=; lia.
  - apply rank_set; [done|]. destruct (code g), (ctl g); simpl in *; repeat case_match; simplify_eq/=; lia.
  - apply rank_set; [done|]. destruct (code g), (ctl g); simpl in *; repeat case_match; simplify_eq/=; lia.
  - apply rank_set; [done|]. destruct (code g), (ctl g); simpl in *; repeat case_match; simplify_eq/=; lia.
  - state_simpl. apply (f_equal length) in Ht. rewrite length_app in Ht. simpl in Ht. lia.
Qed.

Lemma local_trace i s s' : local i s = Some s' -> trace s' = trace s.
Proof.
  unfold local. destruct (procs s !! i) as [g|]; [simpl|done].
  destruct (op_of g); try done; repeat case_match; try done; intros [= <-]; try done.
  - unfold close_chan. by case_decide.
  - unfold wg_done. by case_match.
Qed.

Lemma local_rank i s s' : inv stages s -> local i s = Some s' -> rank s' < rank s.
Proof.
  intros Hi Hl. apply local_moves_rank; [|by eapply local_trace].
  apply (exec1_moves (Local i)); [done|]. unfold exec1. by rewrite (inv_nopanic _ _ Hi).
Qed.

Lemma local_run_rank ls s s' :
  inv stages s -> run (map Local ls) s = Some s' -> rank s' + length ls <= rank s.
Proof.
  revert s. induction ls as [|i ls IH]; intros s Hi; simpl; [intros [= <-]; lia|].
  destruct (exec1 (Local i) s) as [s1|] eqn:He; [simpl|done]. intros Hr.
  pose proof (inv_exec1 _ _ _ Hi He) as Hi1. specialize (IH _ Hi1 Hr).
  unfold exec1 in He. rewrite (inv_nopanic _ _ Hi) in He.
  pose proof (local_rank _ _ _ Hi He). lia.
Qed.

(** Values travel down the list: a sender stands before its receiver. *)

Lemma comm_order s i j gi gj d' c v :
  inv stages s -> procs s !! i = Some gi -> procs s !! j = Some gj ->
  op_of gi = OSelect d' c v -> op_of gj = ORecv c -> i < j.
Proof.
  intros Hi Hgi Hgj Hopi Hopj.
  destruct (pending_recv _ _ _ Hopj) as [Hr _].
  destruct (wf_reads _ _ _ Hwf _ _ _ (code_lookup _ _ _ Hi Hgj) Hr) as (o & st' & Hoj & Ho & Hc).
  destruct (stage_lookup _ _ _ Hi Ho) as (go & Hgo & <-).
  destruct (pending_select _ _ _ _ _ Hopi) as (_ & _ & _ & _ & [Hc'|(dd & inp & w & Hc')]).
  - by rewrite (owner_unique s i o gi go c).
  - pose proof (code_lookup _ _ _ Hi Hgi) as Hst. rewrite Hc' in Hst.
    destruct (wf_mux _ _ _ Hwf _ _ _ _ _ Hst) as (j' & Hlt & Hj').
    destruct (stage_lookup _ _ _ Hi Hj') as (gj' & Hgj' & Hcj').
    assert (j' = o); [|lia].
    apply (owner_unique s j' o gj' go c); try done. by rewrite Hcj'.
Qed.

Lemma sender_potential n i st p d' c v :
  pending st p = OSelect d' c v -> is_repeat st = false ->
  potential_at n i (Go st (resume st p RSent)) + held n i <= potential_at n i (Go st p) + 1.
Proof.
  unfold potential_at. destruct st, p; simpl; intros Hp Hr; repeat case_match;
    simplify_eq/=; try lia.
  match goal with H : ?l !! ?k = Some _ |- _ =>
    apply lookup_lt_Some in H;
    replace (length l - k) with (S (length l - S k)) by lia
  end. simpl. lia.
Qed.

Lemma receiver_potential n j st p c v :
  pending st p = ORecv c -> j < n ->
  potential_at n j (Go st (resume st p (RVal v))) + 1 <= potential_at n j (Go st p) + held n j.
Proof.
  unfold potential_at, held. destruct st, p; simpl; intros Hp Hj; repeat case_match;
    simplify_eq/=; try lia.
  apply Z.ltb_lt in H.
  match goal with |- context [Z.to_nat (?num - Z.of_nat (S ?k))] =>
    replace (Z.to_nat (num - Z.of_nat k)) with (S (Z.to_nat (num - Z.of_nat (S k)))) by lia
  end. lia.
Qed.

Lemma local_potential n i st p r :
  match pending st p, r with
  | ORecv _, RClosed | OSelect _ _ _, RDone | OWgWait _, ROk => True
  | _, _ => False
  end ->
  potential_at n i (Go st (resume st p r)) < potential_at n i (Go st p).
Proof.
  unfold potential_at. destruct st, p, r; simpl; intros Hp; repeat case_match;
    simplify_eq/=; nia.
Qed.

Lemma live_potential n i st p : p <> Halted -> 0 < potential_at n i (Go st p).
Proof. unfold potential_at. destruct st, p; simpl; intros; try done; nia. Qed.

Lemma potential_set s i g p' cl wg o t pk :
  procs s !! i = Some g ->
  potential_at (length (procs s)) i (Go (code g) p') < potential_at (length (procs s)) i g ->
  potential (State (<[i:=Go (code g) p']> (procs s)) cl wg o t pk) < potential s.
Proof.
  intros Hg Hlt. unfold potential; state_simpl. rewrite length_insert.
  pose proof (sum_list_imap_insert (potential_at (length (procs s))) (procs s) i g
                (Go (code g) p') Hg). lia.
Qed.

(** Every step of a pipeline without [repeatFn] uses up some potential. *)

Lemma potential_moves s s' :
  inv stages s -> (forall st, st ∈ stages -> is_repeat st = false) ->
  moves s s' -> potential s' < potential s.
Proof.
  intros Hi Hfin Hm.
  destruct Hm as [i g c Hg Hop Hcl|i g d' c v Hg Hop Hcl|i g c Hg Hop Hcl
    |i g w n Hg Hop Hw|i g w Hg Hop Hw|i j gi gj d' c v Hne Hgi Hgj Hopi Hopj Hcl];
    unfold op_of in *.
  - apply potential_set; [done|]. destruct g as [st p]; simpl in *.
    apply local_potential. by rewrite Hop.
  - apply potential_set; [done|]. destruct g as [st p]; simpl in *.
    apply local_potential. by rewrite Hop.
  - apply potential_set; [done|]. destruct g as [st p]; simpl in *.
    destruct (pending_close _ _ _ Hop) as (_ & _ & Hn).
    pose proof (live_potential (length (procs s)) i st p Hn).
    unfold potential_at at 1. by destruct st.
  - apply potential_set; [done|]. destruct g as [st p]; simpl in *.
    destruct (pending_wgdone _ _ _ Hop) as (-> & _).
    unfold potential_at. destruct st; simpl; lia.
  - apply potential_set; [done|]. destruct g as [st p]; simpl in *.
    destruct (pending_wgwait _ _ _ Hop) as ([k ->] & out & ->). unfold potential_at; simpl. lia.
  - pose proof (comm_order _ _ _ _ _ _ _ _ Hi Hgi Hgj Hopi Hopj) as Hij.
    pose proof (lookup_lt_Some _ _ _ Hgj) as Hjn.
    unfold potential; state_simpl. rewrite !length_insert.
    set (n := length (procs s)) in *.
    pose proof (sum_list_imap_insert (potential_at n) (procs s) i gi
      (Go (code gi) (resume (code gi) (ctl gi) RSent)) Hgi) as H1.
    pose proof (sum_list_imap_insert (potential_at n)
      (<[i:=Go (code gi) (resume (code gi) (ctl gi) RSent)]> (procs s)) j gj
      (Go (code gj) (resume (code gj) (ctl gj) (RVal v)))) as H2.
    rewrite list_lookup_insert_ne in H2 by done. specialize (H2 Hgj).
    assert (Hrep : is_repeat (code gi) = false).
    { apply Hfin. eapply list_elem_of_lookup_2, code_lookup; eauto. }
    pose proof (sender_potential n i _ _ _ _ _ Hopi Hrep) as H3.
    pose proof (receiver_potential n j _ _ _ v Hopj Hjn) as H4.
    destruct gi as [sti pi], gj as [stj pj]; simpl in *.
    unfold held in *. lia.
Qed.

Lemma run_potential sched s s' :
  inv stages s -> (forall st, st ∈ stages -> is_repeat st = false) ->
  run sched s = Some s' -> potential s' + length sched <= potential s.
Proof.
  intros Hi Hfin. revert s Hi. induction sched as [|ch sched IH]; intros s Hi; simpl.
  { intros [= <-]. lia. }
  destruct (exec1 ch s) as [s1|] eqn:He; [simpl|done]. intros Hr.
  pose proof (inv_exec1 _ _ _ Hi He) as Hi1. specialize (IH _ Hi1 Hr).
  pose proof (potential_moves _ _ Hi Hfin (exec1_moves _ _ _ Hi He)). lia.
Qed.

(** ** While [done] is open *)

Lemma moves_closed s s' : moves s s' -> closed s ⊆ closed s'.
Proof. clear. intros []; simpl; set_solver. Qed.

Lemma open_inv_boot : open_inv d (boot stages wg0).
Proof.
  split.
  - intros i g c [_ Hc]%boot_lookup _ _ _ [Hp|Hp]; by rewrite Hc in Hp.
  - intros i g [_ Hc]%boot_lookup _ _ _ Hp. by rewrite Hc in Hp.
Qed.

Lemma open_inv_set s i g p' cl o t :
  open_inv d s -> procs s !! i = Some g -> closed s ⊆ cl ->
  (is_range (code g) = true -> d ∉ cl -> p' = AtExit \/ p' = Halted ->
   forall c, reads (code g) = Some c -> c ∈ cl) ->
  (is_range (code g) = false -> is_closer (code g) = false -> d ∉ cl -> p' <> AtExit) ->
  forall wg, open_inv d (State (<[i:=Go (code g) p']> (procs s)) cl wg o t (panicked s)).
Proof.
  intros Ho Hg Hsub Hr Hn wg. split; state_simpl.
  - intros j gj c Hj Hrg Hrd Hd Hp. destruct (decide (i = j)) as [->|Hne].
    + rewrite list_lookup_insert_eq in Hj by (by eapply lookup_lt_Some). simplify_eq/=. eauto.
    + rewrite list_lookup_insert_ne in Hj by done.
      apply Hsub. eapply (open_range _ _ Ho); eauto.
  - intros j gj Hj Hrg Hcl Hd. destruct (decide (i = j)) as [->|Hne].
    + rewrite list_lookup_insert_eq in Hj by (by eapply lookup_lt_Some). simplify_eq/=. eauto.
    + rewrite list_lookup_insert_ne in Hj by done.
      eapply (open_noexit _ _ Ho); eauto.
Qed.

Lemma open_inv_moves s s' : inv stages s -> open_inv d s -> moves s s' -> open_inv d s'.
Proof.
  intros Hi Ho Hm.
  destruct Hm as [i g c Hg Hop Hcl|i g d' c v Hg Hop Hcl|i g c Hg Hop Hcl
    |i g w n Hg Hop Hw|i g w Hg Hop Hw|i j gi gj d' c v Hne Hgi Hgj Hopi Hopj Hcl];
    unfold op_of in *.
  - refine (open_inv_set s i g _ _ _ _ Ho Hg _ _ _ _); [done| |].
    + intros _ _ _ c' Hr. destruct (pending_recv _ _ _ Hop) as [Hr' _]. congruence.
    + intros Hr _ _. destruct (code g), (ctl g); simpl in *; repeat case_match; simplify_eq/=; done.
  - destruct (pending_select _ _ _ _ _ Hop) as (Hd & _).
    assert (d' = d) as ->
      by (eapply (wf_done _ _ _ Hwf (code g)); [eapply list_elem_of_lookup_2, code_lookup|]; eauto).
    refine (open_inv_set s i g _ _ _ _ Ho Hg _ _ _ _); [done| |]; by intros.
  - destruct (pending_close _ _ _ Hop) as (Hc & _ & Hn).
    refine (open_inv_set s i g _ _ _ _ Ho Hg _ _ _ _); [set_solver| |done].
    intros Hr Hd _ c' Hr'.
    assert (c' ∈ closed s); [|set_solver].
    eapply (open_range _ _ Ho i g); eauto; [set_solver|].
    left. destruct (code g), (ctl g); simpl in *; repeat case_match; simplify_eq/=; done.
  - destruct (pending_wgdone _ _ _ Hop) as (Hp & dd & inp & out & Hc).
    refine (open_inv_set s i g _ _ _ _ Ho Hg _ _ _ _); [done| |done].
    intros Hr Hd _ c' Hr'. eapply (open_range _ _ Ho i g); eauto.
  - destruct (pending_wgwait _ _ _ Hop) as (_ & out & Hc).
    refine (open_inv_set s i g _ _ _ _ Ho Hg _ _ _ _); [done| |]; by rewrite Hc.
  - destruct (pending_select _ _ _ _ _ Hopi) as (_ & _ & _ & [k Hk] & _).
    destruct (resume_recv_ok _ _ _ (RVal v) Hopj) as (_ & Hnj & _); [eauto|].
    assert (Hnej : resume (code gj) (ctl gj) (RVal v) <> AtExit).
    { destruct (code gj), (ctl gj); simpl in *; repeat case_match; simplify_eq/=; done. }
    assert (H1 : open_inv d (State (<[i:=Go (code gi) (resume (code gi) (ctl gi) RSent)]> (procs s))
                       (closed s) (wgs s) (output s) (trace s) (panicked s))).
    { refine (open_inv_set s i gi _ _ _ _ Ho Hgi _ _ _ _); [done| |]; rewrite Hk.
      - by intros ? ? [|].
      - done. }
    refine (open_inv_set _ j gj _ _ _ _ H1 _ _ _ _ _); state_simpl.
    + by rewrite list_lookup_insert_ne.
    + done.
    + by intros _ _ [|].
    + done.
Qed.

(** ** Bookkeeping of the values on their way *)

Definition hold_all (l : list goroutine) : list value :=
  concat (map (fun g => holding (ctl g)) l).

Lemma hold_all_insert l i g g' :
  l !! i = Some g ->
  hold_all (<[i:=g']> l) ++ holding (ctl g) ≡ₚ hold_all l ++ holding (ctl g').
Proof.
  intros Hi. unfold hold_all.
  rewrite insert_take_drop by (by eapply lookup_lt_Some).
  rewrite <- (take_drop_middle l i g) at 3 by done.
  rewrite !map_app, !concat_app. simpl.
  rewrite <- !app_assoc. apply Permutation_app_head.
  rewrite (Permutation_app_comm (holding (ctl g')) _).
  rewrite (Permutation_app_comm (holding (ctl g)) _).
  rewrite <- !app_assoc. apply Permutation_app_head. apply Permutation_app_comm.
Qed.

Lemma hold_all_nil l : (forall i g, l !! i = Some g -> holding (ctl g) = []) -> hold_all l = [].
Proof.
  unfold hold_all. induction l as [|g l IH]; intros Hall; [done|]. simpl.
  rewrite (Hall 0 g eq_refl). simpl. apply IH. intros i g' Hi. by apply (Hall (S i)).
Qed.

Lemma hold_all_only l i g :
  l !! i = Some g ->
  (forall j gj, l !! j = Some gj -> j <> i -> holding (ctl gj) = []) ->
  hold_all l = holding (ctl g).
Proof.
  intros Hi Hall. unfold hold_all.
  rewrite <- (take_drop_middle l i g) by done.
  rewrite map_app, concat_app. simpl.
  pose proof (lookup_lt_Some _ _ _ Hi) as Hlt.
  fold (hold_all (take i l)). fold (hold_all (drop (S i) l)).
  rewrite (hold_all_nil (take i l)), (hold_all_nil (drop (S i) l)).
  - simpl. by rewrite app_nil_r.
  - intros j gj Hj. rewrite lookup_drop in Hj. eapply Hall; [done|lia].
  - intros j gj Hj. apply lookup_take_Some in Hj as [Hj Hji]. eapply Hall; [done|lia].
Qed.

Lemma afloat_eq s : afloat s = output s ++ hold_all (procs s).
Proof. done. Qed.

Lemma ctl_at_lookup s i g : procs s !! i = Some g -> ctl_at s i = ctl g.
Proof. unfold ctl_at. by intros ->. Qed.

Lemma ctl_at_set l i g p' cl wg o t pk j :
  l !! i = Some g ->
  ctl_at (State (<[i:=Go (code g) p']> l) cl wg o t pk) j =
  if decide (i = j) then p' else default Halted (ctl <$> l !! j).
Proof.
  intros Hi. unfold ctl_at; state_simpl. case_decide as Hij.
  - subst. by rewrite list_lookup_insert_eq by (by eapply lookup_lt_Some).
  - by rewrite list_lookup_insert_ne.
Qed.

Lemma handed_submseteq (h : value -> option value) integers p :
  omap h (handed integers p) ⊆+ omap h integers.
Proof.
  destruct p as [k| | |]; simpl; try done.
  rewrite <- (take_drop k integers) at 2. rewrite omap_app.
  by apply submseteq_inserts_r.
Qed.

Lemma afloat_set s i g p' cl wg o t pk :
  procs s !! i = Some g ->
  afloat (State (<[i:=Go (code g) p']> (procs s)) cl wg o t pk) ++ holding (ctl g)
  ≡ₚ o ++ hold_all (procs s) ++ holding p'.
Proof.
  intros Hg. rewrite afloat_eq; state_simpl. rewrite <- !app_assoc.
  apply Permutation_app_head. apply (hold_all_insert _ _ _ (Go (code g) p') Hg).
Qed.

Lemma afloat_set2 s i j gi gj pi pj cl wg o t pk :
  i <> j -> procs s !! i = Some gi -> procs s !! j = Some gj ->
  afloat (State (<[j:=Go (code gj) pj]> (<[i:=Go (code gi) pi]> (procs s))) cl wg o t pk)
    ++ holding (ctl gi) ++ holding (ctl gj)
  ≡ₚ o ++ hold_all (procs s) ++ holding pi ++ holding pj.
Proof.
  intros Hne Hgi Hgj. rewrite afloat_eq; state_simpl. rewrite <- !app_assoc.
  apply Permutation_app_head.
  assert (Hj : <[i:=Go (code gi) pi]> (procs s) !! j = Some gj)
    by (by rewrite list_lookup_insert_ne).
  pose proof (hold_all_insert _ _ _ (Go (code gj) pj) Hj) as H2.
  pose proof (hold_all_insert _ _ _ (Go (code gi) pi) Hgi) as H1. simpl in *.
  rewrite (Permutation_app_comm (holding (ctl gi))), app_assoc, H2.
  rewrite <- app_assoc, (Permutation_app_comm (holding pj)), app_assoc, H1.
  by rewrite <- app_assoc.
Qed.

Lemma ctl_at_set2 l i j gi gj pi pj cl wg o t pk k :
  i <> j -> l !! i = Some gi -> l !! j = Some gj ->
  ctl_at (State (<[j:=Go (code gj) pj]> (<[i:=Go (code gi) pi]> l)) cl wg o t pk) k =
  if decide (j = k) then pj else if decide (i = k) then pi
  else default Halted (ctl <$> l !! k).
Proof.
  intros Hne Hi Hj. unfold ctl_at; state_simpl. repeat case_decide; subst.
  - rewrite list_lookup_insert_eq; [done|]. rewrite length_insert. by eapply lookup_lt_Some.
  - rewrite list_lookup_insert_ne, list_lookup_insert_eq by done || by eapply lookup_lt_Some. done.
  - by rewrite !list_lookup_insert_ne.
Qed.

End invariant.

(** ** [generator] into one transform stage *)

Section chain.
Context (integers : list value) (f : value -> option value).

Let chain_stages : list stage := [Generator 0 1 integers; Transform 0 1 2 f; Main 0 2].

Lemma chain_wf : wf_net 0 chain_stages no_wg.
Proof.
  split.
  - intros st d' Hst Hd. unfold chain_stages in Hst. set_unfold.
    destruct Hst as [->|[->|[->|[]]]]; simpl in Hd; congruence.
  - simpl. repeat constructor; set_solver.
  - intros [|[|[|i]]] st c Hi Hr; simplify_eq/=.
    + exists 0, (Generator 0 1 integers). split; [lia|done].
    + exists 1, (Transform 0 1 2 f). split; [lia|done].
  - intros [|[|[|i]]] ?????; simplify_eq/=.
  - intros [|[|[|i]]] ??????; simplify_eq/=.
  - done.
Qed.

Definition chain_inv (s : state) : Prop :=
  exists gp tp mp,
    procs s = [Go (Generator 0 1 integers) gp; Go (Transform 0 1 2 f) tp; Go (Main 0 2) mp] /\
    output s ++ holding tp = omap f (handed integers gp) /\
    gp <> AtExit /\
    (tp = AtExit \/ tp = Halted -> gp = Halted) /\
    (mp = AtExit \/ mp = Halted -> tp = Halted).

Lemma chain_closed s gp tp mp :
  inv chain_stages s ->
  procs s = [Go (Generator 0 1 integers) gp; Go (Transform 0 1 2 f) tp; Go (Main 0 2) mp] ->
  (1 ∈ closed s <-> gp = Halted) /\ (2 ∈ closed s <-> tp = Halted) /\
  (0 ∈ closed s <-> mp = Halted).
Proof.
  intros Hi Hp. split_and!.
  - apply (inv_closed _ _ Hi 0 (Go (Generator 0 1 integers) gp)); by rewrite ?Hp.
  - apply (inv_closed _ _ Hi 1 (Go (Transform 0 1 2 f) tp)); by rewrite ?Hp.
  - apply (inv_closed _ _ Hi 2 (Go (Main 0 2) mp)); by rewrite ?Hp.
Qed.

Lemma chain_inv_boot : chain_inv (chain_net integers f).
Proof. exists (AtLoop 0), (AtLoop 0), (AtLoop 0). split_and!; try done; naive_solver. Qed.

Lemma chain_inv_moves s s' : inv chain_stages s -> chain_inv s -> moves s s' -> chain_inv s'.
Proof.
  intros Hi (gp & tp & mp & Hp & Hout & Hge & Ht & Hm) Hmv.
  destruct (chain_closed s gp tp mp Hi Hp) as (Hc1 & Hc2 & Hc0).
  destruct Hmv as [i g c Hg Hop Hcl|i g d' c v Hg Hop Hcl|i g c Hg Hop Hcl
    |i g w n Hg Hop Hw|i g w Hg Hop Hw|i j gi gj d' c v Hne Hgi Hgj Hopi Hopj Hcl];
    net_lookup Hp; unfold op_of in *; cbn [code ctl] in *.
  all: pend.
  all: unfold chain_inv; cbn [procs output]; rewrite Hp; cbn [insert list_insert resume prints];
    (eexists _, _, _; split; [reflexivity|]).
  - (* the transform stage finds intStream closed *)
    simpl in *. rewrite app_nil_r in *. intuition congruence.
  - (* main finds the pipeline closed *)
    intuition congruence.
  - (* the generator cannot see done closed *)
    exfalso. intuition congruence.
  - exfalso. intuition congruence.
  - (* the generator has run out of integers and closes intStream *)
    match goal with H : integers !! _ = None |- _ => apply lookup_ge_None in H end.
    simpl in Hout. rewrite take_ge in Hout by done. simpl. intuition congruence.
  - done.
  - simpl in *. intuition congruence.
  - intuition congruence.
  - (* the generator hands integers[k] to the transform stage *)
    match goal with H : integers !! _ = Some _ |- _ =>
      simpl; rewrite (take_S_r _ _ _ H), omap_app; simpl end.
    simpl in Hout. rewrite !app_nil_r in *. rewrite <- Hout.
    destruct (f v); simpl; rewrite ?app_nil_r; intuition congruence.
  - (* the transform stage hands its value to main, which prints it *)
    simpl in *. rewrite app_nil_r. intuition congruence.
Qed.

Lemma chain_run sched s :
  run sched (chain_net integers f) = Some s -> inv chain_stages s /\ chain_inv s.
Proof.
  assert (Hgen : forall sched s0 s, inv chain_stages s0 -> chain_inv s0 ->
            run sched s0 = Some s -> inv chain_stages s /\ chain_inv s).
  { clear sched s. induction sched as [|ch sched IH]; intros s0 s Hi Hc; simpl.
    - by intros [= <-].
    - destruct (exec1 ch s0) as [s1|] eqn:He; [simpl|done].
      apply IH; [by eapply inv_exec1; eauto using chain_wf|].
      eapply chain_inv_moves; eauto. eapply exec1_moves; eauto using chain_wf. }
  apply Hgen; [apply (inv_boot 0), chain_wf|apply chain_inv_boot].
Qed.

Lemma chain_halted_output s : chain_inv s -> halted s -> output s = omap f integers.
Proof.
  intros (gp & tp & mp & Hp & Hout & _) Hh. unfold halted in Hh. rewrite Hp in Hh.
  apply Forall_cons in Hh as [Hg Hh]. apply Forall_cons in Hh as [Ht _]. simpl in *.
  subst. simpl in Hout. by rewrite app_nil_r in Hout.
Qed.

Lemma chain_potential : potential (chain_net integers f) = 6 * length integers + 9.
Proof. unfold potential, potential_at, held. simpl. lia. Qed.

(** Every run of the chain is finite, cannot get stuck before all three
    goroutines have returned, and ends with the transformed integers printed
    in order. *)

Lemma chain_correct sched s :
  run sched (chain_net integers f) = Some s ->
  length sched <= 6 * length integers + 9 /\
  (~ halted s -> exists ch s', exec1 ch s = Some s') /\
  (halted s -> output s = omap f integers).
Proof.
  intros Hr. destruct (chain_run _ _ Hr) as [Hi Hc]. split_and!.
  - rewrite <- chain_potential.
    assert (Hfin : forall st, st ∈ chain_stages -> is_repeat st = false).
    { intros st Hst. unfold chain_stages in Hst. set_unfold.
      by destruct Hst as [->|[->|[->|[]]]]. }
    pose proof (run_potential 0 chain_stages no_wg chain_wf sched
                  (chain_net integers f) s (inv_boot 0 _ _ chain_wf) Hfin Hr). lia.
  - intros Hn. eapply (progress 0 chain_stages no_wg chain_wf s 2 2); eauto.
  - eauto using chain_halted_output.
Qed.

End chain.

(** ** [take] over a finite stream *)

Section take_net.
Context (values : list value) (num : Z).

Let take_stages : list stage := [Generator 0 1 values; Take 0 1 2 num; Main 0 2].

Lemma take_wf : wf_net 0 take_stages no_wg.
Proof.
  split.
  - intros st d' Hst Hd. unfold take_stages in Hst. set_unfold.
    destruct Hst as [->|[->|[->|[]]]]; simpl in Hd; congruence.
  - simpl. repeat constructor; set_solver.
  - intros [|[|[|i]]] st c Hi Hr; simplify_eq/=.
    + exists 0, (Generator 0 1 values). split; [lia|done].
    + exists 1, (Take 0 1 2 num). split; [lia|done].
  - intros [|[|[|i]]] ?????; simplify_eq/=.
  - intros [|[|[|i]]] ??????; simplify_eq/=.
  - done.
Qed.

(** The [n]-th value [take] reads: the [n]-th value of the stream, or the zero
    value of [interface{}] once the stream is closed. *)

Definition nth_read (n : nat) : value := default VNil (values !! n).

Definition take_inv (s : state) : Prop :=
  exists gp tp mp,
    procs s = [Go (Generator 0 1 values) gp; Go (Take 0 1 2 num) tp; Go (Main 0 2) mp] /\
    match mp with
    | AtLoop _ =>
        gp <> AtExit /\
        match tp with
        | AtLoop i =>
            output s = map nth_read (seq 0 i) /\ i <= Z.to_nat num /\
            (forall k, gp = AtLoop k -> k = i) /\ (gp = Halted -> length values <= i)
        | AtSelect i v =>
            output s = map nth_read (seq 0 i) /\ v = nth_read i /\ i < Z.to_nat num /\
            (forall k, gp = AtLoop k -> k = S i) /\ (gp = Halted -> length values <= S i)
        | AtExit => False
        | Halted => output s = map nth_read (seq 0 (Z.to_nat num))
        end
    | AtSelect _ _ => False
    | _ => tp = Halted /\ output s = map nth_read (seq 0 (Z.to_nat num))
    end.

Lemma take_closed s gp tp mp :
  inv take_stages s ->
  procs s = [Go (Generator 0 1 values) gp; Go (Take 0 1 2 num) tp; Go (Main 0 2) mp] ->
  (1 ∈ closed s <-> gp = Halted) /\ (2 ∈ closed s <-> tp = Halted) /\
  (0 ∈ closed s <-> mp = Halted).
Proof.
  intros Hi Hp. split_and!.
  - apply (inv_closed _ _ Hi 0 (Go (Generator 0 1 values) gp)); by rewrite ?Hp.
  - apply (inv_closed _ _ Hi 1 (Go (Take 0 1 2 num) tp)); by rewrite ?Hp.
  - apply (inv_closed _ _ Hi 2 (Go (Main 0 2) mp)); by rewrite ?Hp.
Qed.

Lemma take_inv_boot : take_inv (take_net values num).
Proof.
  exists (AtLoop 0), (AtLoop 0), (AtLoop 0). split; [done|]. simpl.
  split_and!; try done; try lia. by intros k [= <-].
Qed.

Lemma nth_read_seq_S i : map nth_read (seq 0 (S i)) = map nth_read (seq 0 i) ++ [nth_read i].
Proof. by rewrite seq_S, map_app. Qed.

Lemma take_inv_moves s s' : inv take_stages s -> take_inv s -> moves s s' -> take_inv s'.
Proof.
  intros Hi (gp & tp & mp & Hp & Hinv) Hmv.
  destruct (take_closed s gp tp mp Hi Hp) as (Hc1 & Hc2 & Hc0).
  destruct Hmv as [i g c Hg Hop Hcl|i g d' c v Hg Hop Hcl|i g c Hg Hop Hcl
    |i g w n Hg Hop Hw|i g w Hg Hop Hw|i j gi gj d' c v Hne Hgi Hgj Hopi Hopj Hcl];
    net_lookup Hp; unfold op_of in *; cbn [code ctl] in *.
  all: revert Hinv; pend; intros Hinv.
  all: unfold take_inv; cbn [procs output]; rewrite Hp; cbn [insert list_insert resume prints];
    (eexists _, _, _; split; [reflexivity|]).
  all: repeat match goal with p : pc |- _ => destruct p end.
  all: try done.
  all: try (exfalso; intuition congruence).
  all: repeat match goal with H : (_ <? _)%Z = _ |- _ => first [apply Z.ltb_lt in H|apply Z.ltb_ge in H] end.
  all: repeat match goal with H : values !! _ = None |- _ => apply lookup_ge_None in H end.
  all: try (rewrite ?app_nil_r; intuition (try congruence; try lia)).
  all: repeat match goal with
       | H : forall k, AtLoop ?a = AtLoop k -> _ |- _ => specialize (H a eq_refl)
       | H : AtLoop _ = AtLoop _ |- _ => injection H as H
       end; subst.
  all: try lia.
  all: try (rewrite nth_read_seq_S; congruence).
  all: try (unfold nth_read; rewrite lookup_ge_None_2 by lia; done).
  all: try (unfold nth_read; by match goal with H : values !! _ = Some _ |- _ => rewrite H end).
  all: try (by match goal with |- _ = map nth_read (seq 0 (Z.to_nat ?n)) =>
              match goal with H : _ = map nth_read (seq 0 ?k) |- _ =>
                replace (Z.to_nat n) with k by lia end end).
Qed.

Lemma nth_read_seq n :
  map nth_read (seq 0 n) = take n values ++ replicate (n - length values) VNil.
Proof.
  induction n as [|n IH]; [done|]. rewrite nth_read_seq_S, IH. unfold nth_read.
  destruct (values !! n) as [v|] eqn:Hn; simpl.
  - pose proof (lookup_lt_Some _ _ _ Hn).
    rewrite (take_S_r _ _ _ Hn).
    replace (n - length values) with 0 by lia. replace (S n - length values) with 0 by lia.
    simpl. by rewrite !app_nil_r.
  - apply lookup_ge_None in Hn.
    rewrite !take_ge by lia. replace (S n - length values) with (S (n - length values)) by lia.
    by rewrite replicate_S_end, app_assoc.
Qed.

Lemma take_run sched s :
  run sched (take_net values num) = Some s -> inv take_stages s /\ take_inv s.
Proof.
  assert (Hgen : forall sched s0 s, inv take_stages s0 -> take_inv s0 ->
            run sched s0 = Some s -> inv take_stages s /\ take_inv s).
  { clear sched s. induction sched as [|ch sched IH]; intros s0 s Hi Hc; simpl.
    - by intros [= <-].
    - destruct (exec1 ch s0) as [s1|] eqn:He; [simpl|done].
      apply IH; [by eapply inv_exec1; eauto using take_wf|].
      eapply take_inv_moves; eauto. eapply exec1_moves; eauto using take_wf. }
  apply Hgen; [apply (inv_boot 0), take_wf|apply take_inv_boot].
Qed.

Lemma take_halted_output s :
  take_inv s -> halted s ->
  output s = take (Z.to_nat num) values ++ replicate (Z.to_nat num - length values) VNil.
Proof.
  intros (gp & tp & mp & Hp & Hinv) Hh. unfold halted in Hh. rewrite Hp in Hh.
  apply Forall_cons in Hh as [_ Hh]. apply Forall_cons in Hh as [_ Hh].
  apply Forall_cons in Hh as [Hm _]. simpl in Hm. subst mp.
  destruct Hinv as [_ ->]. apply nth_read_seq.
Qed.

Lemma take_potential :
  potential (take_net values num) = 6 * length values + 4 * Z.to_nat num + 9.
Proof.
  unfold potential, potential_at, held. simpl.
  replace (num - 0)%Z with num by lia. lia.
Qed.

(** Every run of [take] over a finite stream is finite, cannot get stuck
    before all goroutines have returned, and ends with exactly [num] values
    printed: the values of the stream, then [nil] for every read that came
    after the stream was closed. *)

Lemma take_correct sched s :
  run sched (take_net values num) = Some s ->
  length sched <= 6 * length values + 4 * Z.to_nat num + 9 /\
  (~ halted s -> exists ch s', exec1 ch s = Some s') /\
  (halted s ->
   output s = take (Z.to_nat num) values ++ replicate (Z.to_nat num - length values) VNil).
Proof.
  intros Hr. destruct (take_run _ _ Hr) as [Hi Hc]. split_and!.
  - rewrite <- take_potential.
    assert (Hfin : forall st, st ∈ take_stages -> is_repeat st = false).
    { intros st Hst. unfold take_stages in Hst. set_unfold.
      by destruct Hst as [->|[->|[->|[]]]]. }
    pose proof (run_potential 0 take_stages no_wg take_wf sched
                  (take_net values num) s (inv_boot 0 _ _ take_wf) Hfin Hr). lia.
  - intros Hn. eapply (progress 0 take_stages no_wg take_wf s 2 2); eauto.
  - eauto using take_halted_output.
Qed.

End take_net.

(** ** Fan-out, fan-in *)

Section fofi.
Context (integers : list value) (f : value -> option value) (W : nat) (num : Z).

Let stages : list stage := fofi_stages integers f W num.

Lemma fofi_lookup i st :
  stages !! i = Some st ->
  (i = 0 /\ st = Generator 0 1 integers) \/
  (exists w, w < W /\ i = 1 + w /\ st = Transform 0 1 (worker_out w) f) \/
  (exists w, w < W /\ i = 1 + W + w /\ st = Multiplex 0 (worker_out w) 2 0) \/
  (i = 1 + 2 * W /\ st = Closer 0 2) \/
  (i = 2 + 2 * W /\ st = Take 0 2 3 num) \/
  (i = 3 + 2 * W /\ st = Main 0 3).
Proof.
  unfold stages, fofi_stages, fanIn. destruct i as [|i]; simpl.
  { intros [= <-]. by left. }
  rewrite lookup_app_Some, length_map, length_seq. intros [Hi|[Hle Hi]].
  { rewrite list_lookup_fmap in Hi.
    destruct (seq 0 W !! i) as [w|] eqn:Hw; [|done]. apply lookup_seq in Hw as [-> ?].
    simpl in Hi. injection Hi as <-. right; left. exists i. done. }
  rewrite lookup_app_Some, length_app, !length_map, length_seq in Hi. simpl in Hi.
  destruct Hi as [Hi|[Hle' Hi]].
  - rewrite lookup_app_Some, !length_map, length_seq in Hi. destruct Hi as [Hi|[Hle' Hi]].
    + rewrite list_lookup_fmap, list_lookup_fmap in Hi.
      destruct (seq 0 W !! (i - W)) as [w|] eqn:Hw; [|done]. apply lookup_seq in Hw as [-> ?].
      simpl in Hi. injection Hi as <-. right; right; left. exists (i - W).
      split_and!; [done|lia|done].
    + destruct (i - W - W) as [|k] eqn:Hk; simpl in Hi; [|done].
      injection Hi as <-. right; right; right; left. split; [lia|done].
  - destruct (i - W - (W + 1)) as [|[|k]] eqn:Hk; simpl in Hi; [| |done]; injection Hi as <-.
    + right; right; right; right; left. split; [lia|done].
    + right; right; right; right; right. split; [lia|done].
Qed.

Lemma fofi_at_gen : stages !! 0 = Some (Generator 0 1 integers).
Proof. done. Qed.

Lemma fofi_at_worker w : w < W -> stages !! (1 + w) = Some (Transform 0 1 (worker_out w) f).
Proof.
  intros Hw. unfold stages, fofi_stages. simpl.
  rewrite lookup_app_l by (rewrite length_map, length_seq; lia).
  rewrite list_lookup_fmap, lookup_seq_lt by done. done.
Qed.

Lemma fofi_at_mux w : w < W -> stages !! (1 + W + w) = Some (Multiplex 0 (worker_out w) 2 0).
Proof.
  intros Hw. unfold stages, fofi_stages, fanIn. simpl.
  rewrite lookup_app_r by (rewrite length_map, length_seq; lia).
  rewrite length_map, length_seq. replace (W + w - W) with w by lia.
  rewrite <- app_assoc. rewrite lookup_app_l by (rewrite !length_map, length_seq; lia).
  rewrite !list_lookup_fmap, lookup_seq_lt by done. done.
Qed.

Lemma fofi_at_tail :
  stages !! (1 + 2 * W) = Some (Closer 0 2) /\
  stages !! (2 + 2 * W) = Some (Take 0 2 3 num) /\
  stages !! (3 + 2 * W) = Some (Main 0 3).
Proof.
  unfold stages, fofi_stages, fanIn. simpl.
  rewrite !(lookup_app_r (map _ (seq 0 W))) by (rewrite length_map, length_seq; lia).
  rewrite length_map, length_seq. rewrite <- !app_assoc.
  rewrite !(lookup_app_r (map _ (map _ (seq 0 W)))) by (rewrite !length_map, length_seq; lia).
  rewrite !length_map, length_seq.
  replace (W + (W + 0) - W - W) with 0 by lia.
  replace (S (W + (W + 0)) - W - W) with 1 by lia.
  replace (S (S (W + (W + 0))) - W - W) with 2 by lia. done.
Qed.

Lemma fofi_length : length stages = 4 + 2 * W.
Proof.
  unfold stages, fofi_stages, fanIn. simpl.
  rewrite !length_app, !length_map, length_seq. simpl. lia.
Qed.

Ltac fofi_cases H :=
  apply fofi_lookup in H as
    [[? ?]|[(? & ? & ? & ?)|[(? & ? & ? & ?)|[[? ?]|[[? ?]|[? ?]]]]]]; simplify_eq.

Lemma fofi_no_repeat st : st ∈ stages -> is_repeat st = false.
Proof. intros [i Hi]%list_elem_of_lookup. by fofi_cases Hi. Qed.

Lemma fofi_wf : wf_net 0 stages (fofi_wg W).
Proof.
  split.
  - intros st d' [i Hi]%list_elem_of_lookup Hd. fofi_cases Hi; simpl in Hd; congruence.
  - apply omap_NoDup_intro. intros i j x y b Hi Hj Hx Hy.
    fofi_cases Hi; fofi_cases Hj; unfold worker_out in *; simpl in *; simplify_eq; lia.
  - intros i st c Hi Hr. fofi_cases Hi; simpl in Hr; simplify_eq.
    + exists 0, (Generator 0 1 integers). split_and!; [lia|apply fofi_at_gen|done].
    + eexists (1 + _), _. split_and!; [|by apply fofi_at_worker|done]. lia.
    + eexists (1 + 2 * W), _. split_and!; [|apply fofi_at_tail|done]. lia.
    + eexists (2 + 2 * W), _. split_and!; [|apply fofi_at_tail|done]. lia.
  - intros i dd c out w Hi. fofi_cases Hi; simplify_eq.
    exists (1 + 2 * W). split; [lia|apply fofi_at_tail].
  - intros j j' w out out' Hj Hj'. fofi_cases Hj; fofi_cases Hj'; simplify_eq; lia.
  - intros w. unfold fofi_wg, fanIn_wg. rewrite length_map, length_seq.
    unfold stages, fofi_stages, fanIn. rewrite filter_cons, decide_False by done.
    rewrite !filter_app, !length_app.
    rewrite (filter_length_none _ (map (fun w => Transform _ _ _ _) _)).
    2:{ intros x (k & -> & _)%list_elem_of_fmap. done. }
    rewrite (filter_length_none _ [Closer 0 2]).
    2:{ intros x Hx. set_unfold. by destruct Hx as [->|[]]. }
    rewrite (filter_length_none _ [Take 0 2 3 num; Main 0 3]).
    2:{ intros x Hx. set_unfold. by destruct Hx as [->|[->|[]]]. }
    destruct (decide (w = 0)) as [->|Hne].
    + rewrite fn_lookup_insert.
      rewrite filter_length_all, !length_map, length_seq; [lia|].
      intros x (c & -> & _)%list_elem_of_fmap. done.
    + rewrite fn_lookup_insert_ne by done. unfold no_wg.
      rewrite filter_length_none; [lia|].
      intros x (c & -> & _)%list_elem_of_fmap. simpl. rewrite bool_decide_eq_true. lia.
Qed.

Lemma fofi_code s i g :
  inv stages s -> procs s !! i = Some g ->
  (i = 0 /\ code g = Generator 0 1 integers) \/
  (exists w, w < W /\ i = 1 + w /\ code g = Transform 0 1 (worker_out w) f) \/
  (exists w, w < W /\ i = 1 + W + w /\ code g = Multiplex 0 (worker_out w) 2 0) \/
  (i = 1 + 2 * W /\ code g = Closer 0 2) \/
  (i = 2 + 2 * W /\ code g = Take 0 2 3 num) \/
  (i = 3 + 2 * W /\ code g = Main 0 3).
Proof. intros Hi Hg. apply fofi_lookup. by eapply code_lookup. Qed.

Ltac fofi_code_cases Hi Hg Hc :=
  let w := fresh "w" in let Hw := fresh "Hw" in let E := fresh "E" in
  destruct (fofi_code _ _ _ Hi Hg) as
    [[E Hc]|[(w & Hw & E & Hc)|[(w & Hw & E & Hc)|[[E Hc]|[[E Hc]|[E Hc]]]]]];
  try (exfalso; lia); try subst.

Lemma fofi_proc s i st :
  inv stages s -> stages !! i = Some st -> exists p, procs s !! i = Some (Go st p).
Proof.
  intros Hi Hst. destruct (stage_lookup _ s i st Hi Hst) as ([c p] & Hg & Hc).
  simpl in Hc. subst. eauto.
Qed.

(** What [main] has printed once it has closed [done]: [num] values, and
    either some of the workers' results, or all of them followed by the [nil]
    values that [take] read from the closed [multiplexedStream]. *)

Definition fofi_ok (out : list value) : Prop :=
  length out = Z.to_nat num /\
  (out ⊆+ omap f integers \/ exists m, out ≡ₚ omap f integers ++ replicate m VNil).

(** [take] counts what [main] has printed. *)

Definition take_len (p : pc) (out : list value) : Prop :=
  match p with
  | AtLoop i => length out = i /\ i <= Z.to_nat num
  | AtSelect i _ => length out = i /\ i < Z.to_nat num
  | AtExit => True
  | Halted => length out = Z.to_nat num
  end.

Definition fofi_inv (s : state) : Prop :=
  (0 ∉ closed s ->
     (exists m, afloat s ≡ₚ omap f (handed integers (ctl_at s 0)) ++ replicate m VNil /\
                (2 ∉ closed s -> m = 0)) /\
     take_len (ctl_at s (2 + 2 * W)) (output s)) /\
  (0 ∈ closed s -> fofi_ok (output s)).

Lemma fofi_inv_boot : fofi_inv (fofi_net integers f W num).
Proof.
  split; [|set_solver]. intros _. split.
  - exists 0. split; [|done]. rewrite afloat_eq, hold_all_nil.
    + done.
    + intros i g Hi. apply (boot_lookup stages (fofi_wg W)) in Hi as [_ ->]. done.
  - destruct (fofi_proc (fofi_net integers f W num) (2 + 2 * W) (Take 0 2 3 num))
      as [p Hp]; [apply (inv_boot 0), fofi_wf|apply fofi_at_tail|].
    rewrite (ctl_at_lookup _ _ _ Hp).
    apply (boot_lookup stages (fofi_wg W)) in Hp as [_ Hp]. simpl in Hp. subst. simpl. lia.
Qed.

(** With [done] open and the merged stream closed, every goroutine upstream of
    [take] has returned, the generator having sent everything. *)

Lemma fofi_drained s :
  0 < W -> inv stages s -> open_inv 0 s -> 0 ∉ closed s -> 2 ∈ closed s ->
  ctl_at s 0 = Halted /\
  forall i g, procs s !! i = Some g -> i < 2 + 2 * W -> ctl g = Halted.
Proof.
  intros HW Hi Ho Hd Hm.
  destruct (fofi_proc s (1 + 2 * W) (Closer 0 2) Hi) as [pcl Hpc]; [apply fofi_at_tail|].
  assert (Hc : pcl = Halted) by (by apply (inv_closed _ _ Hi _ _ 2 Hpc)).
  assert (Hwg : wgs s 0 = 0).
  { eapply (inv_closer _ _ Hi _ _ _ _ Hpc); [done|]. intros k. simpl. by rewrite Hc. }
  assert (Hmux : forall w, w < W -> procs s !! (1 + W + w) =
                                      Some (Go (Multiplex 0 (worker_out w) 2 0) Halted)).
  { intros w Hw. destruct (fofi_proc s (1 + W + w) _ Hi (fofi_at_mux w Hw)) as [p Hp].
    rewrite Hp. do 2 f_equal. destruct (decide (p = Halted)) as [|Hn]; [done|]. exfalso.
    eapply (filter_length_zero (live_mux 0) (procs s)); [|done|].
    - by rewrite <- (inv_wg _ _ Hi).
    - by split. }
  assert (Hwk : forall w, w < W -> procs s !! (1 + w) =
                                     Some (Go (Transform 0 1 (worker_out w) f) Halted)).
  { intros w Hw. destruct (fofi_proc s (1 + w) _ Hi (fofi_at_worker w Hw)) as [p Hp].
    rewrite Hp. do 2 f_equal.
    apply (inv_closed _ _ Hi _ _ (worker_out w) Hp); [done|].
    eapply (open_range _ _ Ho _ _ _ (Hmux w Hw)); eauto. }
  destruct (fofi_proc s 0 _ Hi fofi_at_gen) as [pg Hpg].
  assert (Hg : pg = Halted).
  { apply (inv_closed _ _ Hi _ _ 1 Hpg); [done|].
    eapply (open_range _ _ Ho _ _ _ (Hwk 0 HW)); eauto. }
  split; [by rewrite (ctl_at_lookup _ _ _ Hpg)|].
  intros i g Hgi Hlt. fofi_code_cases Hi Hgi Hcd.
  - rewrite Hpg in Hgi. by injection Hgi as <-.
  - rewrite (Hwk _ Hw) in Hgi. by injection Hgi as <-.
  - rewrite (Hmux _ Hw) in Hgi. by injection Hgi as <-.
  - rewrite Hpc in Hgi. by injection Hgi as <-.
Qed.

(** The shape of a step that keeps the invariant: what is afloat grows by what
    the generator has newly handed over, as the workers transform it, and by
    the [nil] values [take] reads from the closed merged stream. *)

Lemma fofi_frame s s' extra nils :
  fofi_inv s -> closed s ⊆ closed s' ->
  (0 ∈ closed s' -> 0 ∈ closed s /\ output s' = output s) ->
  (0 ∉ closed s' ->
     afloat s' ≡ₚ afloat s ++ extra ++ replicate nils VNil /\
     omap f (handed integers (ctl_at s' 0)) ≡ₚ omap f (handed integers (ctl_at s 0)) ++ extra /\
     (nils <> 0 -> 2 ∈ closed s') /\
     (take_len (ctl_at s (2 + 2 * W)) (output s) ->
      take_len (ctl_at s' (2 + 2 * W)) (output s'))) ->
  fofi_inv s'.
Proof.
  intros [Hopen Hshut] Hsub Hcl Hst. split.
  - intros Hd. destruct (Hst Hd) as (Hfl & Hh & Hn & Hlen).
    destruct Hopen as [(m & HE & Hm) Hl]; [set_solver|]. split; [|auto].
    exists (m + nils). split.
    + rewrite Hfl, HE, Hh, replicate_add. rewrite <- !app_assoc.
      apply Permutation_app_head. rewrite !app_assoc.
      apply Permutation_app_tail, Permutation_app_comm.
    + intros H2. destruct (decide (nils = 0)) as [->|Hne]; [|by destruct (H2 (Hn Hne))].
      rewrite Hm; [lia|set_solver].
  - intros Hd. destruct (Hcl Hd) as [Hd' ->]. auto.
Qed.

Lemma fofi_local s i g p' cl wg t nils :
  fofi_inv s -> procs s !! i = Some g -> closed s ⊆ cl -> (0 ∈ cl -> 0 ∈ closed s) ->
  holding (ctl g) = [] -> holding p' = replicate nils VNil -> (nils <> 0 -> 2 ∈ cl) ->
  (i = 0 -> handed integers p' = handed integers (ctl g)) ->
  (i = 2 + 2 * W -> 0 ∉ closed s -> forall out, take_len (ctl g) out -> take_len p' out) ->
  fofi_inv (State (<[i:=Go (code g) p']> (procs s)) cl wg (output s) t (panicked s)).
Proof.
  intros Hinv Hg Hsub Hd Hh Hh' Hn Hgen Htake.
  apply (fofi_frame s _ [] nils); try done; state_simpl.
  - by intros ?%Hd.
  - intros Hd'. split_and!.
    + pose proof (afloat_set s i g p' cl wg (output s) t (panicked s) Hg) as Hfl.
      by rewrite Hh, Hh', app_nil_r, app_assoc, <- afloat_eq in Hfl.
    + rewrite app_nil_r, ctl_at_set by done. case_decide as Hi0; [|done].
      subst. rewrite Hgen by done. by rewrite (ctl_at_lookup _ _ _ Hg).
    + done.
    + rewrite ctl_at_set by done. case_decide as Hit; [|done].
      subst i. rewrite (ctl_at_lookup _ _ _ Hg). apply Htake; [done|set_solver].
Qed.

Lemma fofi_recv_closed s i g c :
  inv stages s -> fofi_inv s ->
  procs s !! i = Some g -> pending (code g) (ctl g) = ORecv c -> c ∈ closed s ->
  fofi_inv (State (<[i:=Go (code g) (resume (code g) (ctl g) RClosed)]> (procs s))
              (closed s) (wgs s) (output s) (trace s) (panicked s)).
Proof.
  intros Hi Hinv Hg Hop Hcl.
  assert (exists nils, holding (ctl g) = [] /\
            holding (resume (code g) (ctl g) RClosed) = replicate nils VNil /\
            (nils <> 0 -> 2 ∈ closed s) /\ i <> 0 /\
            (i = 2 + 2 * W -> forall out, take_len (ctl g) out ->
               take_len (resume (code g) (ctl g) RClosed) out)) as (nils & ? & ? & ? & ? & ?).
  { fofi_code_cases Hi Hg Hcd; rewrite Hcd in *; destruct (ctl g) as [k|k v| |] eqn:Hp;
      simpl in Hop; try discriminate Hop; simpl.
    - by destruct (integers !! k).
    - exists 0. split_and!; try done; lia.
    - exists 0. split_and!; try done; lia.
    - destruct (Z.ltb_spec (Z.of_nat k) num) as [Hlt|]; [|done]. injection Hop as <-.
      exists 1. split_and!; try done. intros _ out [? ?]. simpl. lia.
    - exists 0. split_and!; try done; lia. }
  apply (fofi_local s i g _ _ _ _ nils); try done. auto.
Qed.

Lemma fofi_done s i g d' c v :
  inv stages s -> fofi_inv s ->
  procs s !! i = Some g -> pending (code g) (ctl g) = OSelect d' c v -> d' ∈ closed s ->
  fofi_inv (State (<[i:=Go (code g) (resume (code g) (ctl g) RDone)]> (procs s))
              (closed s) (wgs s) (output s) (trace s) (panicked s)).
Proof.
  intros Hi [_ Hshut] Hg Hop Hcl.
  assert (d' = 0) as ->.
  { destruct (pending_select _ _ _ _ _ Hop) as (Hd & _).
    eapply (wf_done _ _ _ fofi_wf (code g)); [|done].
    eapply list_elem_of_lookup_2, code_lookup; eauto. }
  split; state_simpl; done.
Qed.

Lemma fofi_wg_moves s i g p' wg :
  inv stages s -> fofi_inv s -> procs s !! i = Some g ->
  (exists w, pending (code g) (ctl g) = OWgDone w /\ p' = Halted) \/
  (exists w, pending (code g) (ctl g) = OWgWait w /\ p' = AtExit) ->
  fofi_inv (State (<[i:=Go (code g) p']> (procs s)) (closed s) wg (output s) (trace s)
              (panicked s)).
Proof.
  intros Hi Hinv Hg Hop.
  assert (holding (ctl g) = [] /\ i <> 0 /\ i <> 2 + 2 * W /\ holding p' = []) as (? & ? & ? & ?).
  { fofi_code_cases Hi Hg Hcd; rewrite Hcd in *; destruct (ctl g) as [k|k v| |] eqn:Hp;
      destruct Hop as [(w' & Hop & ->)|(w' & Hop & ->)]; simpl in Hop;
      repeat case_match; try discriminate Hop; split_and!; try done; lia. }
  apply (fofi_local s _ g p' _ _ _ 0); try done.
Qed.

Lemma fofi_main_close s g :
  0 < W -> inv stages s -> open_inv 0 s -> fofi_inv s ->
  procs s !! (3 + 2 * W) = Some g -> ctl g = AtExit -> 0 ∉ closed s ->
  fofi_ok (output s).
Proof.
  intros HW Hi Ho [Hopen _] Hg Hp Hd.
  destruct (Hopen Hd) as [(m & HE & Hm2) Hlen].
  pose proof (code_lookup _ _ _ _ Hi Hg) as Hcd.
  destruct fofi_at_tail as (_ & Htk & Hmn). rewrite Hmn in Hcd. injection Hcd as Hcd.
  assert (H3 : 3 ∈ closed s).
  { eapply (open_range _ _ Ho _ g); eauto; by rewrite <- Hcd. }
  destruct (fofi_proc s _ _ Hi Htk) as [pt Hpt].
  assert (pt = Halted) as -> by (by apply (inv_closed _ _ Hi _ _ 3 Hpt)).
  rewrite (ctl_at_lookup _ _ _ Hpt) in Hlen. simpl in Hlen. split; [done|].
  destruct (decide (2 ∈ closed s)) as [H2|H2].
  - right. exists m. destruct (fofi_drained s HW Hi Ho Hd H2) as [Hg0 Hall].
    rewrite Hg0 in HE. simpl in HE. rewrite <- HE, afloat_eq, hold_all_nil.
    + by rewrite app_nil_r.
    + intros i gi Hgi. destruct (decide (i < 2 + 2 * W)) as [Hlt|Hge].
      { by rewrite (Hall i gi Hgi Hlt). }
      fofi_code_cases Hi Hgi Hcdi; try lia.
      * assert (Some gi = Some (Go (Take 0 2 3 num) Halted)) as [= ->]
          by (rewrite <- Hgi; exact Hpt). done.
      * assert (Some gi = Some g) as [= ->] by (rewrite <- Hgi; exact Hg). by rewrite Hp.
  - left. rewrite (Hm2 H2) in HE. simpl in HE. rewrite app_nil_r in HE.
    etrans; [|apply (handed_submseteq f integers (ctl_at s 0))].
    rewrite <- HE, afloat_eq. by apply submseteq_inserts_r.
Qed.

Lemma fofi_close s i g c :
  0 < W -> inv stages s -> open_inv 0 s -> fofi_inv s ->
  procs s !! i = Some g -> pending (code g) (ctl g) = OClose c -> c ∉ closed s ->
  fofi_inv (State (<[i:=Go (code g) Halted]> (procs s))
              ({[c]} ∪ closed s) (wgs s) (output s) (trace s) (panicked s)).
Proof.
  intros HW Hi Ho Hinv Hg Hop Hcl.
  destruct (decide (i = 3 + 2 * W)) as [->|Hnm].
  { assert (c = 0 /\ ctl g = AtExit) as [-> Hp].
    { fofi_code_cases Hi Hg Hcd; try lia. rewrite Hcd in Hop.
      destruct (ctl g); simpl in Hop; by simplify_eq. }
    split; state_simpl; [set_solver|]. intros _. by eapply fofi_main_close. }
  assert (c <> 0 /\ holding (ctl g) = [] /\
          (i = 0 -> handed integers Halted = handed integers (ctl g)) /\
          (i = 2 + 2 * W -> 0 ∉ closed s ->
             forall out, take_len (ctl g) out -> take_len Halted out)) as (? & ? & ? & ?).
  { fofi_code_cases Hi Hg Hcd; try lia; rewrite Hcd in *;
      destruct (ctl g) as [k|k v| |] eqn:Hp; simpl in Hop; try discriminate Hop.
    - destruct (integers !! k) eqn:Hk; [done|]. injection Hop as <-.
      split_and!; try done; try lia. intros _. simpl.
      by rewrite take_ge by (by apply lookup_ge_None).
    - injection Hop as <-. split_and!; try done; lia.
    - injection Hop as <-. unfold worker_out. split_and!; try done; lia.
    - injection Hop as <-. split_and!; try done; lia.
    - destruct (Z.ltb_spec (Z.of_nat k) num) as [|Hge]; [done|]. injection Hop as <-.
      split_and!; try done; try lia. intros _ _ out [? ?]. simpl. lia.
    - injection Hop as <-. split_and!; try done; try lia. intros _ Hd.
      exfalso. eapply (open_noexit _ _ Ho _ g); eauto; by rewrite Hcd. }
  apply (fofi_local s i g Halted _ _ _ 0); try done; set_solver.
Qed.

Lemma fofi_comm_facts s i j gi gj d' c v :
  inv stages s -> i <> j -> procs s !! i = Some gi -> procs s !! j = Some gj ->
  pending (code gi) (ctl gi) = OSelect d' c v -> pending (code gj) (ctl gj) = ORecv c ->
  let pi' := resume (code gi) (ctl gi) RSent in
  let pj' := resume (code gj) (ctl gj) (RVal v) in
  let pr := prints (code gj) (ctl gj) (RVal v) in
  let T := 2 + 2 * W in
  holding (ctl gj) = [] /\ holding pi' = [] /\ j <> 0 /\
  (pr <> [] -> ctl gj <> Halted /\ j = 3 + 2 * W) /\
  (forall out, take_len (ctl_at s T) out ->
     take_len (if decide (j = T) then pj' else if decide (i = T) then pi' else ctl_at s T)
       (out ++ pr)) /\
  ((i = 0 /\ holding (ctl gi) = [] /\ pr = [] /\ holding pj' = omap f [v] /\
    exists k, ctl gi = AtLoop k /\ integers !! k = Some v /\ pi' = AtLoop (S k)) \/
   (i <> 0 /\ holding (ctl gi) = [v] /\ pr ++ holding pj' = [v])).
Proof.
  intros Hi Hne Hgi Hgj Hopi Hopj. cbv zeta.
  pose proof (ctl_at_lookup _ _ _ Hgi) as Hci. pose proof (ctl_at_lookup _ _ _ Hgj) as Hcj.
  fofi_code_cases Hi Hgi Hcdi; rewrite Hcdi in *;
    destruct (ctl gi) as [ki|ki vi| |] eqn:Hpi; simpl in Hopi; hyp_cases Hopi;
    fofi_code_cases Hi Hgj Hcdj; rewrite Hcdj in *;
    destruct (ctl gj) as [kj|kj vj| |] eqn:Hpj; simpl in Hopj; hyp_cases Hopj;
    unfold worker_out in *; try lia.
  all: simpl in Hci, Hcj; simpl; split_and!; try done; try lia.
  all: try (right; split_and!; try done; lia).
  all: try (left; split_and!; try done; [by destruct (f v)|by eauto]).
  all: intros out Hl; repeat case_decide; try lia; rewrite ?app_nil_r; try done.
  all: rewrite ?Hci, ?Hcj in Hl; simpl in *; rewrite ?length_app; simpl; try lia.
Qed.

Lemma fofi_comm s i j gi gj d' c v :
  inv stages s -> fofi_inv s -> i <> j ->
  procs s !! i = Some gi -> procs s !! j = Some gj ->
  pending (code gi) (ctl gi) = OSelect d' c v -> pending (code gj) (ctl gj) = ORecv c ->
  fofi_inv (State (<[j:=Go (code gj) (resume (code gj) (ctl gj) (RVal v))]>
                     (<[i:=Go (code gi) (resume (code gi) (ctl gi) RSent)]> (procs s)))
              (closed s) (wgs s) (output s ++ prints (code gj) (ctl gj) (RVal v))
              (trace s ++ [Ev c v i j]) (panicked s)).
Proof.
  intros Hi Hinv Hne Hgi Hgj Hopi Hopj.
  destruct (fofi_comm_facts s i j gi gj d' c v Hi Hne Hgi Hgj Hopi Hopj)
    as (Hhj & Hhi' & Hj0 & Hpr & Htl & Hcase).
  pose proof (afloat_set2 s i j gi gj (resume (code gi) (ctl gi) RSent)
    (resume (code gj) (ctl gj) (RVal v)) (closed s) (wgs s)
    (output s ++ prints (code gj) (ctl gj) (RVal v)) (trace s ++ [Ev c v i j]) (panicked s)
    Hne Hgi Hgj) as Hfl.
  rewrite Hhj, Hhi' in Hfl.
  set (s' := State _ _ _ _ _ _) in *.
  rewrite !app_nil_r in Hfl.
  apply (fofi_frame s s' (if decide (i = 0) then omap f [v] else []) 0); try done;
    subst s'; state_simpl.
  - intros Hd. split; [done|].
    destruct (prints (code gj) (ctl gj) (RVal v)) eqn:Hp; [by rewrite app_nil_r|].
    destruct Hpr as [Hn ->]; [done|]. exfalso. apply Hn.
    apply (inv_closed _ _ Hi _ _ 0 Hgj); [|done].
    pose proof (code_lookup _ _ _ _ Hi Hgj) as Hcd.
    destruct fofi_at_tail as (_ & _ & Hmn). rewrite Hmn in Hcd. by injection Hcd as <-.
  - intros Hd. set (s' := State _ _ _ _ _ _) in *. split_and!.
    + simpl. rewrite app_nil_r.
      destruct Hcase as [(-> & Hh & Hp & Hpj & _)|(Hi0 & Hh & Hp)].
      * rewrite decide_True by done. rewrite Hh, Hp, Hpj, !app_nil_r in Hfl.
        by rewrite Hfl, afloat_eq, <- app_assoc.
      * rewrite decide_False, app_nil_r by done. rewrite Hh in Hfl.
        apply (inj (.++ [v])). rewrite Hfl, afloat_eq, <- !app_assoc.
        apply Permutation_app_head. simpl. rewrite <- Hp.
        rewrite (Permutation_app_comm (prints _ _ _)), <- app_assoc.
        apply Permutation_app_head, Permutation_app_comm.
    + subst s'. rewrite ctl_at_set2 by done. rewrite decide_False by done.
      destruct Hcase as [(-> & _ & _ & _ & k & Hk & Hv & Hr)|(Hi0 & _)].
      * rewrite !decide_True by done. rewrite Hr, (ctl_at_lookup _ _ _ Hgi), Hk. simpl.
        by rewrite (take_S_r _ _ _ Hv), omap_app.
      * rewrite !decide_False by done. by rewrite app_nil_r.
    + done.
    + subst s'. rewrite ctl_at_set2 by done. apply Htl.
Qed.

Lemma fofi_inv_moves s s' :
  0 < W -> inv stages s -> open_inv 0 s -> fofi_inv s -> moves s s' -> fofi_inv s'.
Proof.
  intros HW Hi Ho Hinv Hm.
  destruct Hm as [i g c Hg Hop Hcl|i g d' c v Hg Hop Hcl|i g c Hg Hop Hcl
    |i g w n Hg Hop Hw|i g w Hg Hop Hw|i j gi gj d' c v Hne Hgi Hgj Hopi Hopj Hcl];
    unfold op_of in *.
  - by eapply fofi_recv_closed.
  - by eapply fofi_done.
  - by eapply fofi_close.
  - eapply fofi_wg_moves; eauto.
  - eapply fofi_wg_moves; eauto.
  - by eapply fofi_comm.
Qed.

(** *** Who receives what on the shared input *)

Lemma fofi_comm_chan s i j gi gj d' c v :
  inv stages s -> procs s !! i = Some gi -> procs s !! j = Some gj ->
  pending (code gi) (ctl gi) = OSelect d' c v -> pending (code gj) (ctl gj) = ORecv c ->
  (c = 1 <-> i = 0) /\
  (c = 1 -> 1 <= j <= W /\ exists k, ctl gi = AtLoop k /\ integers !! k = Some v).
Proof.
  intros Hi Hgi Hgj Hopi Hopj.
  fofi_code_cases Hi Hgi Hcdi; rewrite Hcdi in *;
    destruct (ctl gi) as [ki|ki vi| |] eqn:Hpi; simpl in Hopi; hyp_cases Hopi;
    fofi_code_cases Hi Hgj Hcdj; rewrite Hcdj in *;
    destruct (ctl gj) as [kj|kj vj| |] eqn:Hpj; simpl in Hopj; hyp_cases Hopj;
    unfold worker_out in *; try lia.
  all: split; [split; intros; lia|]; intros; try lia.
  split; [lia|eauto].
Qed.

Definition fofi_tr (s : state) : Prop :=
  (exists k, delivered 1 (trace s) = take k integers /\
     (forall k', ctl_at s 0 = AtLoop k' -> k' = k) /\
     (0 ∉ closed s -> ctl_at s 0 = Halted -> length integers <= k)) /\
  (forall e, e ∈ trace s -> ev_chan e = 1 -> ev_from e = 0 /\ 1 <= ev_to e <= W).

Lemma delivered_snoc c tr e :
  delivered c (tr ++ [e]) = delivered c tr ++ (if decide (ev_chan e = c) then [ev_val e] else []).
Proof.
  unfold delivered. rewrite filter_app, map_app. f_equal.
  rewrite filter_cons, filter_nil. by case_decide.
Qed.

Lemma fofi_tr_boot : fofi_tr (fofi_net integers f W num).
Proof.
  split; [|by intros e ?%elem_of_nil]. exists 0. split_and!; [done| |].
  - destruct (fofi_proc (fofi_net integers f W num) 0 _
                (inv_boot 0 _ _ fofi_wf) fofi_at_gen) as [p Hp].
    rewrite (ctl_at_lookup _ _ _ Hp).
    apply (boot_lookup stages (fofi_wg W)) in Hp as [_ Hp]. simpl in *.
    intros k' Hk. rewrite Hp in Hk. by injection Hk.
  - destruct (fofi_proc (fofi_net integers f W num) 0 _
                (inv_boot 0 _ _ fofi_wf) fofi_at_gen) as [p Hp].
    rewrite (ctl_at_lookup _ _ _ Hp).
    apply (boot_lookup stages (fofi_wg W)) in Hp as [_ Hp]. simpl in *. by rewrite Hp.
Qed.

(** A step of a single goroutine leaves the trace alone. *)

Lemma fofi_tr_local s i g p' cl wg o :
  inv stages s -> open_inv 0 s -> fofi_tr s -> procs s !! i = Some g -> closed s ⊆ cl ->
  (i = 0 -> (forall k, p' <> AtLoop k) /\
            (p' = Halted -> ctl g = Halted \/ ctl g = AtExit \/
                            exists k, ctl g = AtLoop k /\ integers !! k = None)) ->
  fofi_tr (State (<[i:=Go (code g) p']> (procs s)) cl wg o (trace s) (panicked s)).
Proof.
  intros Hi Ho [(k & Hdel & Hk & Hfull) Hto] Hg Hsub Hgen. split; [|done]. state_simpl.
  exists k. split; [done|]. rewrite ctl_at_set by done. case_decide as Hi0.
  - subst i. destruct (Hgen eq_refl) as [Hnl Hh]. split; [by intros k' ?%Hnl|].
    intros Hd Hp. rewrite (ctl_at_lookup _ _ _ Hg) in Hk, Hfull.
    destruct (Hh Hp) as [Hc|[Hc|(k' & Hc & Hnone)]].
    + apply Hfull; [set_solver|done].
    + exfalso. pose proof (code_lookup _ _ _ _ Hi Hg) as Hcd.
      rewrite fofi_at_gen in Hcd. injection Hcd as Hcd.
      apply (open_noexit _ _ Ho 0 g Hg); [by rewrite <- Hcd|by rewrite <- Hcd|set_solver|done].
    + rewrite <- (Hk k' Hc). by apply lookup_ge_None.
  - fold (ctl_at s 0). split; [done|]. intros Hd. apply Hfull. set_solver.
Qed.

Lemma fofi_tr_moves s s' :
  inv stages s -> open_inv 0 s -> fofi_tr s -> moves s s' -> fofi_tr s'.
Proof.
  intros Hi Ho Htr Hm.
  destruct Hm as [i g c Hg Hop Hcl|i g d' c v Hg Hop Hcl|i g c Hg Hop Hcl
    |i g w n Hg Hop Hw|i g w Hg Hop Hw|i j gi gj d' c v Hne Hgi Hgj Hopi Hopj Hcl];
    unfold op_of in *.
  - apply fofi_tr_local; try done. intros ->. exfalso.
    pose proof (code_lookup _ _ _ _ Hi Hg) as Hcd. rewrite fofi_at_gen in Hcd.
    injection Hcd as Hcd. rewrite <- Hcd in Hop. destruct (ctl g); simpl in Hop; hyp_cases Hop.
  - apply fofi_tr_local; try done. intros _.
    destruct (pending_select _ _ _ _ _ Hop) as (_ & _ & -> & _). done.
  - apply fofi_tr_local; try done; [set_solver|]. intros ->. split; [done|]. intros _.
    pose proof (code_lookup _ _ _ _ Hi Hg) as Hcd. rewrite fofi_at_gen in Hcd.
    injection Hcd as Hcd. rewrite <- Hcd in Hop.
    destruct (ctl g) as [k| | |]; simpl in Hop; hyp_cases Hop; eauto.
  - apply fofi_tr_local; try done. intros ->. exfalso.
    destruct (pending_wgdone _ _ _ Hop) as (_ & dd & inp & out & Hc).
    pose proof (code_lookup _ _ _ _ Hi Hg) as Hcd. rewrite fofi_at_gen, Hc in Hcd. done.
  - apply fofi_tr_local; done.
  - destruct (fofi_comm_chan s i j gi gj d' c v Hi Hgi Hgj Hopi Hopj) as [Hc1 Hc2].
    destruct (fofi_comm_facts s i j gi gj d' c v Hi Hne Hgi Hgj Hopi Hopj)
      as (_ & _ & Hj0 & _ & _ & Hcase).
    destruct Htr as [(k & Hdel & Hk & Hfull) Hto]. split; state_simpl.
    + rewrite delivered_snoc. simpl. rewrite ctl_at_set2 by done.
      destruct (decide (j = 0)) as [?|_]; [done|].
      destruct (decide (c = 1)) as [->|Hc].
      * destruct (Hc2 eq_refl) as (_ & ki & Hki & Hv).
        assert (i = 0) as -> by (by apply Hc1).
        rewrite decide_True by done. rewrite (ctl_at_lookup _ _ _ Hgi) in Hk.
        rewrite <- (Hk ki Hki) in *.
        destruct Hcase as [(_ & _ & _ & _ & k2 & Hk2 & _ & ->)|[? _]]; [|done].
        assert (k2 = ki) as -> by congruence.
        exists (S ki). split_and!; [by rewrite Hdel, (take_S_r _ _ _ Hv)|by intros k' [= <-]|done].
      * assert (i <> 0) by (intros ->; by apply Hc, Hc1).
        destruct (decide (i = 0)) as [?|_]; [done|].
        fold (ctl_at s 0). rewrite app_nil_r. eauto.
    + intros e [He|He]%elem_of_app; [by apply Hto|].
      apply list_elem_of_singleton in He as ->.
      simpl. intros ->. destruct (Hc2 eq_refl) as (? & _). split; [by apply Hc1|done].
Qed.

Lemma sum_list_imap_const {A} (g : nat -> A -> nat) (l : list A) c :
  (forall i x, l !! i = Some x -> g i x = c) -> sum_list (imap g l) = c * length l.
Proof.
  revert g. induction l as [|a l IH]; intros g Hg; simpl; [lia|].
  rewrite (Hg 0 a eq_refl), (IH (g ∘ S)); [lia|].
  intros i x Hi. by apply (Hg (S i)).
Qed.

Lemma fofi_potential :
  potential (fofi_net integers f W num) =
  (8 + 4 * W) * length integers + 4 * Z.to_nat num + 6 * W + 12.
Proof.
  unfold potential. assert (Hlen : length (procs (fofi_net integers f W num)) = 4 + 2 * W).
  { unfold fofi_net, boot; simpl. rewrite length_map. apply fofi_length. }
  rewrite Hlen. unfold fofi_net, boot, fofi_stages, fanIn. cbn [procs].
  rewrite map_cons, imap_cons. cbn [sum_list sum_list_with].
  rewrite !map_app, !imap_app, !sum_list_with_app, !length_map, !length_app, !length_map,
    !length_seq.
  rewrite (sum_list_imap_const _ (map _ (map _ (seq 0 W))) 3).
  2:{ intros i x Hi. rewrite !list_lookup_fmap in Hi.
      destruct (seq 0 W !! i); simplify_eq/=. done. }
  rewrite (sum_list_imap_const _ (map _ (map _ (map _ (seq 0 W)))) 3).
  2:{ intros i x Hi. rewrite !list_lookup_fmap in Hi.
      destruct (seq 0 W !! i); simplify_eq/=. done. }
  rewrite !length_map, length_seq. simpl.
  unfold potential_at, held; simpl.
  replace (num - 0)%Z with num by lia.
  replace (4 + 2 * W - S (W + (W + 1 + 0))) with 2 by lia. lia.
Qed.

Lemma fofi_run sched s :
  0 < W -> run sched (fofi_net integers f W num) = Some s ->
  inv stages s /\ open_inv 0 s /\ fofi_inv s /\ fofi_tr s.
Proof.
  intros HW.
  assert (Hgen : forall sched s0 s,
            inv stages s0 /\ open_inv 0 s0 /\ fofi_inv s0 /\ fofi_tr s0 ->
            run sched s0 = Some s ->
            inv stages s /\ open_inv 0 s /\ fofi_inv s /\ fofi_tr s).
  { clear sched s. induction sched as [|ch sched IH]; intros s0 s (Hi & Ho & Hf & Ht); simpl.
    - by intros [= <-].
    - destruct (exec1 ch s0) as [s1|] eqn:He; [simpl|done].
      pose proof (exec1_moves 0 _ _ fofi_wf _ _ _ Hi He) as Hm.
      apply IH. split_and!.
      + by eapply inv_moves; eauto using fofi_wf.
      + by eapply open_inv_moves; eauto using fofi_wf.
      + by eapply fofi_inv_moves.
      + by eapply fofi_tr_moves. }
  apply Hgen. split_and!.
  - apply (inv_boot 0), fofi_wf.
  - apply open_inv_boot.
  - apply fofi_inv_boot.
  - apply fofi_tr_boot.
Qed.

(** Every run of the fan-out, fan-in program is finite and cannot get stuck
    before all goroutines have returned; when they have, [main] has printed
    [num] values drawn from the workers' results. On the way the shared input
    has handed each integer to one worker, in the order of the integers. *)

Lemma fofi_correct sched s :
  0 < W -> run sched (fofi_net integers f W num) = Some s ->
  length sched <= (8 + 4 * W) * length integers + 4 * Z.to_nat num + 6 * W + 12 /\
  (~ halted s -> exists ch s', exec1 ch s = Some s') /\
  (halted s -> fofi_ok (output s)) /\
  fofi_tr s.
Proof.
  intros HW Hr. destruct (fofi_run _ _ HW Hr) as (Hi & Ho & [_ Hshut] & Ht). split_and!.
  - rewrite <- fofi_potential.
    pose proof (run_potential 0 stages (fofi_wg W) fofi_wf sched
                  (fofi_net integers f W num) s (inv_boot 0 _ _ fofi_wf) fofi_no_repeat Hr).
    lia.
  - intros Hn. destruct fofi_at_tail as (_ & _ & Hm).
    eapply (progress 0 stages (fofi_wg W) fofi_wf s _ 3); eauto.
  - intros Hh. apply Hshut. destruct fofi_at_tail as (_ & _ & Hm).
    destruct (fofi_proc s _ _ Hi Hm) as [p Hp].
    apply (inv_closed _ _ Hi _ _ 0 Hp); [done|].
    unfold halted in Hh. rewrite Forall_lookup in Hh. apply (Hh _ _ Hp).
  - done.
Qed.

End fofi.
(** * The pipelines of the notes *)

Lemma omap_on_int (g : Z -> Z) (l : list Z) :
  omap (on_int (fun i => Some (g i))) (ints l) = ints (map g l).
Proof. unfold ints. induction l as [|i l IH]; [done|]. simpl. f_equal. exact IH. Qed.

(** Reading a component of the state a schedule leads to. *)

Lemma run_observe {A} (f : state -> A) sched s0 s v :
  run sched s0 = Some s -> option_map f (run sched s0) = Some v -> f s = v.
Proof. intros ->. simpl. congruence. Qed.

Lemma run_defined {A} (f : state -> A) sched s0 v :
  option_map f (run sched s0) = Some v -> exists s, run sched s0 = Some s.
Proof. destruct (run sched s0) as [s|]; [eauto|done]. Qed.

Lemma run_app sched1 sched2 s0 :
  run (sched1 ++ sched2) s0 = s ← run sched1 s0; run sched2 s.
Proof.
  revert s0. induction sched1 as [|ch l IH]; intros s0; simpl; [done|].
  destruct (exec1 ch s0) as [s1|]; simpl; [apply IH|done].
Qed.

Lemma halted_replicate s n : map ctl (procs s) = replicate n Halted -> halted s.
Proof.
  unfold halted. revert n. induction (procs s) as [|g l IH]; intros [|n] H; simplify_eq/=.
  - constructor.
  - constructor; [done|]. eauto.
Qed.

Ltac observe f v :=
  lazymatch goal with
  | Hrun : run ?sc ?n = Some ?s |- _ =>
      let H := fresh "Hobs" in
      assert (H : f s = v) by (apply (run_observe f sc n s v Hrun); vm_compute; reflexivity);
      cbv beta in H
  end.

Ltac run_of sc n s Hrun :=
  destruct (run_defined panicked sc n false) as [s Hrun]; [vm_compute; reflexivity|].

Ltac run_to s Hrun :=
  lazymatch goal with
  | |- context [run ?sc ?n = Some _] => run_of sc n s Hrun
  end.

(** C5. A generator over a finite sequence followed by one transform stage
    with a pure function: every run ends after a bounded number of steps,
    it cannot get stuck before all goroutines have returned, and what has
    been printed then is the transformed inputs, in the order and in the
    number of the inputs. *)

Theorem generator_transform_order (g : Z -> Z) (l : list Z) sched s :
  run sched (chain_net (ints l) (on_int (fun i => Some (g i)))) = Some s ->
  length sched <= 6 * length l + 9 /\
  (~ halted s -> exists ch s', exec1 ch s = Some s') /\
  (halted s -> output s = ints (map g l) /\ length (output s) = length l).
Proof.
  intros Hrun.
  destruct (chain_correct _ _ _ _ Hrun) as (Hlen & Hlive & Hout).
  unfold ints in Hlen. rewrite length_map in Hlen.
  split; [done|]. split; [done|].
  intros Hh. rewrite (Hout Hh), omap_on_int. split; [done|].
  unfold ints. by rewrite !length_map.
Qed.

(** [generator(done, 1, 2, 3, 4)] and the doubling stage print 2, 4, 6, 8. *)

Lemma generator_transform_order_double :
  exists s, run double_sched double_net = Some s /\ halted s /\
    output s = ints [2; 4; 6; 8]%Z.
Proof.
  run_to s Hrun. exists s. split; [done|].
  observe (fun s => map ctl (procs s)) (replicate 3 Halted).
  pose proof (halted_replicate s 3 Hobs) as Hh.
  split; [done|].
  exact (proj1 (proj2 (proj2
    (generator_transform_order (fun i => wrap_int (i * 2)) [1; 2; 3; 4]%Z double_sched s Hrun)) Hh)).
Defined.

(** C2. [take] over a finite stream, in every run: the run is bounded and
    cannot get stuck, and once all goroutines have returned, [num] values
    have been printed whenever the stream held that many, the first [num]
    values of the stream. A stream that holds fewer is not cut short at
    its end: every value missing is made up by the [nil] of a receive from
    the closed stream, and [num] values are printed all the same. *)

Theorem take_pads_short_stream values num sched s :
  run sched (take_net values num) = Some s ->
  length sched <= 6 * length values + 4 * Z.to_nat num + 9 /\
  (~ halted s -> exists ch s', exec1 ch s = Some s') /\
  (halted s ->
   length (output s) = Z.to_nat num /\
   (Z.to_nat num <= length values -> output s = take (Z.to_nat num) values) /\
   (length values < Z.to_nat num ->
    output s = values ++ replicate (Z.to_nat num - length values) VNil)).
Proof.
  intros Hrun.
  destruct (take_correct _ _ _ _ Hrun) as (Hlen & Hlive & Hout).
  split; [done|]. split; [done|].
  intros Hh. rewrite (Hout Hh). split; [|split].
  - rewrite length_app, length_take, length_replicate. lia.
  - intros Hle. replace (Z.to_nat num - length values) with 0 by lia.
    simpl. by rewrite app_nil_r.
  - intros Hlt. by rewrite take_ge by lia.
Qed.

(** [take(done, valueStream, 3)] over the stream that carries 7 alone prints
    7 and two [nil]s. *)

Lemma take_pads_short_stream_seven :
  exists s, run short_sched short_net = Some s /\ halted s /\
    output s = [VInt 7; VNil; VNil].
Proof.
  run_to s Hrun. exists s. split; [done|].
  observe (fun s => map ctl (procs s)) (replicate 3 Halted).
  pose proof (halted_replicate s 3 Hobs) as Hh.
  split; [done|].
  refine (proj2 (proj2 (proj2 (proj2
    (take_pads_short_stream [VInt 7] 3 short_sched s Hrun)) Hh)) _).
  simpl. lia.
Defined.

(** C7. A stream closed before it carried any value: [take] receives from
    it all the same, and hands what the receive yields, [nil], on to its
    reader, once for every value it was asked for. *)

Theorem take_forwards_closed_read num sched s :
  (0 < num)%Z ->
  run sched (take_net [] num) = Some s ->
  halted s ->
  output s = replicate (Z.to_nat num) VNil /\ output s <> [].
Proof.
  intros Hnum Hrun Hh.
  destruct (take_correct _ _ _ _ Hrun) as (_ & _ & Hout).
  rewrite (Hout Hh), take_nil. simpl. rewrite Nat.sub_0_r. split; [done|].
  destruct (Z.to_nat num) as [|n] eqn:Hn; [lia|done].
Qed.

(** The generator closes the stream, nothing is ever handed over on it
    (channel 1), and [take] hands a [nil] to [main] (on channel 2), which
    prints it. *)

Lemma take_forwards_closed_read_once :
  exists s, run closed_sched closed_net = Some s /\ halted s /\
    1 ∈ closed s /\ delivered 1 (trace s) = [] /\
    delivered 2 (trace s) = [VNil] /\ output s = [VNil].
Proof.
  run_to s Hrun. exists s. split; [done|].
  observe (fun s => map ctl (procs s)) (replicate 3 Halted).
  pose proof (halted_replicate s 3 Hobs) as Hh.
  observe (fun s => bool_decide (1 ∈ closed s)) true.
  observe (fun s => delivered 1 (trace s)) (@nil value).
  observe (fun s => delivered 2 (trace s)) [VNil].
  split; [done|]. split; [exact (proj1 (bool_decide_eq_true _) Hobs0)|]. split; [done|]. split; [done|].
  exact (proj1 (take_forwards_closed_read 1 closed_sched s eq_refl Hrun Hh)).
Defined.

(** C1. [primeFinder] tests the predecessor of its input: for an input
    [n] from 3 on it emits a value exactly when [n - 1] is prime, and the
    value it emits is [n - 1]. Three finders over 2, 3, ..., 11 followed by
    [fanIn] and [take(done, _, 5)]: every run is bounded and cannot get
    stuck, and once all goroutines have returned five values have been
    printed, the primes 2, 3, 5, 7 among them; they are 1, 2, 3, 5, 7 in
    some order. *)

Theorem primeFinder_tests_predecessor n sched s :
  (3 <= n <= max_int)%Z ->
  run sched prime_net = Some s ->
  (primeFinder_item n = Some (n - 1)%Z <-> prime (n - 1)) /\
  (primeFinder_item n = None <-> ~ prime (n - 1)) /\
  (forall v, primeFinder_item n = Some v -> v = (n - 1)%Z) /\
  length sched <= 250 /\
  (~ halted s -> exists ch s', exec1 ch s = Some s') /\
  (halted s ->
   length (output s) = 5 /\ ints [2; 3; 5; 7]%Z ⊆+ output s /\
   output s ≡ₚ ints [1; 2; 3; 5; 7]%Z).
Proof.
  intros Hn Hrun.
  assert (Hn' : (min_int + 2 <= n <= max_int)%Z) by (unfold min_int in *; lia).
  assert (Hiff : primeFinder_item n = Some (n - 1)%Z <-> prime (n - 1)).
  { rewrite primeFinder_item_prime by done. split; [intros [?|?]; [lia|done]|auto]. }
  split; [done|]. split; [|split].
  { destruct (primeFinder_item n) as [v|] eqn:Hv.
    - rewrite (primeFinder_item_value n v Hn' Hv) in Hiff.
      split; [done|]. intros Hp. by destruct Hp; apply Hiff.
    - split; [|done]. intros _ Hp. by apply Hiff in Hp. }
  { intros v. by apply primeFinder_item_value. }
  destruct (fofi_correct _ _ 3 5 sched s ltac:(lia) Hrun) as (Hlen & Hlive & Hout & _).
  split; [exact Hlen|]. split; [done|].
  intros Hh. destruct (Hout Hh) as [Hfive Hsub].
  change (omap (on_int primeFinder_item) (ints [2; 3; 4; 5; 6; 7; 8; 9; 10; 11]%Z))
    with (ints [1; 2; 3; 5; 7]%Z) in Hsub.
  assert (Hperm : output s ≡ₚ ints [1; 2; 3; 5; 7]%Z).
  { destruct Hsub as [Hsub|[m Hperm]].
    - apply submseteq_length_Permutation; [done|]. rewrite Hfive. simpl. lia.
    - assert (m = 0) as ->.
      { apply Permutation_length in Hperm.
        rewrite Hfive, length_app, length_replicate in Hperm. simpl in Hperm. lia. }
      by rewrite app_nil_r in Hperm. }
  split; [exact Hfive|]. split; [|done].
  rewrite Hperm. apply submseteq_cons. done.
Qed.

(** The input 3 passes, as 2 is prime; in the run where the first finder
    takes every value, 1, 2, 3, 5, 7 are printed in this order. *)

Lemma primeFinder_tests_predecessor_run :
  primeFinder_item 3 = Some 2%Z /\
  exists s, run prime_sched prime_net = Some s /\ halted s /\
    output s ≡ₚ ints [1; 2; 3; 5; 7]%Z.
Proof.
  run_to s Hrun.
  observe (fun s => map ctl (procs s)) (replicate 10 Halted).
  pose proof (halted_replicate s 10 Hobs) as Hh.
  assert (Hn : (3 <= 3 <= max_int)%Z) by (vm_compute; split; discriminate).
  pose proof (primeFinder_tests_predecessor 3 prime_sched s Hn Hrun)
    as (_ & _ & Hv & _ & _ & Hout).
  split; [|exists s; split; [done|]; split; [done|]; by apply Hout].
  destruct (primeFinder_item 3) as [v|] eqn:Hv3; [|by vm_compute in Hv3].
  by rewrite (Hv v eq_refl).
Defined.

(** The input 4 is not prime and passes, leaving as 3; the prime 5 does not
    pass; and the run above prints 1, which is none of 2, 3, 5, 7, 11. *)

Lemma primeFinder_emits_for_composite :
  (primeFinder_item 4 = Some 3%Z /\ ~ prime 4) /\
  (prime 5 /\ primeFinder_item 5 = None) /\
  exists s, run prime_sched prime_net = Some s /\ halted s /\
    output s = ints [1; 2; 3; 5; 7]%Z /\ VInt 1 ∉ ints [2; 3; 5; 7; 11]%Z.
Proof.
  split; [|split].
  - split; [reflexivity|]. intros Hp%prime_alt. destruct Hp as [_ Hp].
    apply (Hp 2%Z); [lia|]. by exists 2%Z.
  - split; [|reflexivity]. apply prime_alt. split; [lia|].
    intros k Hk [q Hq].
    assert (k = 2 \/ k = 3 \/ k = 4)%Z as [-> | [-> | ->]] by lia; lia.
  - run_to s Hrun. exists s. split; [done|].
    observe (fun s => map ctl (procs s)) (replicate 10 Halted).
    observe output (ints [1; 2; 3; 5; 7]%Z).
    split; [exact (halted_replicate s 10 Hobs)|]. split; [done|].
    clear. unfold ints. simpl. rewrite !elem_of_cons, elem_of_nil. naive_solver.
Qed.

(** C8. [W] workers reading the one stream of the generator: the values
    handed over on it are a prefix of the input, each handed over once, in
    the order of the input, by the generator to one worker; they are all
    of the input when the generator has returned before [done] was closed.
    Which worker takes a value, and whose result travels on first, is up to
    the schedule: two finders over 3 and 4 print 2, 3 in one run and 3, 2
    in another. *)

Theorem fan_out_delivers_once integers f W num sched s :
  0 < W ->
  run sched (fofi_net integers f W num) = Some s ->
  (exists k, delivered 1 (trace s) = take k integers /\
     (0 ∉ closed s -> ctl_at s 0 = Halted -> delivered 1 (trace s) = integers)) /\
  (forall e, e ∈ trace s -> ev_chan e = 1 -> ev_from e = 0 /\ 1 <= ev_to e <= W) /\
  (exists s1 s2, run pair_sched_a pair_net = Some s1 /\ run pair_sched_b pair_net = Some s2 /\
     output s1 = ints [2; 3]%Z /\ output s2 = ints [3; 2]%Z).
Proof.
  intros HW Hrun.
  destruct (fofi_correct _ _ _ _ sched s HW Hrun) as (_ & _ & _ & [(k & Hk & _ & Hall) Hev]).
  split; [|split].
  - exists k. split; [done|]. intros Hopen Hret.
    rewrite Hk. apply take_ge. auto.
  - exact Hev.
  - run_of pair_sched_a pair_net s1 Hrun1. run_of pair_sched_b pair_net s2 Hrun2.
    exists s1, s2.
    split; [done|]. split; [done|]. split.
    + clear Hrun2 Hrun. by observe output (ints [2; 3]%Z).
    + clear Hrun1 Hrun. by observe output (ints [3; 2]%Z).
Qed.

(** The two finders take one value each. *)

Lemma fan_out_delivers_once_pair :
  exists s, run pair_sched_a pair_net = Some s /\
    delivered 1 (trace s) = ints [3; 4]%Z /\
    (forall e, e ∈ trace s -> ev_chan e = 1 -> ev_from e = 0 /\ 1 <= ev_to e <= 2) /\
    map ev_to (filter (fun e => ev_chan e = 1) (trace s)) = [1; 2].
Proof.
  run_to s Hrun. exists s. split; [done|].
  observe (fun s => delivered 1 (trace s)) (ints [3; 4]%Z).
  observe (fun s => map ev_to (filter (fun e => ev_chan e = 1) (trace s))) [1; 2].
  split; [done|]. split; [|done].
  exact (proj1 (proj2
    (fan_out_delivers_once (ints [3; 4]%Z) (on_int primeFinder_item) 2 2 pair_sched_a s
       (Nat.lt_0_succ 1) Hrun))).
Defined.

(** * Well-formed pipelines in general *)

Section pipelines.
Context (d : chan) (stages : list stage) (wg0 : wgid -> nat).
Hypothesis Hwf : wf_net d stages wg0.

Lemma run_closed sched s s' :
  inv stages s -> run sched s = Some s' -> closed s ⊆ closed s'.
Proof.
  revert s. induction sched as [|ch sched IH]; intros s Hi; simpl.
  - by intros [= <-].
  - destruct (exec1 ch s) as [s1|] eqn:He; [simpl|done]. intros Hr.
    pose proof (exec1_moves _ _ _ Hwf _ _ _ Hi He) as Hm.
    etrans; [exact (moves_closed _ _ Hm)|].
    apply IH; [|done]. by eapply inv_exec1.
Qed.

Lemma reach_inv sched s :
  run sched (boot stages wg0) = Some s -> inv stages s /\ open_inv d s.
Proof.
  assert (Hgen : forall sched s0 s, inv stages s0 /\ open_inv d s0 ->
            run sched s0 = Some s -> inv stages s /\ open_inv d s).
  { clear sched s. induction sched as [|ch sched IH]; intros s0 s [Hi Ho]; simpl.
    - by intros [= <-].
    - destruct (exec1 ch s0) as [s1|] eqn:He; [simpl|done].
      pose proof (exec1_moves _ _ _ Hwf _ _ _ Hi He) as Hm.
      apply IH. split.
      + by eapply inv_exec1.
      + by eapply open_inv_moves. }
  apply Hgen. split; [by eapply inv_boot|apply open_inv_boot].
Qed.

Lemma inv_length s : inv stages s -> length (procs s) = length stages.
Proof. intros Hi. by rewrite <- (inv_code _ _ Hi), length_map. Qed.

Lemma done_shared s i g d' c v :
  inv stages s -> procs s !! i = Some g -> op_of g = OSelect d' c v -> d' = d.
Proof.
  intros Hi Hg Hop. apply pending_select in Hop as (Hd & _).
  eapply (wf_done _ _ _ Hwf); [|exact Hd].
  eapply list_elem_of_lookup_2, code_lookup; eauto.
Qed.

Lemma select_done s i g d' c v :
  inv stages s -> d ∈ closed s -> procs s !! i = Some g -> op_of g = OSelect d' c v ->
  local i s = Some (advance i g RDone s).
Proof.
  intros Hi Hd Hg Hop. assert (d' = d) as -> by eauto using done_shared.
  unfold local. rewrite Hg. simpl. rewrite Hop. by rewrite decide_True.
Qed.

Lemma no_second_close s i g c :
  inv stages s -> c ∈ closed s -> procs s !! i = Some g -> op_of g <> OClose c.
Proof.
  intros Hi Hc Hg Hop. apply pending_close in Hop as (Hcl & _ & Hp).
  apply Hp. by apply (inv_closed _ _ Hi i g c).
Qed.

Lemma halted_dec s : Decision (halted s).
Proof. unfold halted. apply _. Defined.

Lemma cancel_quiet s :
  inv stages s -> d ∈ closed s -> (forall i, local i s = None) -> halted s.
Proof.
  intros Hi Hd Hq. destruct (halted_dec s) as [|Hn]; [done|].
  destruct (cancel_progress _ _ _ Hwf s Hi Hd Hn) as [i [s' Hs']].
  rewrite Hq in Hs'. done.
Qed.

End pipelines.

(** C3. A well-formed pipeline after [done] has been closed. No goroutine
    ever stands at a bare send, and every [select] watches [done] and can
    take that branch. The receives of the [range] loops and of [take] do
    not watch [done]; still, as long as some goroutine has not returned,
    some goroutine can move on its own. A run of such moves has at most
    three steps for each goroutine, and when none is left all goroutines
    have returned. With finite generators every run at all is bounded. *)

Theorem cancellation_drains d stages wg0 sched s :
  wf_net d stages wg0 ->
  run sched (boot stages wg0) = Some s ->
  d ∈ closed s ->
  (forall i g c v, procs s !! i = Some g -> op_of g <> OSend c v) /\
  (forall i g d' c v, procs s !! i = Some g -> op_of g = OSelect d' c v ->
     d' = d /\ is_Some (local i s)) /\
  (~ halted s -> exists i, is_Some (local i s)) /\
  (forall ls s', run (map Local ls) s = Some s' ->
     length ls <= 3 * length stages /\
     ((forall i, local i s' = None) -> halted s')) /\
  ((forall st, st ∈ stages -> is_repeat st = false) ->
   forall sched' s', run sched' s = Some s' -> length sched' <= potential s).
Proof.
  intros Hwf Hrun Hd.
  destruct (reach_inv _ _ _ Hwf _ _ Hrun) as [Hi _].
  split; [|split; [|split; [|split]]].
  - intros i g c v _. apply pending_never_send.
  - intros i g d' c v Hg Hop. split; [by eapply done_shared|].
    erewrite select_done; eauto.
  - by apply (cancel_progress _ _ _ Hwf).
  - intros ls s' Hls. split.
    + pose proof (local_run_rank _ _ _ Hwf _ _ _ Hi Hls) as Hr.
      pose proof (rank_bound s) as Hb.
      rewrite (inv_length _ _ Hi) in Hb. lia.
    + apply (cancel_quiet _ _ _ Hwf).
      * by eapply inv_run.
      * by apply (run_closed _ _ _ Hwf _ _ _ Hi Hls).
  - intros Hfin sched' s' Hr.
    pose proof (run_potential _ _ _ Hwf _ _ _ Hi Hfin Hr). lia.
Qed.

(** One finder, [take(done, _, 1)]: after [main] has closed [done] the
    generator can take the [done] branch, and no run of such moves is
    longer than 18 steps. *)

Lemma cancellation_drains_finder :
  exists s, run cancel_sched cancel_net = Some s /\ 0 ∈ closed s /\
    (exists i, is_Some (local i s)) /\
    (forall ls s', run (map Local ls) s = Some s' -> length ls <= 18).
Proof.
  run_to s Hrun. exists s. split; [done|].
  observe (fun s => bool_decide (0 ∈ closed s)) true.
  apply bool_decide_eq_true in Hobs.
  observe (fun s => ctl <$> procs s !! 0) (Some (AtLoop 1)).
  split; [done|].
  pose proof (cancellation_drains 0 _ _ cancel_sched s
                (fofi_wf (ints [3; 4]%Z) (on_int primeFinder_item) 1 1) Hrun Hobs)
    as (_ & _ & Hlive & Hloc & _).
  split.
  - apply Hlive. intros Hh.
    destruct (procs s !! 0) as [g|] eqn:Hg; [|done].
    injection Hobs0 as Hc.
    pose proof (proj1 (Forall_lookup _ _) Hh 0 g Hg) as Hg'. simpl in Hg'. congruence.
  - intros ls s' Hls. apply (Hloc ls s' Hls).
Defined.

(** In that state the finder stands at the head of its [range] loop, a
    receive from the stream of the generator, which is still open: [done]
    is closed, and the finder has no move of its own; it goes on only when
    the generator hands it a value or closes the stream. *)

Lemma finder_read_ignores_done :
  exists s, run cancel_sched cancel_net = Some s /\ 0 ∈ closed s /\
    (op_of <$> procs s !! 1) = Some (ORecv 1) /\ 1 ∉ closed s /\
    local 1 s = None.
Proof.
  run_to s Hrun. exists s. split; [done|].
  observe (fun s => bool_decide (0 ∈ closed s)) true.
  observe (fun s => op_of <$> procs s !! 1) (Some (ORecv 1)).
  observe (fun s => bool_decide (1 ∈ closed s)) false.
  observe (fun s => local 1 s) (@None state).
  apply bool_decide_eq_true in Hobs. apply bool_decide_eq_false in Hobs1.
  by split_and!.
Qed.

(** C6. In a well-formed pipeline [done] is closed once: from a state in
    which it is closed, no run panics, no goroutine stands at another
    [close(done)], [done] is closed in every later state, and every
    [select] of every later state can take its [done] branch. *)

Theorem done_closed_for_good d stages wg0 sched sched' s s' :
  wf_net d stages wg0 ->
  run sched (boot stages wg0) = Some s ->
  d ∈ closed s ->
  run sched' s = Some s' ->
  panicked s' = false /\ d ∈ closed s' /\
  (forall i g, procs s' !! i = Some g -> op_of g <> OClose d) /\
  (forall i g d' c v, procs s' !! i = Some g -> op_of g = OSelect d' c v ->
     local i s' = Some (advance i g RDone s')).
Proof.
  intros Hwf Hrun Hd Hrun'.
  destruct (reach_inv _ _ _ Hwf _ _ Hrun) as [Hi _].
  assert (Hi' : inv stages s') by (by eapply inv_run).
  assert (Hd' : d ∈ closed s') by (by apply (run_closed _ _ _ Hwf _ _ _ Hi Hrun')).
  split; [by apply (inv_nopanic _ _ Hi')|]. split; [done|]. split.
  - intros i g Hg. by eapply no_second_close.
  - intros i g d' c v Hg Hop. by eapply select_done.
Qed.

(** The generator of the one-finder program, three steps after [main] has
    closed [done]. *)

Lemma done_closed_for_good_finder :
  exists s s', run cancel_sched cancel_net = Some s /\
    run [Local 0; Local 0; Local 1] s = Some s' /\
    panicked s' = false /\ 0 ∈ closed s'.
Proof.
  run_to s Hrun.
  observe (fun s => bool_decide (0 ∈ closed s)) true.
  apply bool_decide_eq_true in Hobs.
  destruct (run_defined panicked (cancel_sched ++ [Local 0; Local 0; Local 1]) cancel_net false)
    as [s' Hrun2]; [vm_compute; reflexivity|].
  pose proof Hrun2 as Hrun'. rewrite run_app, Hrun in Hrun'.
  change (run [Local 0; Local 0; Local 1] s = Some s') in Hrun'.
  exists s, s'. split; [done|]. split; [done|].
  pose proof (done_closed_for_good 0 _ _ cancel_sched _ s s'
                (fofi_wf (ints [3; 4]%Z) (on_int primeFinder_item) 1 1) Hrun Hobs Hrun')
    as (Hp & Hd & _).
  done.
Defined.

(** A second [close(done)] is a run-time panic: after the first close the
    program goes on, after the second it has panicked and no goroutine
    takes another step. *)

Lemma second_close_panics :
  panicked done_closed = false /\ 0 ∈ closed done_closed /\
  panicked (close_chan 0 done_closed) = true /\
  exec1 (Local 0) (close_chan 0 done_closed) = None /\
  local 0 (State [Go (Main 0 1) AtExit] {[0]} no_wg [] [] false) =
    Some (panic (State [Go (Main 0 1) AtExit] {[0]} no_wg [] [] false)).
Proof.
  split; [reflexivity|]. split; [unfold done_closed; simpl; set_solver|].
  split; [reflexivity|]. split; reflexivity.
Qed.

(** The two steps of the goroutine that [fanIn] starts last. *)

Lemma close_step s j g c :
  panicked s = false -> procs s !! j = Some g -> op_of g = OClose c -> c ∉ closed s ->
  exists s', exec1 (Local j) s = Some s' /\ c ∈ closed s'.
Proof.
  intros Hp Hg Hop Hc. unfold exec1, local. rewrite Hp, Hg. simpl. rewrite Hop.
  rewrite decide_False by done. eexists. split; [done|].
  unfold close_chan. rewrite decide_False by done. simpl. set_solver.
Qed.

Lemma wait_step s j g w out k :
  panicked s = false -> procs s !! j = Some g -> code g = Closer w out ->
  ctl g = AtLoop k -> wgs s w = 0 ->
  exists s', exec1 (Local j) s = Some s' /\ panicked s' = false /\
    closed s' = closed s /\ procs s' !! j = Some (Go (Closer w out) AtExit).
Proof.
  intros Hp Hg Hc Hk Hw. unfold exec1, local, op_of. rewrite Hp, Hg. simpl.
  rewrite Hc, Hk. simpl. rewrite Hw. eexists. split; [done|].
  unfold advance. simpl. split; [done|]. split; [done|].
  rewrite Hc, Hk. simpl. apply list_lookup_insert_eq. by eapply lookup_lt_Some.
Qed.

Lemma no_live_mux stages s w :
  inv stages s ->
  (forall i g dd inp o, procs s !! i = Some g -> code g = Multiplex dd inp o w ->
     ctl g = Halted) ->
  wgs s w = 0.
Proof.
  intros Hi Hall. rewrite (inv_wg _ _ Hi). apply filter_length_none.
  intros g [i Hg]%list_elem_of_lookup_1 [Hm Hl]. apply Hl.
  destruct (code g) as [| | | |dd inp o w'|w' o|] eqn:Hc; simpl in Hm; try done.
  apply bool_decide_eq_true in Hm as ->. eauto.
Qed.

Lemma mux_returned stages s w i g dd inp o :
  inv stages s -> wgs s w = 0 -> procs s !! i = Some g ->
  code g = Multiplex dd inp o w -> ctl g = Halted.
Proof.
  intros Hi Hw Hg Hc. rewrite (inv_wg _ _ Hi) in Hw.
  destruct (decide (ctl g = Halted)) as [|Hn]; [done|].
  destruct (filter_length_zero _ _ _ _ Hw Hg). split; [|done].
  rewrite Hc. simpl. by apply bool_decide_eq_true.
Qed.

(** C4. The stream that [fanIn] returns, in a well-formed pipeline. It is
    closed by the goroutine that waits for the WaitGroup and by no other;
    the program never panics, so it is closed once, and it stays closed.
    When it is closed every [multiplex] goroutine has returned, and, as long
    as [done] is open, the input stream of each of them is closed; with
    [done] closed a [multiplex] goroutine returns from its [select] and
    leaves its input stream open. When all of them have returned the
    waiting goroutine closes the stream within two steps of its own. *)

Theorem fanIn_closes_after_multiplexers d stages wg0 sched s j w out :
  wf_net d stages wg0 ->
  run sched (boot stages wg0) = Some s ->
  stages !! j = Some (Closer w out) ->
  panicked s = false /\
  (out ∈ closed s <-> ctl_at s j = Halted) /\
  (out ∈ closed s ->
   forall i g dd inp o, procs s !! i = Some g -> code g = Multiplex dd inp o w ->
     ctl g = Halted /\ (d ∉ closed s -> inp ∈ closed s)) /\
  (out ∉ closed s ->
   (forall i g dd inp o, procs s !! i = Some g -> code g = Multiplex dd inp o w ->
      ctl g = Halted) ->
   exists ls s', length ls <= 2 /\ run (map Local ls) s = Some s' /\ out ∈ closed s') /\
  (forall sched' s', run sched' s = Some s' -> out ∈ closed s ->
     out ∈ closed s' /\ panicked s' = false).
Proof.
  intros Hwf Hrun Hj.
  destruct (reach_inv _ _ _ Hwf _ _ Hrun) as [Hi Ho].
  destruct (stage_lookup _ _ _ _ Hi Hj) as (g & Hg & Hc).
  assert (Hcl : closes (code g) = Some out) by (by rewrite Hc).
  pose proof (inv_closed _ _ Hi j g out Hg Hcl) as Hiff.
  split; [by apply (inv_nopanic _ _ Hi)|]. split; [|split; [|split]].
  - by rewrite (ctl_at_lookup _ _ _ Hg).
  - intros Hout i gi dd inp o Hgi Hci.
    assert (Hw : wgs s w = 0).
    { apply (inv_closer _ _ Hi j g w out Hg Hc). intros k Hk.
      apply Hiff in Hout. congruence. }
    assert (Hh : ctl gi = Halted) by eauto using mux_returned.
    split; [done|]. intros Hd.
    apply (open_range _ _ Ho i gi inp Hgi); rewrite ?Hci; auto.
  - intros Hout Hall.
    assert (Hw : wgs s w = 0) by eauto using no_live_mux.
    assert (Hp : panicked s = false) by apply (inv_nopanic _ _ Hi).
    assert (Hn : ctl g <> Halted) by (intros Hh; by apply Hout, Hiff).
    pose proof (inv_pc _ _ Hi j g Hg) as [Hh|Hpc]; [done|].
    rewrite Hc in Hpc. destruct (ctl g) as [k|k v| |] eqn:Hk; simpl in Hpc; try done.
    + destruct (wait_step s j g w out k Hp Hg Hc Hk Hw) as (s1 & He1 & Hp1 & Hc1 & Hg1).
      destruct (close_step s1 j _ out Hp1 Hg1 eq_refl) as (s2 & He2 & Hc2);
        [by rewrite Hc1|].
      exists [j; j], s2. split; [simpl; lia|]. split; [|done].
      simpl. rewrite He1. simpl. by rewrite He2.
    + destruct (close_step s j g out Hp Hg) as (s1 & He1 & Hc1);
        [unfold op_of; by rewrite Hc, Hk|done|].
      exists [j], s1. split; [simpl; lia|]. split; [|done].
      simpl. by rewrite He1.
  - intros sched' s' Hr Hout. split.
    + by apply (run_closed _ _ _ Hwf _ _ _ Hi Hr).
    + eapply inv_nopanic, inv_run; eauto.
Qed.

(** The prime finder program at the end of its run: the goroutine that
    waits is number 7, and the stream of [fanIn] is channel 2. *)

Lemma fanIn_closes_after_multiplexers_primes :
  exists s, run prime_sched prime_net = Some s /\
    2 ∈ closed s /\ ctl_at s 7 = Halted /\
    (forall i g dd inp o, procs s !! i = Some g -> code g = Multiplex dd inp o 0 ->
       ctl g = Halted).
Proof.
  run_to s Hrun. exists s. split; [done|].
  observe (fun s => bool_decide (2 ∈ closed s)) true.
  apply bool_decide_eq_true in Hobs.
  pose proof (fanIn_closes_after_multiplexers 0 _ _ prime_sched s 7 0 2
    (fofi_wf (ints [2; 3; 4; 5; 6; 7; 8; 9; 10; 11]%Z) (on_int primeFinder_item) 3 5)
    Hrun eq_refl) as (_ & Hiff & Hmux & _).
  split; [done|]. split; [by apply Hiff|].
  intros i g dd inp o Hg Hc. by destruct (Hmux Hobs i g dd inp o Hg Hc).
Defined.

(** After [done] has been closed the stream of [fanIn] can be closed with
    an input stream still open: the [multiplex] goroutine has returned from
    its [select], the waiting goroutine has closed channel 2, and the
    finder stands at the send of 5 on its stream, channel 4, which is
    open. *)

Lemma fanIn_closes_before_input :
  exists s, run open_input_sched open_input_net = Some s /\
    panicked s = false /\ 0 ∈ closed s /\ 2 ∈ closed s /\ 4 ∉ closed s /\
    (code <$> procs s !! 2) = Some (Multiplex 0 4 2 0) /\ ctl_at s 2 = Halted /\
    (op_of <$> procs s !! 1) = Some (OSelect 0 4 (VInt 5)).
Proof.
  run_to s Hrun. exists s. split; [done|].
  observe panicked false.
  observe (fun s => bool_decide (0 ∈ closed s)) true.
  observe (fun s => bool_decide (2 ∈ closed s)) true.
  observe (fun s => bool_decide (4 ∈ closed s)) false.
  observe (fun s => ctl_at s 2) Halted.
  observe (fun s => op_of <$> procs s !! 1) (Some (OSelect 0 4 (VInt 5))).
  apply bool_decide_eq_true in Hobs0. apply bool_decide_eq_true in Hobs1.
  apply bool_decide_eq_false in Hobs2.
  destruct (stage_lookup _ s 2 (Multiplex 0 4 2 0)
              (proj1 (reach_inv 0 _ _ (fofi_wf (ints [3; 4; 6]%Z) (on_int primeFinder_item) 1 1)
                        _ _ Hrun)) eq_refl) as (g & Hg & Hc).
  split_and!; try done. by rewrite Hg, <- Hc.
Qed.

(** * More on well-formed pipelines *)

(** X1. A pipeline built from the stages, with [main] ranging over one of
    its streams, never panics and never deadlocks: in every state it can
    reach, either all goroutines have returned or some step is possible,
    and that step does not panic either. When all have returned nothing
    happens any more. *)

Theorem pipeline_never_stuck d stages wg0 m inp sched s :
  wf_net d stages wg0 ->
  stages !! m = Some (Main d inp) ->
  run sched (boot stages wg0) = Some s ->
  panicked s = false /\
  (halted s \/ exists ch s', exec1 ch s = Some s' /\ panicked s' = false) /\
  (halted s -> forall ch, exec1 ch s = None).
Proof.
  intros Hwf Hm Hrun.
  destruct (reach_inv _ _ _ Hwf _ _ Hrun) as [Hi _].
  split; [by apply (inv_nopanic _ _ Hi)|]. split.
  - destruct (halted_dec s) as [Hh|Hn]; [by left|right].
    destruct (progress _ _ _ Hwf s m inp Hi Hm Hn) as (ch & s' & He).
    exists ch, s'. split; [done|].
    eapply inv_nopanic, inv_exec1; eauto.
  - intros Hh ch. unfold halted in Hh. rewrite Forall_lookup in Hh.
    assert (Hop : forall i g, procs s !! i = Some g -> op_of g = OHalt).
    { intros i g Hg. unfold op_of. rewrite (Hh i g Hg). by destruct (code g). }
    unfold exec1. rewrite (inv_nopanic _ _ Hi).
    destruct ch as [i|i j|i]; simpl.
    + unfold local. destruct (procs s !! i) as [g|] eqn:Hg; [simpl|done].
      by rewrite (Hop i g Hg).
    + unfold comm. case_decide; [done|].
      destruct (procs s !! i) as [gi|] eqn:Hgi; [simpl|done].
      destruct (procs s !! j) as [gj|] eqn:Hgj; [simpl|done].
      by rewrite (Hop i gi Hgi).
    + unfold send_closed. destruct (procs s !! i) as [g|] eqn:Hg; [simpl|done].
      by rewrite (Hop i g Hg).
Qed.

(** The one-finder program after [main] has closed [done]: not all
    goroutines have returned, and a step is possible. *)

Lemma pipeline_never_stuck_finder :
  exists s, run cancel_sched cancel_net = Some s /\ panicked s = false /\
    exists ch s', exec1 ch s = Some s' /\ panicked s' = false.
Proof.
  run_to s Hrun. exists s. split; [done|].
  observe (fun s => ctl <$> procs s !! 0) (Some (AtLoop 1)).
  destruct (pipeline_never_stuck 0 _ _ 5 3 cancel_sched s
              (fofi_wf (ints [3; 4]%Z) (on_int primeFinder_item) 1 1) eq_refl Hrun)
    as (Hp & [Hh|Hstep] & _); [|done].
  exfalso. destruct (procs s !! 0) as [g|] eqn:Hg; [|done].
  injection Hobs as Hc.
  pose proof (proj1 (Forall_lookup _ _) Hh 0 g Hg) as Hg'. simpl in Hg'. congruence.
Defined.

Lemma sum_list_imap_le {A} (f : nat -> A -> nat) (g : A -> nat) (l : list A) :
  (forall i x, f i x <= g x) -> sum_list (imap f l) <= sum_list (map g l).
Proof.
  revert f. induction l as [|x l IH]; intros f Hf; simpl; [done|].
  specialize (IH (f ∘ S) (fun i y => Hf (S i) y)). specialize (Hf 0 x). lia.
Qed.

Lemma sum_list_map_affine {A} (g : A -> nat) (a b : nat) (l : list A) :
  sum_list (map (fun x => g x * a + b) l) = a * sum_list (map g l) + b * length l.
Proof. induction l as [|x l IH]; simpl; lia. Qed.

Lemma potential_boot stages wg0 :
  potential (boot stages wg0) <=
  2 * length stages * sum_list (map work stages) + 3 * length stages.
Proof.
  unfold potential, boot. cbn [procs]. rewrite length_map, imap_fmap.
  set (n := length stages).
  etrans; [apply (sum_list_imap_le _ (fun st => work st * (2 * n) + 3))|].
  - intros i st. unfold potential_at, held, work, compose. simpl.
    assert (2 * (n - i) <= 2 * n) by lia.
    destruct st; simpl; rewrite ?Nat.sub_0_r, ?Z.sub_0_r; try lia; nia.
  - rewrite sum_list_map_affine. fold n. lia.
Qed.

(** X2. A pipeline whose generators are all finite comes to an end: no run
    has more steps than twice the number of goroutines times the number of
    values the generators and [take]s hand on by their own count, and
    three more for each goroutine. *)

Theorem pipeline_runs_bounded d stages wg0 sched s :
  wf_net d stages wg0 ->
  (forall st, st ∈ stages -> is_repeat st = false) ->
  run sched (boot stages wg0) = Some s ->
  length sched <=
  2 * length stages * sum_list (map work stages) + 3 * length stages.
Proof.
  intros Hwf Hfin Hrun.
  pose proof (run_potential _ _ _ Hwf _ _ _ (inv_boot _ _ _ Hwf) Hfin Hrun).
  pose proof (potential_boot stages wg0). lia.
Qed.

(** Two finders over 3 and 4 with [take(done, _, 2)]: eight goroutines,
    and four values by the count of the generator and of [take]. *)

Lemma pipeline_runs_bounded_pair :
  exists s, run pair_sched_a pair_net = Some s /\ length pair_sched_a <= 2 * 8 * 4 + 3 * 8.
Proof.
  run_to s Hrun. exists s. split; [done|].
  exact (pipeline_runs_bounded 0 _ _ pair_sched_a s
           (fofi_wf (ints [3; 4]%Z) (on_int primeFinder_item) 2 2)
           (fofi_no_repeat (ints [3; 4]%Z) (on_int primeFinder_item) 2 2) Hrun).
Defined.

(** X3. The closing discipline of a pipeline, in every state it can reach:
    a stream is closed exactly when the stage that owns it has returned;
    no stage stands at a send on a closed stream or at the close of a
    closed stream; and the counter of a WaitGroup is the number of its
    [multiplex] goroutines that have not returned. *)

Theorem streams_closed_by_owner d stages wg0 sched s i g :
  wf_net d stages wg0 ->
  run sched (boot stages wg0) = Some s ->
  procs s !! i = Some g ->
  (forall c, closes (code g) = Some c -> (c ∈ closed s <-> ctl g = Halted)) /\
  (forall d' c v, op_of g = OSelect d' c v -> c ∉ closed s) /\
  (forall c, op_of g = OClose c -> c ∉ closed s) /\
  (forall w, wgs s w = length (filter (live_mux w) (procs s))).
Proof.
  intros Hwf Hrun Hg.
  destruct (reach_inv _ _ _ Hwf _ _ Hrun) as [Hi _].
  split; [|split; [|split]].
  - intros c Hc. by apply (inv_closed _ _ Hi i g c).
  - intros d' c v Hop. by eapply send_open.
  - intros c Hop Hc. by eapply no_second_close.
  - apply (inv_wg _ _ Hi).
Qed.

(** The prime finder program when all have returned: the generator has
    closed its stream, channel 1, and the counter of the WaitGroup is 0. *)

Lemma streams_closed_by_owner_primes :
  exists s, run prime_sched prime_net = Some s /\ 1 ∈ closed s /\ wgs s 0 = 0.
Proof.
  run_to s Hrun. exists s. split; [done|].
  observe (fun s => ctl <$> procs s !! 0) (Some Halted).
  observe (fun s => length (filter (live_mux 0) (procs s))) 0.
  destruct (procs s !! 0) as [g|] eqn:Hg; [|done]. injection Hobs as Hc.
  destruct (streams_closed_by_owner 0 _ _ prime_sched s 0 g
              (fofi_wf (ints [2; 3; 4; 5; 6; 7; 8; 9; 10; 11]%Z) (on_int primeFinder_item) 3 5)
              Hrun Hg) as (Hcl & _ & _ & Hwg).
  split; [|by rewrite Hwg].
  apply Hcl; [|done].
  pose proof (code_lookup _ _ _ _ (proj1 (reach_inv _ _ _
    (fofi_wf (ints [2; 3; 4; 5; 6; 7; 8; 9; 10; 11]%Z) (on_int primeFinder_item) 3 5) _ _ Hrun))
    Hg) as Hst.
  simpl in Hst. injection Hst as <-. done.
Defined.

(** * More on the programs of the notes *)

(** X4. Fan-out, fan-in and [take] with any stage function and any number
    of workers: every run is bounded and cannot get stuck, and once all
    goroutines have returned [num] values have been printed. When the
    workers pass at least [num] values, the values printed are among those
    the stage passes for the inputs, none more often than the workers
    passed it; when they pass fewer, all of them are printed, and a [nil]
    for each value missing. *)

Theorem fan_in_keeps_values integers f W num sched s :
  0 < W ->
  run sched (fofi_net integers f W num) = Some s ->
  length sched <= (8 + 4 * W) * length integers + 4 * Z.to_nat num + 6 * W + 12 /\
  (~ halted s -> exists ch s', exec1 ch s = Some s') /\
  (halted s ->
   length (output s) = Z.to_nat num /\
   (Z.to_nat num <= length (omap f integers) -> output s ⊆+ omap f integers) /\
   (length (omap f integers) <= Z.to_nat num ->
    output s ≡ₚ omap f integers ++
               replicate (Z.to_nat num - length (omap f integers)) VNil)).
Proof.
  intros HW Hrun.
  destruct (fofi_correct _ _ _ _ sched s HW Hrun) as (Hlen & Hlive & Hout & _).
  split; [done|]. split; [done|].
  intros Hh. destruct (Hout Hh) as [Hn Hsub]. split; [done|].
  destruct Hsub as [Hsub|[m Hperm]].
  - pose proof (submseteq_length _ _ Hsub) as Hle. split; [done|].
    intros Hge. replace (Z.to_nat num - length (omap f integers)) with 0 by lia.
    rewrite app_nil_r. apply submseteq_length_Permutation; [done|lia].
  - pose proof (Permutation_length Hperm) as Hl.
    rewrite length_app, length_replicate in Hl. split.
    + intros Hle. assert (m = 0) as -> by lia.
      rewrite app_nil_r in Hperm. by rewrite Hperm.
    + intros Hge. by replace (Z.to_nat num - length (omap f integers)) with m by lia.
Qed.

(** Two finders over 3 and 4 with [take(done, _, 2)]. *)

Lemma fan_in_keeps_values_pair :
  exists s, run (pair_sched_a ++ [Local 6; Local 7; Local 7; Local 0; Local 1; Local 1;
                                  Local 2; Local 2; Local 3; Local 3; Local 4; Local 4;
                                  Local 5; Local 5]) pair_net = Some s /\
    halted s /\ output s ≡ₚ ints [2; 3]%Z.
Proof.
  run_to s Hrun. exists s. split; [done|].
  observe (fun s => map ctl (procs s)) (replicate 8 Halted).
  pose proof (halted_replicate s 8 Hobs) as Hh. split; [done|].
  destruct (fan_in_keeps_values (ints [3; 4]%Z) (on_int primeFinder_item) 2 2 _ s
              (Nat.lt_0_succ 1) Hrun) as (_ & _ & Hout).
  destruct (Hout Hh) as (_ & _ & Hperm).
  exact (Hperm (le_n 2)).
Defined.

#[local] Instance prime_dec_instance (p : Z) : Decision (prime p) := prime_dec p.

Lemma omap_on_int_ints (g : Z -> option Z) (l : list Z) :
  omap (on_int g) (ints l) = ints (omap g l).
Proof.
  unfold ints. induction l as [|n l IH]; [done|]. simpl.
  destruct (g n); simpl; [f_equal|]; exact IH.
Qed.

Lemma omap_primeFinder_item (l : list Z) :
  Forall (fun n => 3 <= n <= max_int)%Z l ->
  omap primeFinder_item l = filter prime (map Z.pred l).
Proof.
  induction 1 as [|n l Hn Hl IH]; [done|].
  assert (Hn' : (min_int + 2 <= n <= max_int)%Z) by (unfold min_int in *; lia).
  pose proof (primeFinder_item_prime n Hn') as Hiff.
  cbn [map]. rewrite filter_cons, <- IH, <- Z.sub_1_r. simpl.
  destruct (primeFinder_item n) as [v|] eqn:Hv.
  - rewrite (primeFinder_item_value n v Hn' Hv) in *.
    rewrite decide_True; [done|].
    destruct (proj1 Hiff eq_refl) as [?|?]; [lia|done].
  - rewrite decide_False; [done|].
    intros Hp. by apply (fun H => proj2 Hiff (or_intror H)) in Hp.
Qed.

Lemma omap_primeFinder (l : list Z) :
  Forall (fun n => 3 <= n <= max_int)%Z l ->
  omap (on_int primeFinder_item) (ints l) = ints (filter prime (map Z.pred l)).
Proof. intros Hl. by rewrite omap_on_int_ints, omap_primeFinder_item. Qed.

(** X5. One prime finder between the generator and [main]: every run is
    bounded and cannot get stuck, and for inputs from 3 on the values
    printed at the end are the predecessors of the inputs that are prime,
    in the order of the inputs. *)

Theorem single_finder_keeps_order (l : list Z) sched s :
  Forall (fun n => 3 <= n <= max_int)%Z l ->
  run sched (chain_net (ints l) (on_int primeFinder_item)) = Some s ->
  length sched <= 6 * length l + 9 /\
  (~ halted s -> exists ch s', exec1 ch s = Some s') /\
  (halted s -> output s = ints (filter prime (map Z.pred l))).
Proof.
  intros Hl Hrun.
  destruct (chain_correct _ _ _ _ Hrun) as (Hlen & Hlive & Hout).
  unfold ints in Hlen. rewrite length_map in Hlen.
  split; [done|]. split; [done|].
  intros Hh. by rewrite (Hout Hh), omap_primeFinder.
Qed.

(** One finder over 9, 4, 8, 6: 3 and 7 and 5 are printed, in this order. *)

Lemma single_finder_keeps_order_run :
  exists s, run ([Comm 0 1; Comm 0 1; Comm 1 2; Comm 0 1; Comm 1 2; Comm 0 1; Comm 1 2] ++
                 [Local 0; Local 1; Local 1; Local 2; Local 2])
              (chain_net (ints [9; 4; 8; 6]%Z) (on_int primeFinder_item)) = Some s /\
    halted s /\ output s = ints [3; 7; 5]%Z.
Proof.
  run_to s Hrun. exists s. split; [done|].
  observe (fun s => map ctl (procs s)) (replicate 3 Halted).
  pose proof (halted_replicate s 3 Hobs) as Hh. split; [done|].
  assert (Hl : Forall (fun n => 3 <= n <= max_int)%Z [9; 4; 8; 6]%Z).
  { repeat constructor; vm_compute; discriminate. }
  destruct (single_finder_keeps_order [9; 4; 8; 6]%Z _ s Hl Hrun) as (_ & _ & Hout).
  rewrite (Hout Hh), <- (omap_primeFinder _ Hl). reflexivity.
Defined.

(** * More on the roman-numeral server *)

Module ServerMore.
Import Server ServerPath.

Local Open Scope string_scope.

Lemma split_slash_free s : slash_free s = true -> split_slash s = [s].
Proof.
  induction s as [|c s IH]; simpl; [done|].
  intros [Hc Hs]%andb_true_iff. apply negb_true_iff in Hc. rewrite Hc.
  by rewrite (IH Hs).
Qed.

Lemma split_slash_cons pre rest :
  slash_free pre = true ->
  split_slash (pre ++ String "/" rest) = pre :: split_slash rest.
Proof.
  induction pre as [|c pre IH]; simpl; [done|].
  intros [Hc Hs]%andb_true_iff. apply negb_true_iff in Hc. rewrite Hc.
  by rewrite (IH Hs).
Qed.

Lemma split_slash_shape s :
  slash_free s = true \/
  exists pre rest, slash_free pre = true /\ s = pre ++ String "/" rest.
Proof.
  induction s as [|c s IH]; simpl; [by left|].
  destruct (Ascii.eqb c "/") eqn:Hc.
  - right. apply Ascii.eqb_eq in Hc as ->. by exists EmptyString, s.
  - destruct IH as [Hs|(pre & rest & Hpre & ->)].
    + left. by rewrite Hs.
    + right. exists (String c pre), rest. simpl. by rewrite Hc, Hpre.
Qed.

Lemma split_slash_head s : exists e es, split_slash s = e :: es.
Proof.
  destruct (split_slash_shape s) as [Hs|(pre & rest & Hpre & ->)].
  - rewrite split_slash_free by done. eauto.
  - rewrite split_slash_cons by done. eauto.
Qed.

Lemma append_empty_r s : s ++ EmptyString = s.
Proof.
  induction s as [|c s IH]; [done|].
  change (String c (s ++ EmptyString) = String c s). by rewrite IH.
Qed.

Lemma slash_free_app s t : slash_free (s ++ t) = slash_free s && slash_free t.
Proof. induction s as [|c s IH]; simpl; [done|]. by rewrite IH, andb_assoc. Qed.

Lemma append_inj_slash pre pre' rest rest' :
  slash_free pre = true -> slash_free pre' = true ->
  pre ++ String "/" rest = pre' ++ String "/" rest' -> pre = pre' /\ rest = rest'.
Proof.
  revert pre'. induction pre as [|c pre IH]; intros [|c' pre']; simpl.
  - by intros _ _ [= ->].
  - intros _ [Hc _]%andb_true_iff [= <- _]. done.
  - intros [Hc _]%andb_true_iff _ [= -> _]. done.
  - intros [_ Hs]%andb_true_iff [_ Hs']%andb_true_iff [= -> He].
    destruct (IH pre' Hs Hs' He) as [-> ->]. done.
Qed.

Section handler.
Variable TrimSpace : string -> string.
Variable Atoi : string -> Z.
Variable EscapeString : string -> string.
Variable Quote : string -> string.

Local Notation handler := (handler TrimSpace Atoi EscapeString Quote).

(** X6. The handler indexes the elements of the path without looking at
    their number. It panics with an index out of range exactly for a path
    without any [/] and for a path that ends with [/roman_number] after a
    first element without [/]: of the paths that start with [/], the one
    path [/roman_number]. *)

Theorem handler_panics path :
  (handler path = Panics <->
   slash_free path = true \/
   exists pre, slash_free pre = true /\ path = pre ++ "/roman_number") /\
  (forall p, handler (String "/" p) = Panics <-> p = "roman_number").
Proof.
  assert (Hgen : forall path, handler path = Panics <->
    slash_free path = true \/
    exists pre, slash_free pre = true /\ path = pre ++ "/roman_number").
  { clear path. intros path. unfold Server.handler.
    destruct (split_slash_shape path) as [Hs|(pre & rest & Hpre & ->)].
    { rewrite split_slash_free by done. simpl. split; [by left|done]. }
    rewrite split_slash_cons by done. cbn [lookup list_lookup].
    destruct (split_slash_shape rest) as [Hr|(seg & rest' & Hseg & ->)].
    - rewrite (split_slash_free rest) by done. cbn [lookup list_lookup].
      destruct (String.eqb rest "roman_number") eqn:He.
      + apply String.eqb_eq in He as ->. split; [|done]. intros _. right. by exists pre.
      + apply String.eqb_neq in He. split; [done|].
        intros [Hf|(pre' & Hpre' & Heq)].
        * rewrite slash_free_app in Hf. simpl in Hf. by rewrite andb_false_r in Hf.
        * apply (append_inj_slash pre pre') in Heq as [_ ->]; done.
    - rewrite (split_slash_cons seg) by done. cbn [lookup list_lookup].
      destruct (split_slash_head rest') as (e & es & ->). cbn [lookup list_lookup].
      split.
      + destruct (String.eqb seg "roman_number"); [|done].
        by destruct ((_ =? 0)%Z || _).
      + intros [Hf|(pre' & Hpre' & Heq)].
        * rewrite slash_free_app in Hf. simpl in Hf. by rewrite andb_false_r in Hf.
        * apply (append_inj_slash pre pre') in Heq as [_ Heq]; [|done..].
          assert (Hf : slash_free (seg ++ String "/" rest') = true) by (by rewrite Heq).
          rewrite slash_free_app in Hf. simpl in Hf. by rewrite andb_false_r in Hf. }
  split; [apply Hgen|].
  intros p. rewrite Hgen. split.
  - intros [Hf|(pre & Hpre & Heq)]; [done|].
    change (String "/" p) with (EmptyString ++ String "/" p) in Heq.
    change (pre ++ "/roman_number") with (pre ++ String "/" "roman_number") in Heq.
    by apply (append_inj_slash EmptyString pre) in Heq as [_ ->].
  - intros ->. right. by exists EmptyString.
Qed.

Lemma split_slash_three pre seg k tail :
  slash_free pre = true -> slash_free seg = true -> slash_free k = true ->
  tail = EmptyString \/ (exists t, tail = String "/" t) ->
  split_slash (pre ++ String "/" (seg ++ String "/" (k ++ tail))) !! 1 = Some seg /\
  split_slash (pre ++ String "/" (seg ++ String "/" (k ++ tail))) !! 2 = Some k.
Proof.
  intros Hpre Hseg Hk Htail.
  rewrite split_slash_cons, split_slash_cons by done. cbn [lookup list_lookup].
  split; [done|]. destruct Htail as [->|[t ->]].
  - rewrite append_empty_r, split_slash_free by done. done.
  - rewrite split_slash_cons by done. done.
Qed.

Lemma handler_element pre k :
  slash_free pre = true -> slash_free k = true ->
  handler (pre ++ "/roman_number/" ++ k) =
    (if ((Atoi (TrimSpace k) =? 0) || (Atoi (TrimSpace k) >? 10))%Z
     then Resp 404 "404 - Not Found"
     else Resp 200 (Quote (EscapeString (numeral (Atoi (TrimSpace k)))))).
Proof.
  intros Hpre Hk.
  destruct (split_slash_three pre "roman_number" k EmptyString Hpre eq_refl Hk
              (or_introl eq_refl)) as [H1 H2].
  rewrite append_empty_r in H1, H2.
  unfold Server.handler.
  change (pre ++ "/roman_number/" ++ k)
    with (pre ++ String "/" ("roman_number" ++ String "/" k)).
  by rewrite H1, H2.
Qed.

(** X7. A path [/roman_number/k], with or without more elements after
    [k]: the answer is made from [k] alone. It is 404 when [k] parses to 0
    (as it does when it is no number) or to more than 10, and otherwise 200
    with the quoted, escaped entry of the table. What follows a further
    [/] is ignored. *)

Theorem handler_second_element pre k tail :
  slash_free pre = true -> slash_free k = true ->
  tail = EmptyString \/ (exists t, tail = String "/" t) ->
  handler (pre ++ "/roman_number/" ++ k ++ tail) =
    (if ((Atoi (TrimSpace k) =? 0) || (Atoi (TrimSpace k) >? 10))%Z
     then Resp 404 "404 - Not Found"
     else Resp 200 (Quote (EscapeString (numeral (Atoi (TrimSpace k)))))) /\
  handler (pre ++ "/roman_number/" ++ k ++ tail) = handler (pre ++ "/roman_number/" ++ k).
Proof.
  intros Hpre Hk Htail.
  assert (Hgen : forall tail, tail = EmptyString \/ (exists t, tail = String "/" t) ->
    handler (pre ++ "/roman_number/" ++ k ++ tail) =
    (if ((Atoi (TrimSpace k) =? 0) || (Atoi (TrimSpace k) >? 10))%Z
     then Resp 404 "404 - Not Found"
     else Resp 200 (Quote (EscapeString (numeral (Atoi (TrimSpace k))))))).
  { clear tail Htail. intros tail Htail.
    destruct (split_slash_three pre "roman_number" k tail Hpre eq_refl Hk Htail) as [H1 H2].
    unfold Server.handler.
    change (pre ++ "/roman_number/" ++ k ++ tail)
      with (pre ++ String "/" ("roman_number" ++ String "/" (k ++ tail))).
    by rewrite H1, H2. }
  split; [by apply Hgen|].
  rewrite (Hgen tail Htail). symmetry.
  rewrite <- (append_empty_r k) at 1. apply Hgen. by left.
Qed.

(** X8. A path whose element after the first [/] is not [roman_number] is
    answered with 400, whatever follows. *)

Theorem handler_bad_request pre seg tail :
  slash_free pre = true -> slash_free seg = true ->
  tail = EmptyString \/ (exists t, tail = String "/" t) ->
  seg <> "roman_number" ->
  handler (pre ++ String "/" (seg ++ tail)) = Resp 400 "400 - Bad request".
Proof.
  intros Hpre Hseg Htail Hne. unfold Server.handler.
  assert (Hl : exists es, split_slash (seg ++ tail) = seg :: es).
  { destruct Htail as [->|[t ->]].
    - rewrite append_empty_r, split_slash_free by done. eauto.
    - rewrite split_slash_cons by done. eauto. }
  destruct Hl as [es Hl].
  rewrite split_slash_cons, Hl by done. cbn [lookup list_lookup].
  apply String.eqb_neq in Hne. by rewrite Hne.
Qed.

End handler.

(** [/roman_number/7/and/more] is answered as [/roman_number/7] is, and
    [/roman_number/x] with 404. *)

Lemma handler_second_element_go :
  go_handler "/roman_number/7/and/more" = go_handler "/roman_number/7" /\
  go_handler "/roman_number/x" = Resp 404 "404 - Not Found".
Proof.
  split.
  - refine (proj2 (handler_second_element trim_space atoi escape_string quote
                     EmptyString "7" "/and/more" eq_refl eq_refl _)).
    right. by exists "and/more".
  - refine (proj1 (handler_second_element trim_space atoi escape_string quote
                     EmptyString "x" EmptyString eq_refl eq_refl _)).
    by left.
Defined.

(** [/numerals/7] is answered with 400. *)

Lemma handler_bad_request_go :
  go_handler "/numerals/7" = Resp 400 "400 - Bad request".
Proof.
  refine (handler_bad_request trim_space atoi escape_string quote
            EmptyString "numerals" "/7" eq_refl eq_refl _ _).
  - right. by exists "7".
  - discriminate.
Defined.

Lemma numeral_cases n :
  (1 <= n <= 10)%Z ->
  n = 1%Z \/ n = 2%Z \/ n = 3%Z \/ n = 4%Z \/ n = 5%Z \/ n = 6%Z \/ n = 7%Z \/
  n = 8%Z \/ n = 9%Z \/ n = 10%Z.
Proof. lia. Qed.

(** X9. The table of numerals: a read gives the empty string exactly for
    the keys outside 1..10; the entries are made of the letters I, V and X;
    and different keys have different entries. *)

Theorem numerals_table n m :
  (numeral n = EmptyString <-> ~ (1 <= n <= 10)%Z) /\
  all_letters (numeral n) = true /\
  ((1 <= n <= 10)%Z -> (1 <= m <= 10)%Z -> numeral n = numeral m -> n = m).
Proof.
  split; [|split].
  - split; [|apply ServerFacts.numeral_missing].
    intros He Hn. apply numeral_cases in Hn.
    repeat (destruct Hn as [->|Hn]; [by vm_compute in He|]). subst. by vm_compute in He.
  - destruct (decide (1 <= n <= 10)%Z) as [Hn|Hn].
    + apply numeral_cases in Hn.
      repeat (destruct Hn as [->|Hn]; [by vm_compute|]). subst. by vm_compute.
    + by rewrite ServerFacts.numeral_missing.
  - intros Hn Hm. apply numeral_cases in Hn. apply numeral_cases in Hm.
    repeat (destruct Hn as [->|Hn]);
      repeat (destruct Hm as [->|Hm]); subst; vm_compute; congruence.
Qed.

Lemma escape_letters s : all_letters s = true -> escape_string s = s.
Proof.
  induction s as [|c s IH]; simpl; [done|].
  intros [Hc Hs]%andb_true_iff. rewrite (IH Hs). unfold numeral_letter in Hc.
  repeat (apply orb_true_iff in Hc as [Hc|Hc]); apply Ascii.eqb_eq in Hc as ->; done.
Qed.

Lemma quote_letters s :
  all_letters s = true -> quote s = String "034" (s ++ String "034" EmptyString).
Proof.
  unfold quote. intros Hs. f_equal.
  induction s as [|c s IH]; simpl in *; [done|].
  apply andb_true_iff in Hs as [Hc Hs]. rewrite (IH Hs). unfold numeral_letter in Hc.
  repeat (apply orb_true_iff in Hc as [Hc|Hc]); apply Ascii.eqb_eq in Hc as ->; done.
Qed.

Lemma numeral_letters n :
  (1 <= n <= 10)%Z -> all_letters (numeral n) = true /\ numeral n <> EmptyString.
Proof.
  intros Hn. apply numeral_cases in Hn.
  repeat (destruct Hn as [->|Hn]; [by vm_compute|]). subst. by vm_compute.
Qed.

(** X10. With the library calls of Go: a path [/roman_number/k] whose [k],
    with the white space of Unicode trimmed from both ends, parses to a
    number from 1 to 10 is answered with 200 and the numeral of the table
    between two double quotes; escaping and quoting change no letter of
    it. *)

Theorem handler_numeral pre k n :
  slash_free pre = true -> slash_free k = true ->
  atoi (trim_space k) = n -> (1 <= n <= 10)%Z ->
  go_handler (pre ++ "/roman_number/" ++ k) =
    Resp 200 (String "034" (numeral n ++ String "034" EmptyString)) /\
  numeral n <> EmptyString.
Proof.
  intros Hpre Hk Hn Hr.
  destruct (numeral_letters n Hr) as [Hl Hne]. split; [|done].
  unfold go_handler.
  rewrite (handler_element trim_space atoi escape_string quote pre k Hpre Hk), Hn.
  assert (Hb : ((n =? 0) || (n >? 10))%Z = false).
  { apply orb_false_iff. split; [apply Z.eqb_neq|rewrite Z.gtb_ltb; apply Z.ltb_ge]; lia. }
  by rewrite Hb, escape_letters, quote_letters.
Qed.

(** A blank before the 9 ([/roman_number/%209] before decoding): the
    answer is IX between double quotes. A no-break space, U+00A0, before
    the 7 and a line separator, U+2028, after it: the answer is VII. *)

Lemma handler_numeral_nine :
  go_handler "/roman_number/ 9" =
    Resp 200 (String "034" ("IX" ++ String "034" EmptyString)) /\
  go_handler ("/roman_number/" ++ nbsp_seven) =
    Resp 200 (String "034" ("VII" ++ String "034" EmptyString)).
Proof.
  split.
  - refine (proj1 (handler_numeral EmptyString " 9" 9 eq_refl eq_refl eq_refl _)). lia.
  - refine (proj1 (handler_numeral EmptyString nbsp_seven 7 eq_refl eq_refl eq_refl _)). lia.
Defined.

End ServerMore.

(** * The pipeline on slices *)

Lemma store_each_map (g : Z -> Z) (values stored rest : list Z) :
  length rest = length values ->
  Batch.store_each g values (length stored) (stored ++ rest) = stored ++ map g values.
Proof.
  revert stored rest. induction values as [|v values IH]; intros stored [|r rest] Hl;
    simplify_eq/=; [done|].
  rewrite (insert_app_r_alt stored) by lia. rewrite Nat.sub_diag. simpl.
  rewrite (cons_middle (g v) stored rest), app_assoc.
  replace (S (length stored)) with (length (stored ++ [g v])) by (rewrite length_app; simpl; lia).
  rewrite IH by done. by rewrite <- app_assoc.
Qed.

Lemma wrap_int_mod z : (wrap_int z mod 2 ^ 64 = z mod 2 ^ 64)%Z.
Proof.
  unfold wrap_int.
  rewrite <- (Zminus_mod_idemp_l ((z + 2 ^ 63) mod 2 ^ 64)), Z.mod_mod by lia.
  rewrite Zminus_mod_idemp_l. f_equal. lia.
Qed.

Lemma wrap_mul_l x y : ((wrap_int x * y) mod 2 ^ 64 = (x * y) mod 2 ^ 64)%Z.
Proof. by rewrite <- Z.mul_mod_idemp_l, wrap_int_mod, Z.mul_mod_idemp_l by lia. Qed.

Lemma wrap_mul_r x y : ((x * wrap_int y) mod 2 ^ 64 = (x * y) mod 2 ^ 64)%Z.
Proof. by rewrite <- Z.mul_mod_idemp_r, wrap_int_mod, Z.mul_mod_idemp_r by lia. Qed.

Lemma wrap_add_l x y : ((wrap_int x + y) mod 2 ^ 64 = (x + y) mod 2 ^ 64)%Z.
Proof. by rewrite <- Z.add_mod_idemp_l, wrap_int_mod, Z.add_mod_idemp_l by lia. Qed.

Lemma wrap_add_r x y : ((x + wrap_int y) mod 2 ^ 64 = (x + y) mod 2 ^ 64)%Z.
Proof. by rewrite <- Z.add_mod_idemp_r, wrap_int_mod, Z.add_mod_idemp_r by lia. Qed.

Lemma wrap_int_eq a b : (a mod 2 ^ 64 = b mod 2 ^ 64)%Z -> wrap_int a = wrap_int b.
Proof.
  intros H. unfold wrap_int. f_equal.
  rewrite <- (Zplus_mod_idemp_l a), <- (Zplus_mod_idemp_l b). by rewrite H.
Qed.

Lemma wrap_int_in z : in_int (wrap_int z).
Proof.
  unfold in_int, wrap_int, min_int, max_int.
  pose proof (Z.mod_pos_bound (z + 2 ^ 63) (2 ^ 64)). lia.
Qed.

Lemma multiply_map (values : list Z) (c : Z) :
  Batch.multiply values c = map (fun v => wrap_int (v * c)) values.
Proof.
  unfold Batch.multiply.
  apply (store_each_map _ values [] (replicate (length values) 0%Z)).
  by rewrite length_replicate.
Qed.

Lemma add_map (values : list Z) (c : Z) :
  Batch.add values c = map (fun v => wrap_int (v + c)) values.
Proof.
  unfold Batch.add.
  apply (store_each_map _ values [] (replicate (length values) 0%Z)).
  by rewrite length_replicate.
Qed.

(** X11. [multiply] and [add] on slices: the result has the length of
    [values], and its element at every index is the element of [values]
    there, multiplied or added to in 64-bit arithmetic; no store falls
    outside the new slice and no element keeps the zero it was made with. *)

Theorem batch_stage_maps (values : list Z) (c : Z) :
  Batch.multiply values c = map (fun v => wrap_int (v * c)) values /\
  Batch.add values c = map (fun v => wrap_int (v + c)) values /\
  length (Batch.multiply values c) = length values /\
  length (Batch.add values c) = length values /\
  Forall in_int (Batch.multiply values c) /\ Forall in_int (Batch.add values c).
Proof.
  rewrite multiply_map, add_map, !length_map. split_and!; try done.
  - apply Forall_fmap, Forall_true. intros v. apply wrap_int_in.
  - apply Forall_fmap, Forall_true. intros v. apply wrap_int_in.
Qed.

(** X12. How the stages on slices compose, overflow included: two
    multiplications are one by the product, two additions one by the sum,
    and a multiplication after an addition is the addition of the
    multiplied constant after the multiplication. *)

Theorem batch_stages_compose (values : list Z) (a b : Z) :
  Batch.multiply (Batch.multiply values a) b = Batch.multiply values (wrap_int (a * b)) /\
  Batch.add (Batch.add values a) b = Batch.add values (wrap_int (a + b)) /\
  Batch.multiply (Batch.add values a) b =
    Batch.add (Batch.multiply values b) (wrap_int (a * b)).
Proof.
  repeat (rewrite multiply_map || rewrite add_map). rewrite !map_map.
  split_and!; apply map_ext; intros v; apply wrap_int_eq;
    rewrite ?wrap_mul_l, ?wrap_mul_r, ?wrap_add_l, ?wrap_add_r; f_equal; lia.
Qed.

(** * What the streams carry *)

Lemma delivered_other c c' v i j tr :
  c' <> c -> delivered c' (tr ++ [Ev c v i j]) = delivered c' tr.
Proof.
  intros Hne. rewrite delivered_snoc. simpl.
  rewrite decide_False by done. by rewrite app_nil_r.
Qed.

Lemma delivered_same c v i j tr :
  delivered c (tr ++ [Ev c v i j]) = delivered c tr ++ [v].
Proof. rewrite delivered_snoc. simpl. by rewrite decide_True. Qed.

Lemma stream_ok_frame s s' g :
  trace s' = trace s -> output s' = output s -> closed s ⊆ closed s' ->
  stream_ok s g -> stream_ok s' g.
Proof.
  intros Ht Ho Hc. unfold stream_ok. rewrite Ht, Ho.
  destruct (code g); try done.
  intros [(m & Hm & Hcl) Hn]. split; [|done]. exists m. split; [done|].
  intros Hpos. apply Hc. auto.
Qed.

(** The goroutine that sends, after the hand-over. *)

Lemma stream_ok_sent s g d' c v i j ps wg o pk :
  op_of g = OSelect d' c v ->
  is_multiplex (code g) = false ->
  (forall c', reads (code g) = Some c' -> c' <> c) ->
  stream_ok s g ->
  stream_ok (State ps (closed s) wg o (trace s ++ [Ev c v i j]) pk)
            (Go (code g) (resume (code g) (ctl g) RSent)).
Proof.
  unfold op_of, stream_ok. destruct g as [st p]. cbn [code ctl trace closed output].
  intros Hop Hmux Hrd.
  destruct st as [dd out integers|dd out fn|dd inp out f|dd inp out num|dd inp out w|w out|dd inp];
    destruct p as [k|k y| |]; simpl in Hop; repeat case_match; simplify_eq; try done; simpl.
  - intros Hd. rewrite (delivered_same c), Hd. by erewrite take_S_r.
  - intros (k' & [= <-] & Hd). exists (S k). split; [done|].
    rewrite (delivered_same c), Hd, seq_S, map_app. done.
  - intros Hd.
    rewrite (delivered_same c), (delivered_other c inp) by (apply Hrd; done).
    by rewrite app_nil_r.
  - intros [(m & Hm & Hcl) [Hlen Hlt]].
    rewrite (delivered_same c), (delivered_other c inp) by (apply Hrd; done).
    rewrite app_nil_r. split; [by exists m|].
    rewrite length_app. simpl. lia.
Qed.

(** The goroutine that receives. *)

Lemma stream_ok_received s g c v i j ps wg pk :
  op_of g = ORecv c -> c ∉ closed s ->
  is_multiplex (code g) = false ->
  (forall c', closes (code g) = Some c' -> c' <> c) ->
  stream_ok s g ->
  stream_ok (State ps (closed s) wg (output s ++ prints (code g) (ctl g) (RVal v))
                   (trace s ++ [Ev c v i j]) pk)
            (Go (code g) (resume (code g) (ctl g) (RVal v))).
Proof.
  unfold op_of, stream_ok. destruct g as [st p]. cbn [code ctl trace closed output].
  intros Hop Hopen Hmux Hcl.
  destruct st as [dd out integers|dd out fn|dd inp out f|dd inp out num|dd inp out w|w out|dd inp];
    destruct p as [k|k y| |]; simpl in Hop; repeat case_match; simplify_eq; try done.
  - intros Hd.
    rewrite (delivered_same c), (delivered_other c out) by (apply Hcl; done).
    simpl in Hd. rewrite app_nil_r in Hd. rewrite omap_app, <- Hd. simpl.
    by destruct (f v).
  - simpl. intros [(m & Hm & Hc) [Hlen Hle]].
    rewrite (delivered_same c), (delivered_other c out) by (apply Hcl; done).
    assert (m = 0) as -> by (destruct m; [done|]; destruct Hopen; apply Hc; lia).
    simpl in *. rewrite !app_nil_r in Hm. split.
    + exists 0. simpl. rewrite app_nil_r, Hm. split; [done|lia].
    + match goal with H : (_ <? _)%Z = true |- _ => apply Z.ltb_lt in H end. lia.
  - simpl. intros ->. by rewrite (delivered_same c).
Qed.

(** Any other goroutine. *)

Lemma stream_ok_other s g c v i j ps wg o pk :
  is_multiplex (code g) = false ->
  (forall c', closes (code g) = Some c' -> c' <> c) ->
  (forall c', reads (code g) = Some c' -> c' <> c) ->
  (is_main (code g) = true -> o = output s) ->
  stream_ok s g ->
  stream_ok (State ps (closed s) wg o (trace s ++ [Ev c v i j]) pk) g.
Proof.
  unfold stream_ok. destruct g as [st p]. cbn [code ctl trace closed output].
  intros Hmux Hcl Hrd Hmain.
  destruct st as [dd out integers|dd out fn|dd inp out f|dd inp out num|dd inp out w|w out|dd inp];
    simpl in *; try done.
  - by rewrite (delivered_other c out) by (apply Hcl; done).
  - by rewrite (delivered_other c out) by (apply Hcl; done).
  - by rewrite (delivered_other c out), (delivered_other c inp)
      by first [by apply Hcl | by apply Hrd].
  - by rewrite (delivered_other c out), (delivered_other c inp)
      by first [by apply Hcl | by apply Hrd].
  - rewrite (delivered_other c inp) by (apply Hrd; done). by rewrite Hmain.
Qed.

Section streams.
Context (d : chan) (stages : list stage) (wg0 : wgid -> nat).
Hypothesis Hwf : wf_net d stages wg0.
Hypothesis Hst : straight stages.

Lemma reader_unique s i j gi gj c :
  inv stages s -> procs s !! i = Some gi -> procs s !! j = Some gj ->
  reads (code gi) = Some c -> reads (code gj) = Some c -> i = j.
Proof.
  intros Hi Hgi Hgj Hci Hcj.
  eapply (omap_NoDup_lookup reads stages); eauto using straight_reader, code_lookup.
Qed.

Lemma reads_not_closes s i g c :
  inv stages s -> procs s !! i = Some g -> reads (code g) = Some c ->
  closes (code g) <> Some c.
Proof.
  intros Hi Hg Hr Hc.
  destruct (wf_reads _ _ _ Hwf _ _ _ (code_lookup _ _ _ _ Hi Hg) Hr) as (j & st' & Hlt & Hj & Hcl).
  assert (i = j); [|lia].
  eapply (omap_NoDup_lookup closes stages); eauto using wf_owner, code_lookup.
Qed.

Lemma no_multiplex s i g :
  inv stages s -> procs s !! i = Some g -> is_multiplex (code g) = false.
Proof.
  intros Hi Hg. apply (straight_single _ Hst).
  eapply list_elem_of_lookup_2, code_lookup; eauto.
Qed.

Lemma streams_boot : streams (boot stages wg0).
Proof.
  intros i g [Hst' Hc]%boot_lookup. unfold stream_ok. rewrite Hc. simpl.
  destruct (code g); simpl; try done.
  - exists 0. split; reflexivity.
  - split; [exists 0; split; [reflexivity|lia]|]. split; [done|lia].
Qed.

(** A goroutine moving on its own. *)

Lemma streams_set s i g p' cl wg pk :
  procs s !! i = Some g -> closed s ⊆ cl -> streams s ->
  stream_ok (State (procs s) cl wg (output s) (trace s) pk) (Go (code g) p') ->
  streams (State (<[i:=Go (code g) p']> (procs s)) cl wg (output s) (trace s) pk).
Proof.
  intros Hg Hcl Hs Hnew k gk. cbn [procs].
  destruct (decide (k = i)) as [->|Hne].
  - rewrite list_lookup_insert_eq by (by eapply lookup_lt_Some). intros [= <-].
    revert Hnew. apply stream_ok_frame; [done|done|simpl; set_solver].
  - rewrite list_lookup_insert_ne by done. intros Hk.
    apply (stream_ok_frame s); [done|done|exact Hcl|by apply (Hs k)].
Qed.

Lemma streams_moves s s' :
  inv stages s -> open_inv d s -> streams s -> moves s s' -> d ∉ closed s' ->
  streams s'.
Proof.
  intros Hi Ho Hs Hm.
  destruct Hm as [i g c Hg Hop Hcl|i g d' c v Hg Hop Hcl|i g c Hg Hop Hcl
    |i g w n Hg Hop Hw|i g w Hg Hop Hw|i j gi gj d' c v Hne Hgi Hgj Hopi Hopj Hcl];
    cbn [closed]; intros Hd.
  - (* a receive from a closed stream *)
    apply streams_set; [done..|]. pose proof (Hs i g Hg) as Hok.
    unfold op_of, stream_ok in *. destruct g as [st p]. cbn [code ctl trace closed output] in *.
    destruct st as [dd out integers|dd out fn|dd inp out f|dd inp out num|dd inp out w|w out|dd inp];
      destruct p as [k|k y| |]; simpl in Hop; repeat case_match; simplify_eq; try done; simpl in *.
    destruct Hok as [(m & Hm & Hc) [Hlen Hle]]. split.
    + exists (S m). rewrite app_nil_r in Hm. rewrite Hm. split; [|done].
      rewrite <- app_assoc. f_equal. symmetry. apply (replicate_S_end m VNil).
    + match goal with H : (_ <? _)%Z = true |- _ => apply Z.ltb_lt in H end. lia.
  - (* the [done] case of a select: [done] is open *)
    destruct Hd. by rewrite <- (done_shared _ _ _ Hwf s i g d' c v Hi Hg Hop).
  - (* a close *)
    assert (Hdc : d ∉ closed s) by set_solver.
    pose proof (open_noexit _ _ Ho i g Hg) as Hne.
    apply streams_set; [done|set_solver|done|]. pose proof (Hs i g Hg) as Hok.
    unfold op_of, stream_ok in *. destruct g as [st p]. cbn [code ctl trace closed output] in *.
    destruct st as [dd out integers|dd out fn|dd inp out f|dd inp out num|dd inp out w|w out|dd inp];
      destruct p as [k|k y| |]; simpl in Hop; repeat case_match; simplify_eq; try done;
      simpl in *; try (by destruct Hne).
    + rewrite Hok. apply take_ge. by apply lookup_ge_None.
    + destruct Hok as [(m & Hm & Hc) [Hlen Hle]]. split.
      * exists m. split; [done|]. set_solver.
      * match goal with H : (_ <? _)%Z = false |- _ => apply Z.ltb_ge in H end. lia.
  - (* [wg.Done()] *)
    apply streams_set; [done..|].
    unfold op_of, stream_ok in *. destruct g as [st p]. cbn [code ctl] in *.
    by destruct st, p; simpl in Hop; repeat case_match; simplify_eq.
  - (* [wg.Wait()] *)
    apply streams_set; [done..|].
    unfold op_of, stream_ok in *. destruct g as [st p]. cbn [code ctl] in *.
    by destruct st, p; simpl in Hop; repeat case_match; simplify_eq.
  - (* a value handed over *)
    destruct (pending_select _ _ _ _ _ Hopi) as (_ & _ & _ & _ & Hown).
    pose proof (no_multiplex s i gi Hi Hgi) as Hmi.
    assert (Hci : closes (code gi) = Some c).
    { destruct Hown as [?|(dd & inp & w & Hc)]; [done|]. by rewrite Hc in Hmi. }
    destruct (pending_recv _ _ _ Hopj) as [Hrj _].
    intros k gk. cbn [procs].
    destruct (decide (k = j)) as [->|Hkj].
    { rewrite list_lookup_insert_eq
        by (rewrite length_insert; by eapply lookup_lt_Some).
      intros [= <-]. apply stream_ok_received; try done.
      - by eapply no_multiplex.
      - intros c' Hc' ->. by eapply (reads_not_closes s j gj).
      - by apply (Hs j). }
    rewrite list_lookup_insert_ne by done.
    destruct (decide (k = i)) as [->|Hki].
    { rewrite list_lookup_insert_eq by (by eapply lookup_lt_Some).
      intros [= <-]. eapply stream_ok_sent; try done.
      - intros c' Hc' ->. by eapply (reads_not_closes s i gi). 
      - by apply (Hs i). }
    rewrite list_lookup_insert_ne by done. intros Hk.
    apply stream_ok_other; try (by apply (Hs k)).
    + by eapply no_multiplex.
    + intros c' Hc' ->. apply Hki. by eapply (owner_unique _ _ _ Hwf s k i).
    + intros c' Hc' ->. apply Hkj. by eapply (reader_unique s k j).
    + intros Hmain. destruct (code gj) eqn:Hcj, (ctl gj); simpl; rewrite ?app_nil_r; try done.
      assert (Hmd : forall x g', procs s !! x = Some g' -> is_main (code g') = true ->
                                 closes (code g') = Some d).
      { intros x g' Hx Hm'. destruct (code g') as [| | | | | |dm im] eqn:Hcx; try done.
        simpl. f_equal. apply (wf_done _ _ _ Hwf (Main dm im)); [|done].
        eapply list_elem_of_lookup_2. rewrite <- Hcx. by eapply code_lookup. }
      destruct Hkj. eapply (owner_unique _ _ _ Hwf s k j gk gj d); eauto.
      apply (Hmd j); [done|]. by rewrite Hcj.
Qed.

(** Once [done] is closed nothing more is printed. *)

Lemma output_frozen s s' :
  inv stages s -> d ∈ closed s -> moves s s' -> output s' = output s.
Proof.
  intros Hi Hd Hm.
  destruct Hm as [i g c Hg Hop Hcl|i g d' c v Hg Hop Hcl|i g c Hg Hop Hcl
    |i g w n Hg Hop Hw|i g w Hg Hop Hw|i j gi gj d' c v Hne Hgi Hgj Hopi Hopj Hcl];
    cbn [output]; try done.
  destruct (code gj) as [| | | | | |dm im] eqn:Hcj; try (by rewrite app_nil_r).
  assert (dm = d) as ->.
  { apply (wf_done _ _ _ Hwf (Main dm im)); [|done].
    eapply list_elem_of_lookup_2. rewrite <- Hcj. by eapply code_lookup. }
  assert (Hh : ctl gj = Halted).
  { apply (inv_closed _ _ Hi j gj d Hgj); [by rewrite Hcj|done]. }
  unfold op_of in Hopj. by rewrite Hcj, Hh in Hopj.
Qed.

Lemma streams_run sched s :
  run sched (boot stages wg0) = Some s -> d ∉ closed s -> streams s.
Proof.
  assert (Hgen : forall sched s0 s,
            inv stages s0 /\ open_inv d s0 /\ (d ∉ closed s0 -> streams s0) ->
            run sched s0 = Some s ->
            inv stages s /\ open_inv d s /\ (d ∉ closed s -> streams s)).
  { clear sched s. induction sched as [|ch sched IH]; intros s0 s (Hi & Ho & Hs); simpl.
    - by intros [= <-].
    - destruct (exec1 ch s0) as [s1|] eqn:He; [simpl|done].
      pose proof (exec1_moves _ _ _ Hwf _ _ _ Hi He) as Hm.
      apply IH. split_and!.
      + by eapply inv_exec1.
      + by eapply open_inv_moves.
      + intros Hd. apply (streams_moves s0); try done.
        apply Hs. intros Hd0. apply Hd. by apply (moves_closed _ _ Hm). }
  intros Hrun. eapply Hgen; [|exact Hrun]. split_and!.
  - by eapply inv_boot.
  - apply open_inv_boot.
  - intros _. apply streams_boot.
Qed.

(** What has been printed when [done] is closed is what had been printed
    when [main] was about to close it. *)

Lemma cancel_output (T : list value) :
  (forall s i g, inv stages s -> open_inv d s -> d ∉ closed s -> streams s ->
     procs s !! i = Some g -> op_of g = OClose d -> output s = T) ->
  forall sched s, run sched (boot stages wg0) = Some s -> d ∈ closed s -> output s = T.
Proof.
  intros HT.
  assert (Hgen : forall sched s0 s,
            inv stages s0 /\ open_inv d s0 /\ (d ∉ closed s0 -> streams s0) /\
              (d ∈ closed s0 -> output s0 = T) ->
            run sched s0 = Some s -> d ∈ closed s -> output s = T).
  { induction sched as [|ch sched IH]; intros s0 s (Hi & Ho & Hs & Hout); simpl.
    - intros [= <-]. done.
    - destruct (exec1 ch s0) as [s1|] eqn:He; [simpl|done].
      pose proof (exec1_moves _ _ _ Hwf _ _ _ Hi He) as Hm.
      apply IH. split_and!.
      + by eapply inv_exec1.
      + by eapply open_inv_moves.
      + intros Hd. apply (streams_moves s0); try done.
        apply Hs. intros Hd0. apply Hd. by apply (moves_closed _ _ Hm).
      + intros Hd1. destruct (decide (d ∈ closed s0)) as [Hd0|Hd0].
        { rewrite (output_frozen s0 s1); auto. }
        destruct Hm as [i g c Hg Hop Hcl|i g d' c v Hg Hop Hcl|i g c Hg Hop Hcl
          |i g w n Hg Hop Hw|i g w Hg Hop Hw|i j gi gj d' c v Hne Hgi Hgj Hopi Hopj Hcl];
          cbn [closed output] in *; try done.
        assert (c = d) as -> by set_solver.
        apply (HT s0 i g); auto. }
  intros sched s Hrun. eapply Hgen; [|exact Hrun]. split_and!.
  - by eapply inv_boot.
  - apply open_inv_boot.
  - intros _. apply streams_boot.
  - simpl. set_solver.
Qed.

(** The same for a property of what has been printed. *)

Lemma cancel_output_with (P : list value -> Prop) :
  (forall s i g, inv stages s -> open_inv d s -> d ∉ closed s -> streams s ->
     procs s !! i = Some g -> op_of g = OClose d -> P (output s)) ->
  forall sched s, run sched (boot stages wg0) = Some s -> d ∈ closed s -> P (output s).
Proof.
  intros HT.
  assert (Hgen : forall sched s0 s,
            inv stages s0 /\ open_inv d s0 /\ (d ∉ closed s0 -> streams s0) /\
              (d ∈ closed s0 -> P (output s0)) ->
            run sched s0 = Some s -> d ∈ closed s -> P (output s)).
  { induction sched as [|ch sched IH]; intros s0 s (Hi & Ho & Hs & Hout); simpl.
    - intros [= <-]. done.
    - destruct (exec1 ch s0) as [s1|] eqn:He; [simpl|done].
      pose proof (exec1_moves _ _ _ Hwf _ _ _ Hi He) as Hm.
      apply IH. split_and!.
      + by eapply inv_exec1.
      + by eapply open_inv_moves.
      + intros Hd. apply (streams_moves s0); try done.
        apply Hs. intros Hd0. apply Hd. by apply (moves_closed _ _ Hm).
      + intros Hd1. destruct (decide (d ∈ closed s0)) as [Hd0|Hd0].
        { rewrite (output_frozen s0 s1); auto. }
        destruct Hm as [i g c Hg Hop Hcl|i g d' c v Hg Hop Hcl|i g c Hg Hop Hcl
          |i g w n Hg Hop Hw|i g w Hg Hop Hw|i j gi gj d' c v Hne Hgi Hgj Hopi Hopj Hcl];
          cbn [closed output] in *; try done.
        assert (c = d) as -> by set_solver.
        apply (HT s0 i g); auto. }
  intros sched s Hrun. eapply Hgen; [|exact Hrun]. split_and!.
  - by eapply inv_boot.
  - apply open_inv_boot.
  - intros _. apply streams_boot.
  - simpl. set_solver.
Qed.

End streams.

(** ** Generators without end *)

Section taken.
Context (d : chan) (stages : list stage) (wg0 : wgid -> nat).
Hypothesis Hwf : wf_net d stages wg0.
Hypothesis Hrt : repeat_taken stages.

(** A [repeatFn] hands over only what a [take] asks for: every step still
    uses up some potential. *)

Lemma potential_moves_taken s s' :
  inv stages s -> moves s s' -> potential s' < potential s.
Proof.
  intros Hi Hm.
  destruct Hm as [i g c Hg Hop Hcl|i g d' c v Hg Hop Hcl|i g c Hg Hop Hcl
    |i g w n Hg Hop Hw|i g w Hg Hop Hw|i j gi gj d' c v Hne Hgi Hgj Hopi Hopj Hcl];
    unfold op_of in *.
  - apply potential_set; [done|]. destruct g as [st p]; simpl in *.
    apply local_potential. by rewrite Hop.
  - apply potential_set; [done|]. destruct g as [st p]; simpl in *.
    apply local_potential. by rewrite Hop.
  - apply potential_set; [done|]. destruct g as [st p]; simpl in *.
    destruct (pending_close _ _ _ Hop) as (_ & _ & Hn).
    pose proof (live_potential (length (procs s)) i st p Hn).
    unfold potential_at at 1. by destruct st.
  - apply potential_set; [done|]. destruct g as [st p]; simpl in *.
    destruct (pending_wgdone _ _ _ Hop) as (-> & _).
    unfold potential_at. destruct st; simpl; lia.
  - apply potential_set; [done|]. destruct g as [st p]; simpl in *.
    destruct (pending_wgwait _ _ _ Hop) as ([k ->] & out & ->). unfold potential_at; simpl. lia.
  - pose proof (comm_order _ _ _ Hwf _ _ _ _ _ _ _ _ Hi Hgi Hgj Hopi Hopj) as Hij.
    pose proof (lookup_lt_Some _ _ _ Hgj) as Hjn.
    unfold potential; state_simpl. rewrite !length_insert.
    set (n := length (procs s)) in *.
    pose proof (sum_list_imap_insert (potential_at n) (procs s) i gi
      (Go (code gi) (resume (code gi) (ctl gi) RSent)) Hgi) as H1.
    pose proof (sum_list_imap_insert (potential_at n)
      (<[i:=Go (code gi) (resume (code gi) (ctl gi) RSent)]> (procs s)) j gj
      (Go (code gj) (resume (code gj) (ctl gj) (RVal v)))) as H2.
    rewrite list_lookup_insert_ne in H2 by done. specialize (H2 Hgj).
    destruct (is_repeat (code gi)) eqn:Hrep.
    + destruct (pending_select _ _ _ _ _ Hopi) as (_ & _ & _ & _ & Hown).
      destruct (pending_recv _ _ _ Hopj) as [Hrj _].
      assert (Hci : closes (code gi) = Some c).
      { destruct Hown as [?|(dd & inp & w & Hc)]; [done|]. by rewrite Hc in Hrep. }
      destruct (Hrt i (code gi) c j (code gj)) as (dd & inp & out & num & Hcj);
        eauto using code_lookup.
      destruct gi as [sti pi], gj as [stj pj]; simpl in *. subst stj.
      destruct sti; try done. destruct pi; simpl in Hopi; try done.
      destruct pj as [k'|k' y| |]; simpl in Hopj; try done.
      destruct (Z.of_nat k' <? num)%Z eqn:Hk; [|done]. apply Z.ltb_lt in Hk.
      unfold potential_at in *; simpl in *.
      replace (Z.to_nat (num - Z.of_nat k')) with (S (Z.to_nat (num - Z.of_nat (S k'))))
        in * by lia.
      lia.
    + pose proof (sender_potential n i _ _ _ _ _ Hopi Hrep) as H3.
      pose proof (receiver_potential n j _ _ _ v Hopj Hjn) as H4.
      destruct gi as [sti pi], gj as [stj pj]; simpl in *.
      unfold held in *. lia.
Qed.

Lemma run_potential_taken sched s s' :
  inv stages s -> run sched s = Some s' -> potential s' + length sched <= potential s.
Proof.
  intros Hi. revert s Hi. induction sched as [|ch sched IH]; intros s Hi; simpl.
  { intros [= <-]. lia. }
  destruct (exec1 ch s) as [s1|] eqn:He; [simpl|done]. intros Hr.
  pose proof (inv_exec1 _ _ _ Hwf _ _ _ Hi He) as Hi1. specialize (IH _ Hi1 Hr).
  pose proof (potential_moves_taken _ _ Hi (exec1_moves _ _ _ Hwf _ _ _ Hi He)). lia.
Qed.

End taken.

Section repeat_take.
Context (fn : nat -> value) (num : Z).

Let rt_stages : list stage := [RepeatFn 0 1 fn; Take 0 1 2 num; Main 0 2].

Lemma repeat_take_wf : wf_net 0 rt_stages no_wg.
Proof.
  split.
  - intros st d' Hst Hd. unfold rt_stages in Hst. set_unfold.
    destruct Hst as [->|[->|[->|[]]]]; simpl in Hd; congruence.
  - simpl. repeat constructor; set_solver.
  - intros [|[|[|i]]] st c Hi Hr; simplify_eq/=.
    + exists 0, (RepeatFn 0 1 fn). split; [lia|done].
    + exists 1, (Take 0 1 2 num). split; [lia|done].
  - intros [|[|[|i]]] ?????; simplify_eq/=.
  - intros [|[|[|i]]] ??????; simplify_eq/=.
  - done.
Qed.

Lemma repeat_take_straight : straight rt_stages.
Proof.
  split.
  - simpl. repeat constructor; set_solver.
  - intros st Hst. unfold rt_stages in Hst. set_unfold.
    by destruct Hst as [->|[->|[->|[]]]].
Qed.

Lemma repeat_take_taken : repeat_taken rt_stages.
Proof.
  intros [|[|[|i]]] st c [|[|[|j]]] st' Hi Hrep Hc Hj Hr; simplify_eq/=. eauto.
Qed.

(** When [main] is about to close [done], [take] has handed on the first
    [num] results of [fn]. *)

Lemma repeat_take_closing s i g :
  inv rt_stages s -> open_inv 0 s -> 0 ∉ closed s -> streams s ->
  procs s !! i = Some g -> op_of g = OClose 0 ->
  output s = map fn (seq 0 (Z.to_nat num)).
Proof.
  intros Hi Ho Hd Hs Hg Hop.
  destruct (stage_lookup _ s 0 _ Hi (eq_refl : rt_stages !! 0 = Some _)) as (g0 & Hg0 & Hc0).
  destruct (stage_lookup _ s 1 _ Hi (eq_refl : rt_stages !! 1 = Some _)) as (g1 & Hg1 & Hc1).
  destruct (stage_lookup _ s 2 _ Hi (eq_refl : rt_stages !! 2 = Some _)) as (g2 & Hg2 & Hc2).
  assert (i = 2) as ->.
  { apply pending_close in Hop as (Hcl & _).
    apply (owner_unique _ _ _ repeat_take_wf s i 2 g g2 0); try done. by rewrite Hc2. }
  assert (g = g2) as -> by congruence.
  assert (Hx : ctl g2 = AtExit).
  { unfold op_of in Hop. rewrite Hc2 in Hop. by destruct (ctl g2). }
  assert (H2 : 2 ∈ closed s).
  { apply (open_range _ _ Ho 2 g2 2 Hg2); rewrite ?Hc2; auto. }
  assert (Hh1 : ctl g1 = Halted).
  { apply (inv_closed _ _ Hi 1 g1 2 Hg1); [by rewrite Hc1|done]. }
  pose proof (Hs 0 g0 Hg0) as Hs0. pose proof (Hs 1 g1 Hg1) as Hs1.
  pose proof (Hs 2 g2 Hg2) as Hs2.
  unfold stream_ok in Hs0, Hs1, Hs2. rewrite Hc0 in Hs0. rewrite Hc1, Hh1 in Hs1.
  rewrite Hc2 in Hs2. simpl in Hs1.
  destruct Hs0 as (k & Hk & Hd1). destruct Hs1 as [(m & Hm & Hcl) Hlen].
  assert (m = 0) as ->.
  { destruct m; [done|]. assert (H1 : 1 ∈ closed s) by (apply Hcl; lia).
    apply (inv_closed _ _ Hi 0 g0 1 Hg0) in H1; [|by rewrite Hc0]. congruence. }
  simpl in Hm. rewrite !app_nil_r in Hm.
  rewrite Hs2, Hm, Hd1. rewrite Hm, Hd1, length_map, length_seq in Hlen. by rewrite Hlen.
Qed.

Lemma repeat_take_correct sched s :
  run sched (repeat_take_net fn num) = Some s ->
  length sched <= 6 * Z.to_nat num + 9 /\
  (~ halted s -> exists ch s', exec1 ch s = Some s') /\
  (halted s -> output s = map fn (seq 0 (Z.to_nat num))).
Proof.
  intros Hrun.
  destruct (reach_inv _ _ _ repeat_take_wf _ _ Hrun) as [Hi Ho].
  split; [|split].
  - pose proof (run_potential_taken _ _ _ repeat_take_wf repeat_take_taken _ _ _
                  (inv_boot _ _ _ repeat_take_wf) Hrun) as Hp.
    pose proof (potential_boot rt_stages no_wg) as Hb. simpl in Hb.
    unfold repeat_take_net in *. fold rt_stages in Hp. lia.
  - apply (progress _ _ _ repeat_take_wf s 2 2 Hi). done.
  - intros Hh.
    apply (cancel_output _ _ _ repeat_take_wf repeat_take_straight _
             repeat_take_closing sched s Hrun).
    destruct (stage_lookup _ s 2 _ Hi (eq_refl : rt_stages !! 2 = Some _)) as (g2 & Hg2 & Hc2).
    apply (inv_closed _ _ Hi 2 g2 0 Hg2); [by rewrite Hc2|].
    unfold halted in Hh. rewrite Forall_lookup in Hh. by apply (Hh 2).
Qed.

End repeat_take.

(** ** Stages in a row *)

Section pipe.
Context (integers : list value) (fs : list (value -> option value)).

Let p_stages : list stage := pipe_stages integers fs.

Lemma pipe_lookup i st :
  p_stages !! i = Some st ->
  (i = 0 /\ st = Generator 0 1 integers) \/
  (exists j f, i = S j /\ fs !! j = Some f /\ st = Transform 0 (1 + j) (2 + j) f) \/
  (i = S (length fs) /\ st = Main 0 (1 + length fs)).
Proof.
  unfold p_stages, pipe_stages. destruct i as [|i]; simpl.
  { intros [= <-]. by left. }
  rewrite lookup_app_Some, length_imap. intros [Hi|[Hle Hi]].
  - rewrite list_lookup_imap in Hi. destruct (fs !! i) as [f|] eqn:Hf; [|done].
    simpl in Hi. injection Hi as <-. right; left. by exists i, f.
  - destruct (i - length fs) as [|k] eqn:Hk; [|done]. simpl in Hi. injection Hi as <-.
    right; right. split; [|done]. f_equal. lia.
Qed.

Lemma pipe_at_gen : p_stages !! 0 = Some (Generator 0 1 integers).
Proof. done. Qed.

Lemma pipe_at_stage j f :
  fs !! j = Some f -> p_stages !! S j = Some (Transform 0 (1 + j) (2 + j) f).
Proof.
  intros Hf. unfold p_stages, pipe_stages. simpl.
  rewrite lookup_app_l by (rewrite length_imap; by eapply lookup_lt_Some).
  by rewrite list_lookup_imap, Hf.
Qed.

Lemma pipe_at_main : p_stages !! S (length fs) = Some (Main 0 (1 + length fs)).
Proof.
  unfold p_stages, pipe_stages. simpl.
  rewrite lookup_app_r by (by rewrite length_imap).
  by rewrite length_imap, Nat.sub_diag.
Qed.

Ltac pipe_cases H :=
  apply pipe_lookup in H as [[? ?]|[(? & ? & ? & ? & ?)|[? ?]]]; simplify_eq.

Lemma pipe_owner c :
  (c = 1 -> p_stages !! 0 = Some (Generator 0 1 integers)) /\
  (forall j, c = 2 + j -> j < length fs ->
     exists f, fs !! j = Some f /\ p_stages !! S j = Some (Transform 0 (1 + j) (2 + j) f)).
Proof.
  split; [done|]. intros j -> Hj.
  destruct (lookup_lt_is_Some_2 fs j Hj) as [f Hf]. exists f. split; [done|].
  by apply pipe_at_stage.
Qed.

Lemma pipe_wf : wf_net 0 p_stages no_wg.
Proof.
  split.
  - intros st d' [i Hi]%list_elem_of_lookup Hd. pipe_cases Hi; simpl in Hd; congruence.
  - apply omap_NoDup_intro. intros i j x y b Hi Hj Hx Hy.
    pipe_cases Hi; pipe_cases Hj; simpl in *; simplify_eq; lia.
  - intros i st c Hi Hr. pipe_cases Hi; simpl in Hr; simplify_eq.
    + match goal with H : fs !! ?j = Some _ |- _ => rename H into Hf; destruct j as [|k] end.
      * exists 0, (Generator 0 1 integers). split_and!; [lia|done|done].
      * assert (Hj : k < length fs) by (apply lookup_lt_Some in Hf; lia).
        destruct (lookup_lt_is_Some_2 fs k Hj) as [f' Hf'].
        exists (S k), (Transform 0 (1 + k) (2 + k) f').
        split_and!; [lia|by apply pipe_at_stage|done].
    + destruct (length fs) as [|n] eqn:Hn.
      * exists 0, (Generator 0 1 integers). split_and!; [lia|done|done].
      * assert (Hj : n < length fs) by lia.
        destruct (lookup_lt_is_Some_2 fs n Hj) as [f' Hf'].
        exists (S n), (Transform 0 (1 + n) (2 + n) f').
        split_and!; [lia|by apply pipe_at_stage|done].
  - intros i dd c out w Hi. pipe_cases Hi.
  - intros j j' w out out' Hj Hj'. pipe_cases Hj.
  - intros w. unfold no_wg. rewrite filter_length_none; [done|].
    intros st [i Hi]%list_elem_of_lookup. by pipe_cases Hi.
Qed.

Lemma pipe_straight : straight p_stages.
Proof.
  split.
  - apply omap_NoDup_intro. intros i j x y b Hi Hj Hx Hy.
    pipe_cases Hi; pipe_cases Hj; simpl in *; simplify_eq; lia.
  - intros st [i Hi]%list_elem_of_lookup. by pipe_cases Hi.
Qed.

Lemma pipe_no_repeat st : st ∈ p_stages -> is_repeat st = false.
Proof. intros [i Hi]%list_elem_of_lookup. by pipe_cases Hi. Qed.

Lemma pipe_snoc (l : list (value -> option value)) f x :
  pipe (l ++ [f]) x = omap f (pipe l x).
Proof. unfold pipe. by rewrite foldl_app. Qed.

(** A closed stream has carried all that the stages before it make of the
    integers. *)

Lemma pipe_flow s j :
  inv p_stages s -> open_inv 0 s -> 0 ∉ closed s -> streams s ->
  j <= length fs -> (1 + j) ∈ closed s ->
  delivered (1 + j) (trace s) = pipe (take j fs) integers.
Proof.
  intros Hi Ho Hd Hs. induction j as [|j IH]; intros Hj Hc.
  - destruct (stage_lookup _ s 0 _ Hi pipe_at_gen) as (g & Hg & Hcg).
    assert (Hh : ctl g = Halted).
    { apply (inv_closed _ _ Hi 0 g 1 Hg); [by rewrite Hcg|done]. }
    pose proof (Hs 0 g Hg) as Hok. unfold stream_ok in Hok. rewrite Hcg, Hh in Hok.
    by rewrite take_0.
  - assert (Hlt : j < length fs) by lia.
    destruct (lookup_lt_is_Some_2 fs j Hlt) as [f Hf].
    destruct (stage_lookup _ s (S j) _ Hi (pipe_at_stage j f Hf)) as (g & Hg & Hcg).
    assert (Hh : ctl g = Halted).
    { apply (inv_closed _ _ Hi (S j) g (2 + j) Hg); [by rewrite Hcg|done]. }
    assert (Hin : (1 + j) ∈ closed s).
    { apply (open_range _ _ Ho (S j) g (1 + j) Hg); rewrite ?Hcg; auto. }
    pose proof (Hs (S j) g Hg) as Hok. unfold stream_ok in Hok. rewrite Hcg, Hh in Hok.
    simpl in Hok. rewrite app_nil_r in Hok.
    rewrite (take_S_r _ _ f Hf), pipe_snoc, <- IH by (done || lia). exact Hok.
Qed.

Lemma pipe_closing s i g :
  inv p_stages s -> open_inv 0 s -> 0 ∉ closed s -> streams s ->
  procs s !! i = Some g -> op_of g = OClose 0 ->
  output s = pipe fs integers.
Proof.
  intros Hi Ho Hd Hs Hg Hop.
  destruct (stage_lookup _ s _ _ Hi pipe_at_main) as (gm & Hgm & Hcm).
  assert (i = S (length fs)) as ->.
  { apply pending_close in Hop as (Hcl & _).
    apply (owner_unique _ _ _ pipe_wf s _ _ g gm 0); try done. by rewrite Hcm. }
  assert (g = gm) as -> by congruence.
  assert (Hx : ctl gm = AtExit).
  { unfold op_of in Hop. rewrite Hcm in Hop. by destruct (ctl gm). }
  assert (Hin : (1 + length fs) ∈ closed s).
  { apply (open_range _ _ Ho _ gm _ Hgm); rewrite ?Hcm; auto. }
  pose proof (Hs _ gm Hgm) as Hok. unfold stream_ok in Hok. rewrite Hcm in Hok.
  rewrite Hok, (pipe_flow s (length fs)) by done. by rewrite firstn_all.
Qed.

Lemma pipe_work : sum_list (map work p_stages) = length integers.
Proof.
  unfold p_stages, pipe_stages. simpl.
  assert (H0 : forall k (l : list (value -> option value)) tl,
    sum_list (map work (imap (fun j f => Transform 0 (1 + (k + j)) (2 + (k + j)) f) l ++ tl)) =
    sum_list (map work tl)).
  { intros k l tl. revert k. induction l as [|f l IH]; intros k; [done|]. simpl.
    rewrite <- (IH (S k)). f_equal. f_equal. f_equal. apply imap_ext. intros j x _. simpl.
    f_equal; lia. }
  rewrite (H0 0). simpl. lia.
Qed.

Lemma pipe_correct sched s :
  run sched (pipe_net integers fs) = Some s ->
  length sched <= (2 * length integers + 3) * (length fs + 2) /\
  (~ halted s -> exists ch s', exec1 ch s = Some s') /\
  (halted s -> output s = pipe fs integers).
Proof.
  intros Hrun.
  destruct (reach_inv _ _ _ pipe_wf _ _ Hrun) as [Hi Ho].
  split; [|split].
  - pose proof (run_potential _ _ _ pipe_wf _ _ _ (inv_boot _ _ _ pipe_wf)
                  pipe_no_repeat Hrun) as Hp.
    pose proof (potential_boot p_stages no_wg) as Hb. rewrite pipe_work in Hb.
    assert (Hl : length p_stages = length fs + 2).
    { unfold p_stages, pipe_stages. simpl. rewrite length_app, length_imap. simpl. lia. }
    rewrite Hl in Hb. unfold pipe_net in Hp. fold p_stages in Hp. nia.
  - apply (progress _ _ _ pipe_wf s _ _ Hi pipe_at_main).
  - intros Hh.
    apply (cancel_output _ _ _ pipe_wf pipe_straight _ pipe_closing sched s Hrun).
    destruct (stage_lookup _ s _ _ Hi pipe_at_main) as (gm & Hgm & Hcm).
    apply (inv_closed _ _ Hi _ gm 0 Hgm); [by rewrite Hcm|].
    unfold halted in Hh. rewrite Forall_lookup in Hh. by apply (Hh _ _ Hgm).
Qed.

End pipe.

(** * More programs of the notes *)

(** X13. Stages in a row, however many: a generator over a finite list,
    one transform stage for each function of [fs], and [main] ranging over
    the last stream. Every run is bounded and cannot get stuck, and once
    all goroutines have returned the values printed are what the stages,
    one after the other, make of the list, in its order. *)

Theorem stages_in_a_row integers fs sched s :
  run sched (pipe_net integers fs) = Some s ->
  length sched <= (2 * length integers + 3) * (length fs + 2) /\
  (~ halted s -> exists ch s', exec1 ch s = Some s') /\
  (halted s -> output s = pipe fs integers).
Proof. apply pipe_correct. Qed.

Lemma three_stage_pipe l a b c :
  three_stage_net l a b c =
  pipe_net (ints l) [on_int (multiply_item a); on_int (add_item b); on_int (multiply_item c)].
Proof. reflexivity. Qed.

(** Two finders in a row over 9, 4, 8: the first passes 3 and 7, and the
    second makes 2 of the 3 and drops the 7, as 6 is not prime. *)

Lemma stages_in_a_row_finders :
  exists s,
    run ([Comm 0 1; Comm 0 1; Comm 1 2; Comm 2 3; Comm 0 1; Comm 1 2; Local 0;
          Local 1; Local 1; Local 2; Local 2; Local 3; Local 3])
        (pipe_net (ints [9; 4; 8]%Z) [on_int primeFinder_item; on_int primeFinder_item])
      = Some s /\
    halted s /\ output s = ints [2]%Z.
Proof.
  run_to s Hrun. exists s. split; [done|].
  observe (fun s => map ctl (procs s)) (replicate 4 Halted).
  pose proof (halted_replicate s 4 Hobs) as Hh. split; [done|].
  destruct (stages_in_a_row _ _ _ s Hrun) as (_ & _ & Hout).
  by rewrite (Hout Hh).
Defined.

(** X14. The pipeline of the notes on channels prints what the pipeline on
    slices returns: for every list and all three constants, when all
    goroutines have returned the values printed are
    [multiply(add(multiply(l, a), b), c)], overflow included. *)

Theorem channels_as_slices (l : list Z) (a b c : Z) sched s :
  run sched (three_stage_net l a b c) = Some s ->
  length sched <= 5 * (2 * length l + 3) /\
  (~ halted s -> exists ch s', exec1 ch s = Some s') /\
  (halted s -> output s = ints (Batch.multiply (Batch.add (Batch.multiply l a) b) c)).
Proof.
  rewrite three_stage_pipe. intros Hrun.
  destruct (pipe_correct _ _ _ _ Hrun) as (Hlen & Hlive & Hout).
  unfold ints in Hlen. rewrite length_map in Hlen. simpl in Hlen.
  split; [lia|]. split; [done|].
  intros Hh. rewrite (Hout Hh). unfold pipe. simpl.
  rewrite !multiply_map, add_map.
  change (list_omap _ _ ?f ?x) with (omap f x).
  by rewrite !omap_on_int_ints.
Qed.

(** [generator(done, 1, 2, 3, 4)] with the constants 2, 1, 2 of the notes:
    6, 10, 14, 18 are printed. *)

Lemma channels_as_slices_notes :
  exists s, run three_stage_sched (three_stage_net [1; 2; 3; 4]%Z 2 1 2) = Some s /\
    halted s /\ output s = ints [6; 10; 14; 18]%Z.
Proof.
  run_to s Hrun. exists s. split; [done|].
  observe (fun s => map ctl (procs s)) (replicate 5 Halted).
  pose proof (halted_replicate s 5 Hobs) as Hh. split; [done|].
  destruct (channels_as_slices _ _ _ _ _ s Hrun) as (_ & _ & Hout).
  by rewrite (Hout Hh).
Defined.

(** X15. [take] over [repeatFn]: every run is bounded, though the
    generator has no end, and cannot get stuck; once all goroutines have
    returned, the values printed are the results of the first [num] calls
    of [fn], in their order, and nothing for a [num] of 0 or less. *)

Theorem take_of_repeatFn fn num sched s :
  run sched (repeat_take_net fn num) = Some s ->
  length sched <= 6 * Z.to_nat num + 9 /\
  (~ halted s -> exists ch s', exec1 ch s = Some s') /\
  (halted s ->
   output s = map fn (seq 0 (Z.to_nat num)) /\
   length (output s) = Z.to_nat num /\
   ((num <= 0)%Z -> output s = [])).
Proof.
  intros Hrun.
  destruct (repeat_take_correct _ _ _ _ Hrun) as (Hlen & Hlive & Hout).
  split; [done|]. split; [done|].
  intros Hh. rewrite (Hout Hh), length_map, length_seq. split; [done|]. split; [done|].
  intros Hle. by replace (Z.to_nat num) with 0 by lia.
Qed.

(** Three values of a function that counts in sevens. *)

Lemma take_of_repeatFn_sevens :
  exists s,
    run repeat_sched (repeat_take_net (fun k => VInt (Z.of_nat k * 7)) 3) = Some s /\
    halted s /\ output s = ints [0; 7; 14]%Z.
Proof.
  run_to s Hrun. exists s. split; [done|].
  observe (fun s => map ctl (procs s)) (replicate 3 Halted).
  pose proof (halted_replicate s 3 Hobs) as Hh. split; [done|].
  destruct (take_of_repeatFn _ _ _ s Hrun) as (_ & _ & Hout).
  by rewrite (proj1 (Hout Hh)).
Defined.

(** X16. [take] over [repeat] with a list of values that is not empty:
    every run is bounded and cannot get stuck, and once all goroutines have
    returned [num] values have been printed, the value at place [k] being
    the element [k mod len(values)] of the list. *)

Theorem take_of_repeat values num sched s :
  values <> [] ->
  run sched (cycle_net values num) = Some s ->
  length sched <= 6 * Z.to_nat num + 9 /\
  (~ halted s -> exists ch s', exec1 ch s = Some s') /\
  (halted s ->
   length (output s) = Z.to_nat num /\
   forall k, k < Z.to_nat num -> output s !! k = values !! (k mod length values)).
Proof.
  intros Hne Hrun.
  destruct (repeat_take_correct _ _ _ _ Hrun) as (Hlen & Hlive & Hout).
  split; [done|]. split; [done|].
  intros Hh. rewrite (Hout Hh), length_map, length_seq. split; [done|].
  intros k Hk. rewrite list_lookup_fmap, lookup_seq_lt by done. simpl.
  assert (Hlt : k mod length values < length values).
  { apply Nat.mod_upper_bound. by destruct values. }
  destruct (lookup_lt_is_Some_2 values _ Hlt) as [v Hv]. by rewrite Hv.
Qed.

(** Three values of the cycle 1, 2. *)

Lemma take_of_repeat_cycle :
  exists s, run repeat_sched (cycle_net [VInt 1; VInt 2] 3) = Some s /\
    halted s /\ output s = ints [1; 2; 1]%Z.
Proof.
  run_to s Hrun. exists s. split; [done|].
  observe (fun s => map ctl (procs s)) (replicate 3 Halted).
  pose proof (halted_replicate s 3 Hobs) as Hh. split; [done|].
  assert (Hne : [VInt 1; VInt 2] <> []) by done.
  destruct (take_of_repeat _ _ _ s Hne Hrun) as (_ & _ & Hout).
  destruct (Hout Hh) as [Hl Hk].
  apply (list_eq_same_length _ _ 3); [done|done|].
  intros k x y Hlt Hx Hy. rewrite (Hk k Hlt) in Hx.
  destruct k as [|[|[|k]]]; simpl in *; [congruence..|lia].
Defined.

(** X17. A pipeline without fan-out, as long as [done] is open: no stage
    drops, repeats or reorders a value. What a transform stage has handed
    on, with the value it holds, is what its function makes of the values
    handed to it; a generator has handed on the integers up to its place
    in the list; [take] has handed on what it received, with a [nil] for
    each receive from its closed input, and counts them; and [main] has
    printed what it received. *)

Theorem streams_carry d stages wg0 sched s i g :
  wf_net d stages wg0 -> straight stages ->
  run sched (boot stages wg0) = Some s ->
  d ∉ closed s ->
  procs s !! i = Some g ->
  stream_ok s g.
Proof.
  intros Hwf Hst Hrun Hd Hg.
  exact (streams_run _ _ _ Hwf Hst _ _ Hrun Hd i g Hg).
Qed.

(** The pipeline of the notes after the generator has handed over 1 and 2
    and the first stage has handed on 2: it holds 4. *)

Lemma streams_carry_notes :
  exists s g,
    run [Comm 0 1; Comm 1 2; Comm 0 1] (three_stage_net [1; 2; 3; 4]%Z 2 1 2) = Some s /\
    procs s !! 1 = Some g /\
    delivered 1 (trace s) = ints [1; 2]%Z /\ delivered 2 (trace s) = ints [2]%Z /\
    delivered 2 (trace s) ++ holding (ctl g) = ints [2; 4]%Z.
Proof.
  run_to s Hrun.
  observe (fun s => bool_decide (0 ∈ closed s)) false.
  apply bool_decide_eq_false in Hobs.
  observe (fun s => delivered 1 (trace s)) (ints [1; 2]%Z).
  observe (fun s => delivered 2 (trace s)) (ints [2]%Z).
  pose proof (pipe_wf (ints [1; 2; 3; 4]%Z)
    [on_int (multiply_item 2); on_int (add_item 1); on_int (multiply_item 2)]) as Hwf.
  pose proof (pipe_straight (ints [1; 2; 3; 4]%Z)
    [on_int (multiply_item 2); on_int (add_item 1); on_int (multiply_item 2)]) as Hst.
  destruct (stage_lookup _ s 1 (multiply 0 1 2 2)
              (proj1 (reach_inv _ _ _ Hwf _ _ Hrun)) eq_refl) as (g & Hg & Hc).
  exists s, g. split; [done|]. split; [done|]. split; [done|]. split; [done|].
  pose proof (streams_carry 0 _ _ _ s 1 g Hwf Hst Hrun Hobs Hg) as Hok.
  unfold stream_ok in Hok. rewrite Hc in Hok. unfold multiply in Hok.
  rewrite Hok, Hobs0. reflexivity.
Defined.

(** ** The prime search without fan-out *)

Lemma run_asserting_defined {A} (f : state -> A) asserts sched s0 v :
  option_map f (run_asserting asserts sched s0) = Some v ->
  exists s, run_asserting asserts sched s0 = Some s /\ f s = v.
Proof. destruct (run_asserting asserts sched s0) as [s|]; simpl; [|done]. intros [= <-]. eauto. Qed.

Section prime_search.
Context (rand : nat -> Z) (num : Z).

Let ps_stages : list stage :=
  [RepeatFn 0 1 (fun k => VInt (rand k)); toInt 0 1 2; primeFinder 0 2 3;
   Take 0 3 4 num; Main 0 4].

Lemma prime_search_wf : wf_net 0 ps_stages no_wg.
Proof.
  split.
  - intros st d' Hst Hd. unfold ps_stages in Hst. set_unfold.
    destruct Hst as [->|[->|[->|[->|[->|[]]]]]]; simpl in Hd; congruence.
  - simpl. repeat constructor; set_solver.
  - intros [|[|[|[|[|i]]]]] st c Hi Hr; simplify_eq/=.
    + exists 0, (RepeatFn 0 1 (fun k => VInt (rand k))). split; [lia|done].
    + exists 1, (toInt 0 1 2). split; [lia|done].
    + exists 2, (primeFinder 0 2 3). split; [lia|done].
    + exists 3, (Take 0 3 4 num). split; [lia|done].
  - intros [|[|[|[|[|i]]]]] ?????; simplify_eq/=.
  - intros [|[|[|[|[|i]]]]] ??????; simplify_eq/=.
  - done.
Qed.

Lemma prime_search_straight : straight ps_stages.
Proof.
  split.
  - simpl. repeat constructor; set_solver.
  - intros st Hst. unfold ps_stages in Hst. set_unfold.
    by destruct Hst as [->|[->|[->|[->|[->|[]]]]]].
Qed.

Lemma omap_to_int (l : list Z) : omap to_int (ints l) = ints l.
Proof. unfold ints. induction l as [|n l IH]; [done|]. simpl. f_equal. exact IH. Qed.

(** While [done] is open: what has been printed, with the values [take]
    and the finder hold, is what the finder makes of the first results of
    [rand]. *)

Lemma prime_search_open s :
  inv ps_stages s -> open_inv 0 s -> 0 ∉ closed s -> streams s ->
  exists k g3 g2,
    procs s !! 3 = Some g3 /\ procs s !! 2 = Some g2 /\
    output s ++ holding (ctl g3) ++ holding (ctl g2) =
      ints (omap primeFinder_item (map rand (seq 0 k))) /\
    taken num (ctl g3) (length (output s)).
Proof.
  intros Hi Ho Hd Hs.
  destruct (stage_lookup _ s 0 _ Hi (eq_refl : ps_stages !! 0 = Some _)) as (g0 & Hg0 & Hc0).
  destruct (stage_lookup _ s 1 _ Hi (eq_refl : ps_stages !! 1 = Some _)) as (g1 & Hg1 & Hc1).
  destruct (stage_lookup _ s 2 _ Hi (eq_refl : ps_stages !! 2 = Some _)) as (g2 & Hg2 & Hc2).
  destruct (stage_lookup _ s 3 _ Hi (eq_refl : ps_stages !! 3 = Some _)) as (g3 & Hg3 & Hc3).
  destruct (stage_lookup _ s 4 _ Hi (eq_refl : ps_stages !! 4 = Some _)) as (g4 & Hg4 & Hc4).
  pose proof (Hs 0 g0 Hg0) as Hs0. pose proof (Hs 1 g1 Hg1) as Hs1.
  pose proof (Hs 2 g2 Hg2) as Hs2. pose proof (Hs 3 g3 Hg3) as Hs3.
  pose proof (Hs 4 g4 Hg4) as Hs4.
  unfold stream_ok in Hs0, Hs1, Hs2, Hs3, Hs4.
  rewrite Hc0 in Hs0. rewrite Hc1 in Hs1. rewrite Hc2 in Hs2. rewrite Hc3 in Hs3.
  rewrite Hc4 in Hs4. unfold toInt in Hs1. unfold primeFinder in Hs2.
  destruct Hs0 as (k & Hk & Hd1). destruct Hs3 as [(m & Hm & Hcl) Hlen].
  (* the streams before [take] are open *)
  assert (H1 : 1 ∉ closed s).
  { intros H1. apply (inv_closed _ _ Hi 0 g0 1 Hg0) in H1; [|by rewrite Hc0]. congruence. }
  assert (H2 : 2 ∉ closed s).
  { intros H2. apply H1.
    apply (open_range _ _ Ho 1 g1 1 Hg1); rewrite ?Hc1; auto.
    right. apply (inv_closed _ _ Hi 1 g1 2 Hg1); [by rewrite Hc1|done]. }
  assert (H3 : 3 ∉ closed s).
  { intros H3. apply H2.
    apply (open_range _ _ Ho 2 g2 2 Hg2); rewrite ?Hc2; auto.
    right. apply (inv_closed _ _ Hi 2 g2 3 Hg2); [by rewrite Hc2|done]. }
  assert (m = 0) as -> by (destruct m; [done|]; destruct H3; apply Hcl; lia).
  simpl in Hm. rewrite app_nil_r in Hm.
  (* what the finder has received is a list of ints *)
  assert (Hints : exists k', delivered 2 (trace s) = ints (map rand (seq 0 k'))).
  { change (map (fun k => VInt (rand k)) (seq 0 k)) with
      (map (fun k => VInt (rand k)) (seq 0 k)) in Hd1.
    assert (Hd1' : delivered 1 (trace s) = ints (map rand (seq 0 k))).
    { rewrite Hd1. unfold ints. by rewrite map_map. }
    rewrite Hd1', omap_to_int in Hs1.
    destruct (holding (ctl g1)) as [|h [|h' hs]] eqn:Hh.
    - rewrite app_nil_r in Hs1. eauto.
    - destruct k as [|k].
      + simpl in Hs1. by destruct (delivered 2 (trace s)).
      + exists k. rewrite seq_S, map_app in Hs1. unfold ints in Hs1 at 1.
        rewrite map_app in Hs1. simpl in Hs1. by apply app_inj_tail in Hs1 as [? _].
    - by destruct (ctl g1). }
  destruct Hints as [k' Hk'].
  exists k', g3, g2. split; [done|]. split; [done|].
  rewrite Hk', omap_on_int_ints in Hs2.
  rewrite Hs4. split; [|exact Hlen].
  rewrite <- Hs2, <- Hm. by rewrite <- app_assoc.
Qed.

Lemma prime_search_closing s i g :
  inv ps_stages s -> open_inv 0 s -> 0 ∉ closed s -> streams s ->
  procs s !! i = Some g -> op_of g = OClose 0 ->
  exists k, output s =
              take (Z.to_nat num) (ints (omap primeFinder_item (map rand (seq 0 k)))) /\
            length (output s) = Z.to_nat num.
Proof.
  intros Hi Ho Hd Hs Hg Hop.
  destruct (prime_search_open s Hi Ho Hd Hs) as (k & g3 & g2 & Hg3 & Hg2 & Hout & Hlen).
  destruct (stage_lookup _ s 4 _ Hi (eq_refl : ps_stages !! 4 = Some _)) as (g4 & Hg4 & Hc4).
  assert (i = 4) as ->.
  { apply pending_close in Hop as (Hcl & _).
    apply (owner_unique _ _ _ prime_search_wf s i 4 g g4 0); try done. by rewrite Hc4. }
  assert (g = g4) as -> by congruence.
  assert (Hx : ctl g4 = AtExit).
  { unfold op_of in Hop. rewrite Hc4 in Hop. by destruct (ctl g4). }
  assert (H4 : 4 ∈ closed s).
  { apply (open_range _ _ Ho 4 g4 4 Hg4); rewrite ?Hc4; auto. }
  assert (Hh3 : ctl g3 = Halted).
  { pose proof (code_lookup _ _ _ _ Hi Hg3) as Hc3. injection Hc3 as Hc3.
    apply (inv_closed _ _ Hi 3 g3 4 Hg3); [by rewrite <- Hc3|done]. }
  exists k. rewrite Hh3 in Hout, Hlen. simpl in Hout, Hlen. split; [|done].
  rewrite <- Hout, <- Hlen. by rewrite take_app_length.
Qed.

(** Only [repeatFn] sends to [toInt], and what it sends are ints: the
    assertion holds at every hand-over. *)

Lemma prime_search_asserted s ch s' :
  inv ps_stages s -> exec1 ch s = Some s' ->
  assertion_fails prime_search_asserts ch s = false.
Proof.
  intros Hi He. unfold assertion_fails, handed_over.
  destruct ch as [i|i j|i]; try done.
  destruct (procs s !! i) as [gi|] eqn:Hgi; [|done]. simpl.
  destruct (sends (op_of gi)) as [[c v]|] eqn:Hsend; [|done]. simpl.
  unfold prime_search_asserts. case_bool_decide as Hj; [subst j|done]. simpl.
  apply bool_decide_eq_false.
  unfold exec1 in He. rewrite (inv_nopanic _ _ Hi) in He. unfold comm in He.
  destruct (decide (i = 1)) as [|Hne]; [done|].
  rewrite Hgi in He. simpl in He.
  destruct (stage_lookup _ s 1 _ Hi (eq_refl : ps_stages !! 1 = Some _)) as (g1 & Hg1 & Hc1).
  rewrite Hg1, Hsend in He. simpl in He.
  assert (Hc : c = 1).
  { unfold op_of in He. rewrite Hc1 in He.
    destruct (ctl g1); simpl in He; try done. by case_decide as Hd; [destruct Hd as [-> _]|]. }
  subst c.
  pose proof (code_lookup _ _ _ _ Hi Hgi) as Hci.
  unfold op_of in Hsend.
  destruct i as [|[|[|[|[|i]]]]]; simplify_eq/=; rewrite <- Hci in Hsend;
    destruct (ctl gi); simpl in Hsend; repeat case_match; simplify_eq/=; done.
Qed.

Lemma prime_search_asserting sched s :
  run_asserting prime_search_asserts sched (boot ps_stages no_wg) = Some s ->
  run sched (boot ps_stages no_wg) = Some s.
Proof.
  assert (Hgen : forall s0, inv ps_stages s0 ->
    run_asserting prime_search_asserts sched s0 = Some s -> run sched s0 = Some s).
  { induction sched as [|ch sched IH]; intros s0 Hi; simpl; [done|].
    unfold exec1_asserting.
    destruct (exec1 ch s0) as [s1|] eqn:He; simpl; [|done].
    rewrite (prime_search_asserted s0 ch s1 Hi He).
    apply IH. eapply (inv_exec1 0); eauto using prime_search_wf. }
  apply Hgen. eapply inv_boot, prime_search_wf.
Qed.

End prime_search.

(** X18. The prime search without fan-out,
    [take(done, primeFinder(done, toInt(done, repeatFn(done, rand))), num)],
    with the panic of the assertion [v.(int)] of [toInt] among its steps:
    it never panics, since only [repeatFn] sends to [toInt] and what it
    sends are ints, and it cannot get stuck. As long as [done] is open, what
    has been printed is the beginning of the list of the values the finder
    passes for the first results of [rand], in the order of the calls, and
    never more than [num] values; once [main] has closed [done], it is the
    first [num] values of that list. Whether that comes about is up to
    [rand]. *)

Theorem prime_search_in_order rand num sched s :
  run_asserting prime_search_asserts sched (prime_search_net rand num) = Some s ->
  panicked s = false /\
  (forall ch s', exec1 ch s = Some s' -> assertion_fails prime_search_asserts ch s = false) /\
  (~ halted s -> exists ch s', exec1_asserting prime_search_asserts ch s = Some s') /\
  (0 ∉ closed s ->
   exists k, output s `prefix_of` ints (omap primeFinder_item (map rand (seq 0 k))) /\
             length (output s) <= Z.to_nat num) /\
  (0 ∈ closed s ->
   exists k, output s =
               take (Z.to_nat num) (ints (omap primeFinder_item (map rand (seq 0 k)))) /\
             length (output s) = Z.to_nat num).
Proof.
  intros Hrun. apply prime_search_asserting in Hrun.
  pose proof (prime_search_wf rand num) as Hwf.
  destruct (reach_inv _ _ _ Hwf _ _ Hrun) as [Hi Ho].
  split; [by apply (inv_nopanic _ _ Hi)|]. split; [|split; [|split]].
  - intros ch s' He. by apply (prime_search_asserted rand num s ch s').
  - intros Hnh. destruct (progress _ _ _ Hwf s 4 4 Hi eq_refl Hnh) as (ch & s' & He).
    exists ch, s'. unfold exec1_asserting. rewrite He. simpl.
    by rewrite (prime_search_asserted rand num s ch s').
  - intros Hd.
    pose proof (streams_run _ _ _ Hwf (prime_search_straight rand num) _ _ Hrun Hd) as Hs.
    destruct (prime_search_open rand num s Hi Ho Hd Hs) as (k & g3 & g2 & Hg3 & Hg2 & Hout & Hlen).
    exists k. split; [rewrite <- Hout; by apply prefix_app_r|].
    pose proof (open_noexit _ _ Ho 3 g3 Hg3) as Hne.
    pose proof (code_lookup _ _ _ _ Hi Hg3) as Hc3. injection Hc3 as Hc3.
    rewrite <- Hc3 in Hne. specialize (Hne eq_refl eq_refl Hd).
    unfold taken in Hlen. destruct (ctl g3); try lia. done.
  - apply (cancel_output_with _ _ _ Hwf (prime_search_straight rand num)
             (fun out => exists k, out = take (Z.to_nat num)
                (ints (omap primeFinder_item (map rand (seq 0 k)))) /\
                length out = Z.to_nat num)
             (prime_search_closing rand num) sched s Hrun).
Qed.

(** With 9, 4, 8 as the first results of [rand] and [num] 2: 3 and 7 are
    printed. *)

Lemma prime_search_in_order_run :
  exists s,
    run_asserting prime_search_asserts prime_search_sched
      (prime_search_net (fun k => nth k [9; 4; 8]%Z 1%Z) 2) = Some s /\
    panicked s = false /\ output s = ints [3; 7]%Z.
Proof.
  destruct (run_asserting_defined output prime_search_asserts prime_search_sched
              (prime_search_net (fun k => nth k [9; 4; 8]%Z 1%Z) 2) (ints [3; 7]%Z))
    as (s & Hrun & Hout); [vm_compute; reflexivity|].
  exists s. split; [done|]. split; [|done].
  exact (proj1 (prime_search_in_order _ _ _ s Hrun)).
Defined.

(** [toInt] after a [take] that hands on the [nil] of a closed stream: the
    assertion panics. *)

Lemma toInt_panics_on_nil :
  exists s, run_asserting (fun j => bool_decide (j = 2)) nil_assert_sched nil_assert_net = Some s /\
    panicked s = true.
Proof.
  destruct (run_asserting_defined panicked (fun j => bool_decide (j = 2)) nil_assert_sched
              nil_assert_net true) as (s & Hrun & Hp); [vm_compute; reflexivity|].
  by exists s.
Qed.

(** * The loop of the typed [take] *)

Lemma typed_take_counts fuel i sent :
  (0 <= i <= max_int)%Z -> Z.to_nat i <= fuel ->
  typed_take fuel (fun _ => false) i sent = Some (sent + Z.to_nat i).
Proof.
  revert i sent. induction fuel as [|fuel IH]; intros i sent Hi Hf.
  - assert (i = 0%Z) as -> by lia. simpl. f_equal. lia.
  - destruct (decide (i = 0%Z)) as [->|Hne].
    { simpl. f_equal. lia. }
    cbn [typed_take].
    assert (Hc : ((i >? 0) || (i =? -1))%Z = true).
    { apply orb_true_iff. left. rewrite Z.gtb_ltb. apply Z.ltb_lt. lia. }
    rewrite Hc. assert (Hm : (i =? -1)%Z = false) by (apply Z.eqb_neq; lia).
    rewrite Hm. cbv zeta. rewrite wrap_int_id by (unfold in_int, min_int, max_int in *; lia).
    rewrite IH by lia. f_equal. lia.
Qed.

Lemma typed_take_forever fuel cancelled sent :
  (forall k, cancelled k = false) -> typed_take fuel cancelled (-1) sent = None.
Proof.
  intros Hc. revert sent. induction fuel as [|fuel IH]; intros sent; [done|].
  cbn [typed_take]. simpl. by rewrite Hc, IH.
Qed.

(** X19. The loop of [take] in [BenchmarkTyped], when [done] stays open:
    for a [num] from 0 on it sends [num] values and ends; for a [num] of
    -1 it never ends; for a [num] below -1 it sends nothing. When [done] is
    taken in the round after [k] values, with [k] below [num] or [num] -1,
    it ends with [k] values sent. *)

Theorem typed_take_rounds (num : Z) (fuel k : nat) :
  (min_int <= num <= max_int)%Z ->
  ((0 <= num)%Z -> Z.to_nat num <= fuel ->
   typed_take fuel (fun _ => false) num 0 = Some (Z.to_nat num)) /\
  (num = (-1)%Z -> typed_take fuel (fun _ => false) num 0 = None) /\
  ((num < -1)%Z -> typed_take fuel (fun _ => false) num 0 = Some 0) /\
  ((Z.of_nat k < num)%Z \/ num = (-1)%Z -> k < fuel ->
   typed_take fuel (fun j => bool_decide (j = k)) num 0 = Some k).
Proof.
  intros Hn. split; [|split; [|split]].
  - intros H0 Hf. by rewrite typed_take_counts by lia.
  - intros ->. by apply typed_take_forever.
  - intros Hlt. destruct fuel; simpl;
      (replace ((num >? 0) || (num =? -1))%Z with false; [done|]);
      symmetry; apply orb_false_iff; (split; [rewrite Z.gtb_ltb; apply Z.ltb_ge|apply Z.eqb_neq]); lia.
  - intros Hk Hf.
    assert (Hgen : forall fuel' i sent,
      sent <= k -> k - sent < fuel' ->
      (i = (-1)%Z \/ (Z.of_nat (k - sent) < i <= max_int)%Z) ->
      typed_take fuel' (fun j => bool_decide (j = k)) i sent = Some k).
    { clear. induction fuel' as [|fuel' IH]; intros i sent Hs Hf Hi; [lia|].
      cbn [typed_take].
      assert (Hc : ((i >? 0) || (i =? -1))%Z = true).
      { apply orb_true_iff. destruct Hi as [->|Hi]; [by right|left].
        rewrite Z.gtb_ltb. apply Z.ltb_lt. lia. }
      rewrite Hc. cbv zeta. case_bool_decide as Hsk; [by subst|].
      apply IH; [lia|lia|].
      destruct Hi as [->|Hi]; [by left|].
      destruct (i =? -1)%Z eqn:Hm; [apply Z.eqb_eq in Hm; lia|].
      right. rewrite wrap_int_id by (unfold in_int, min_int, max_int in *; lia). lia. }
    apply Hgen; [lia|lia|].
    destruct Hk as [Hk| ->]; [right|by left]. rewrite Nat.sub_0_r. lia.
Qed.

(** Three values, the unbounded loop after five rounds, and [done] taken
    after two values. *)

Lemma typed_take_rounds_three :
  typed_take 3 (fun _ => false) 3 0 = Some 3 /\
  typed_take 5 (fun _ => false) (-1) 0 = None /\
  typed_take 5 (fun j => bool_decide (j = 2)) (-1) 0 = Some 2.
Proof.
  assert (Hn3 : (min_int <= 3 <= max_int)%Z) by (vm_compute; split; discriminate).
  assert (Hn1 : (min_int <= -1 <= max_int)%Z) by (vm_compute; split; discriminate).
  split; [|split].
  - refine (proj1 (typed_take_rounds 3 3 0 Hn3) _ _); [lia|simpl; lia].
  - exact (proj1 (proj2 (typed_take_rounds (-1) 5 0 Hn1)) eq_refl).
  - refine (proj2 (proj2 (proj2 (typed_take_rounds (-1) 5 2 Hn1))) _ _); [by right|lia].
Defined.

(** * No goroutine is left behind *)

Lemma run_snoc_step sched ch s s1 s2 :
  run sched s = Some s1 -> exec1 ch s1 = Some s2 -> run (sched ++ [ch]) s = Some s2.
Proof. intros Hr He. rewrite run_app, Hr. simpl. by rewrite He. Qed.

Lemma completes_from d stages wg0 m inp n :
  wf_net d stages wg0 ->
  stages !! m = Some (Main d inp) ->
  (forall st, st ∈ stages -> is_repeat st = false) ->
  forall s, inv stages s -> potential s <= n ->
    exists sched' s', run sched' s = Some s' /\ halted s'.
Proof.
  intros Hwf Hm Hfin. induction n as [|n IH]; intros s Hi Hp.
  - destruct (halted_dec s) as [Hh|Hn]; [by exists [], s|].
    destruct (progress _ _ _ Hwf s m inp Hi Hm Hn) as (ch & s1 & He).
    pose proof (potential_moves _ _ _ Hwf _ _ Hi Hfin (exec1_moves _ _ _ Hwf _ _ _ Hi He)).
    lia.
  - destruct (halted_dec s) as [Hh|Hn]; [by exists [], s|].
    destruct (progress _ _ _ Hwf s m inp Hi Hm Hn) as (ch & s1 & He).
    pose proof (potential_moves _ _ _ Hwf _ _ Hi Hfin (exec1_moves _ _ _ Hwf _ _ _ Hi He)).
    destruct (IH s1) as (sched' & s' & Hr & Hh); [by eapply inv_exec1|lia|].
    exists (ch :: sched'), s'. split; [|done]. simpl. by rewrite He.
Qed.

(** X20. A pipeline with finite generators and [main] ranging over one of
    its streams always runs to its end: from every state it can reach,
    some run leads to a state in which all goroutines have returned and the
    stream of every stage is closed; and as no run is longer than the
    bound, every run that cannot be continued has got there. *)

Theorem pipeline_completes d stages wg0 m inp sched s :
  wf_net d stages wg0 ->
  stages !! m = Some (Main d inp) ->
  (forall st, st ∈ stages -> is_repeat st = false) ->
  run sched (boot stages wg0) = Some s ->
  (exists sched' s',
     run (sched ++ sched') (boot stages wg0) = Some s' /\ halted s' /\
     (forall i st c, stages !! i = Some st -> closes st = Some c -> c ∈ closed s')) /\
  ((forall ch, exec1 ch s = None) -> halted s).
Proof.
  intros Hwf Hm Hfin Hrun.
  destruct (reach_inv _ _ _ Hwf _ _ Hrun) as [Hi _]. split.
  - destruct (completes_from _ _ _ m inp (potential s) Hwf Hm Hfin s Hi (le_n _))
      as (sched' & s' & Hr & Hh).
    exists sched', s'. split; [by rewrite run_app, Hrun|]. split; [done|].
    intros i st c Hst Hc.
    assert (Hi' : inv stages s') by (by eapply inv_run).
    destruct (stage_lookup _ s' i st Hi' Hst) as (g & Hg & Hcg).
    apply (inv_closed _ _ Hi' i g c Hg); [by rewrite Hcg|].
    unfold halted in Hh. rewrite Forall_lookup in Hh. by apply (Hh i).
  - intros Hstuck. destruct (halted_dec s) as [Hh|Hn]; [done|].
    destruct (progress _ _ _ Hwf s m inp Hi Hm Hn) as (ch & s1 & He).
    by rewrite Hstuck in He.
Qed.

(** Two finders over 3 and 4 after the first hand-overs: the program can
    be run to its end. *)

Lemma pipeline_completes_pair :
  exists sched' s', run (pair_sched_a ++ sched') pair_net = Some s' /\ halted s'.
Proof.
  destruct (run_defined panicked pair_sched_a pair_net false) as [s Hrun];
    [vm_compute; reflexivity|].
  destruct (pipeline_completes 0 _ _ 7 3 pair_sched_a s
              (fofi_wf (ints [3; 4]%Z) (on_int primeFinder_item) 2 2) eq_refl
              (fofi_no_repeat (ints [3; 4]%Z) (on_int primeFinder_item) 2 2) Hrun)
    as [(sched' & s' & Hr & Hh & _) _].
  by exists sched', s'.
Defined.
